(** * EclWellManager: a shallow embedding of [applications/ebos/eclwellmanager.hh]

    The well manager of the ebos simulator bridges the time-indexed well
    schedule of an Eclipse deck and the per-cell data of the solver.  This
    development embeds the manager's methods as Rocq functions over an
    explicit manager state and proves the properties its description
    states about them. *)

From stdpp Require Import base option list gmap sets strings.
From Stdlib Require Import ZArith QArith.
Local Open Scope string_scope.
Local Open Scope Z_scope.
Local Open Scope list_scope.

(** ** The [TypeTag] properties

    The class is a template over a [TypeTag]; the properties it reads are
    [Scalar], [RateVector] and the phase indices of the [FluidSystem].  The
    arithmetic the manager itself performs on them is its interface:
    the literals [0.0], [1.0], [1e100], [-1e100], the product [0.5*x], the
    tests [std::isfinite(x)] and [x > 0.0], and on rate vectors the
    assignment [q = 0.0] and [q += r]. *)
Class TypeTag := {
  Scalar : Type;
  scalar_0 : Scalar;
  scalar_1 : Scalar;
  scalar_1e100 : Scalar;
  scalar_neg_1e100 : Scalar;
  scalar_half : Scalar -> Scalar;
  scalar_isfinite : Scalar -> bool;
  scalar_gt0 : Scalar -> bool;
  RateVector : Type;
  rate_0 : RateVector;
  rate_add : RateVector -> RateVector -> RateVector;
}.

(** Exact arithmetic on rate vectors: addition is a commutative monoid. *)
Class RateVectorLaws (TT : TypeTag) : Prop := {
  rate_add_comm : forall q r : RateVector, rate_add q r = rate_add r q;
  rate_add_assoc : forall q r s : RateVector,
    rate_add (rate_add q r) s = rate_add q (rate_add r s);
  rate_add_0_l : forall q : RateVector, rate_add rate_0 q = q;
}.

(** ** Failures

    [assert] aborts, [OPM_THROW(std::runtime_error, msg)] throws, and
    [CompletionSet::get] throws [std::range_error] out of range. *)
Inductive Failure :=
  | AssertionFailed (expr : string)
  | RuntimeError (what : string)
  | RangeError.

Inductive Result (A : Type) :=
  | Ok (a : A)
  | Err (e : Failure).
Arguments Ok {A} a.
Arguments Err {A} e.

#[global] Instance Result_ret : MRet Result := fun A a => Ok a.
#[global] Instance Result_bind : MBind Result := fun A B f r =>
  match r with
  | Ok a => f a
  | Err e => Err e
  end.

Definition assert (cond : bool) (expr : string) : Result unit :=
  if cond then Ok tt else Err (AssertionFailed expr).

Definition failed {A} (r : Result A) : Prop := exists e, r = Err e.

(** ** The deck (opm-parser), as the manager reads it *)

Module WellCommon.
Inductive StatusEnum := AUTO | OPEN | STOP | SHUT.
End WellCommon.

Module WellInjector.
Inductive TypeEnum := WATER | GAS | OIL | MULTI.
Inductive ControlModeEnum := RATE | RESV | BHP | THP | GRUP | CMODE_UNDEFINED.
End WellInjector.

Module WellProducer.
Inductive ControlModeEnum :=
  ORAT | WRAT | GRAT | LRAT | CRAT | RESV | BHP | THP | GRUP | CMODE_UNDEFINED.
End WellProducer.

Section Deck.
Context {TT : TypeTag}.

(** [getDiameter] throws [std::logic_error] when the deck left the
    diameter out: [None]. *)
Record Completion := {
  getI : Z;
  getJ : Z;
  getK : Z;
  getDiameter : option Scalar;
  getConnectionTransmissibilityFactor : Scalar;
}.

Record WellInjectionProperties := {
  injectorType : WellInjector.TypeEnum;
  inj_controlMode : WellInjector.ControlModeEnum;
  surfaceInjectionRate : Scalar;
  reservoirInjectionRate : Scalar;
  inj_BHPLimit : Scalar;
  inj_THPLimit : Scalar;
}.

Record WellProductionProperties := {
  prod_controlMode : WellProducer.ControlModeEnum;
  OilRate : Scalar;
  GasRate : Scalar;
  WaterRate : Scalar;
  LiquidRate : Scalar;
  ResVRate : Scalar;
  prod_BHPLimit : Scalar;
  prod_THPLimit : Scalar;
}.

(** [Opm::Well]: the name is fixed, everything else is indexed by the
    report step. *)
Record DeckWell := {
  name : string;
  getStatus : Z -> WellCommon.StatusEnum;
  isInjector : Z -> bool;
  isProducer : Z -> bool;
  getInjectionProperties : Z -> WellInjectionProperties;
  getProductionProperties : Z -> WellProductionProperties;
  getRefDepthDefaulted : bool;
  getRefDepth : Scalar;
  getCompletions : Z -> list Completion;
}.

(** [Opm::Schedule]: [getWells()] lists every well of the deck,
    [getWells(step)] those of one report step. *)
Record Schedule := {
  getAllWells : list DeckWell;
  getWells : Z -> list DeckWell;
}.

Record EclipseGrid := {
  getNX : Z;
  getNY : Z;
}.

Record EclipseState := {
  getSchedule : Schedule;
  getEclipseGrid : EclipseGrid;
}.

(** ** [wellTopologyChanged_] *)

Definition sameIJK (curCompletion prevCompletion : Completion) : bool :=
  (getI curCompletion =? getI prevCompletion)
  && (getJ curCompletion =? getJ prevCompletion)
  && (getK curCompletion =? getK prevCompletion).

(** The loop [for (prevWellIt = begin; ; ++prevWellIt)]: [None] when the end
    is reached, the first well of that name otherwise. *)
Fixpoint findPrevWell (prevDeckWells : list DeckWell) (curName : string)
  : option DeckWell :=
  match prevDeckWells with
  | [] => None
  | prevWell :: rest =>
      if String.eqb (name prevWell) curName then Some prevWell
      else findPrevWell rest curName
  end.

(** The loop [for (prevWellComplIdx = 0;; ++prevWellComplIdx)], run over the
    values [prevWellComplIdx] still has to take.  [true]: the function
    returns true; [false]: the [break].  The completion read from the
    previous set is the one at [curWellComplIdx]. *)
Fixpoint scanPrevCompletions (prevWellComplIdxs : list nat)
    (curWellComplIdx : nat) (curCompletion : Completion)
    (prevCompletionSet : list Completion) : Result bool :=
  match prevWellComplIdxs with
  | [] => Ok true
  | _ :: rest =>
      match prevCompletionSet !! curWellComplIdx with
      | None => Err RangeError
      | Some prevCompletion =>
          if sameIJK curCompletion prevCompletion then Ok false
          else scanPrevCompletions rest curWellComplIdx curCompletion
                 prevCompletionSet
      end
  end.

(** The loop over [curWellComplIdx], on the completions not yet visited. *)
Fixpoint compareCompletions (curWellComplIdx : nat)
    (curRest : list Completion) (prevCompletionSet : list Completion)
  : Result bool :=
  match curRest with
  | [] => Ok false
  | curCompletion :: rest =>
      changed ← scanPrevCompletions (seq 0 (length prevCompletionSet))
                  curWellComplIdx curCompletion prevCompletionSet;
      if changed : bool then Ok true
      else compareCompletions (S curWellComplIdx) rest prevCompletionSet
  end.

(** The loop over the wells of the current report step. *)
Fixpoint compareWells (reportStepIdx : Z) (curRest prevDeckWells : list DeckWell)
  : Result bool :=
  match curRest with
  | [] => Ok false
  | curWell :: rest =>
      match findPrevWell prevDeckWells (name curWell) with
      | None => Ok true
      | Some prevWell =>
          let curCompletionSet := getCompletions curWell reportStepIdx in
          let prevCompletionSet := getCompletions prevWell reportStepIdx in
          if negb (length curCompletionSet =? length prevCompletionSet)%nat
          then Ok true
          else
            changed ← compareCompletions 0 curCompletionSet prevCompletionSet;
            if changed : bool then Ok true
            else compareWells reportStepIdx rest prevDeckWells
      end
  end.

Definition wellTopologyChanged_ (eclState : EclipseState) (reportStepIdx : Z)
  : Result bool :=
  if reportStepIdx =? 0 then Ok true
  else
    let deckSchedule := getSchedule eclState in
    let curDeckWells := getWells deckSchedule reportStepIdx in
    let prevDeckWells := getWells deckSchedule (reportStepIdx - 1) in
    if negb (length curDeckWells =? length prevDeckWells)%nat then Ok true
    else compareWells reportStepIdx curDeckWells prevDeckWells.

End Deck.

(** ** The well object ([EclPeacemanWell], declared in [eclpeacemanwell.hh]) *)

Inductive WellStatus := Open | Closed | Shut.
Inductive WellType := Injector | Producer.
Inductive ControlMode :=
  | VolumetricSurfaceRate
  | VolumetricReservoirRate
  | BottomHolePressure
  | TubingHeadPressure.

(** The phase indices of the [FluidSystem], kept symbolic. *)
Inductive PhaseIdx := oilPhaseIdx | gasPhaseIdx | waterPhaseIdx.

Section Well.
Context {TT : TypeTag}.

(** Per-DOF overrides; [None]: the value the solver computes stands. *)
Record DofVariables := {
  radius : option Scalar;
  connectionTransmissibilityFactor : option Scalar;
}.

(** Modelled from the spec: the runtime state of a well, [EclPeacemanWell],
    which is not part of this file.  A field is [None] until its setter has
    been called; [dofVariables] is the set of owned DOFs (global indices) with
    their overrides. *)
Record Well := {
  wellName : string;
  wellStatus : option WellStatus;
  wellType : option WellType;
  controlMode : option ControlMode;
  injectedPhaseIndex : option PhaseIdx;
  volumetricPhaseWeights : option (Scalar * Scalar * Scalar);
  maximumSurfaceRate : option Scalar;
  maximumReservoirRate : option Scalar;
  targetBottomHolePressure : option Scalar;
  targetTubingHeadPressure : option Scalar;
  referenceDepth : option Scalar;
  dofVariables : gmap Z DofVariables;
}.

(** Modelled from the spec: [new Well(simulator_)], a placeholder with nothing
    set. *)
Definition newWell : Well :=
  {| wellName := ""; wellStatus := None; wellType := None; controlMode := None;
     injectedPhaseIndex := None; volumetricPhaseWeights := None;
     maximumSurfaceRate := None; maximumReservoirRate := None;
     targetBottomHolePressure := None; targetTubingHeadPressure := None;
     referenceDepth := None; dofVariables := ∅ |}.

(** Modelled from the spec: the configuration setters of the well; each
    overwrites its field and nothing else. *)
Definition setName (n : string) (w : Well) : Well :=
  {| wellName := n; wellStatus := wellStatus w; wellType := wellType w;
     controlMode := controlMode w; injectedPhaseIndex := injectedPhaseIndex w;
     volumetricPhaseWeights := volumetricPhaseWeights w;
     maximumSurfaceRate := maximumSurfaceRate w;
     maximumReservoirRate := maximumReservoirRate w;
     targetBottomHolePressure := targetBottomHolePressure w;
     targetTubingHeadPressure := targetTubingHeadPressure w;
     referenceDepth := referenceDepth w; dofVariables := dofVariables w |}.

Definition setWellStatus (s : WellStatus) (w : Well) : Well :=
  {| wellName := wellName w; wellStatus := Some s; wellType := wellType w;
     controlMode := controlMode w; injectedPhaseIndex := injectedPhaseIndex w;
     volumetricPhaseWeights := volumetricPhaseWeights w;
     maximumSurfaceRate := maximumSurfaceRate w;
     maximumReservoirRate := maximumReservoirRate w;
     targetBottomHolePressure := targetBottomHolePressure w;
     targetTubingHeadPressure := targetTubingHeadPressure w;
     referenceDepth := referenceDepth w; dofVariables := dofVariables w |}.

Definition setWellType (t : WellType) (w : Well) : Well :=
  {| wellName := wellName w; wellStatus := wellStatus w; wellType := Some t;
     controlMode := controlMode w; injectedPhaseIndex := injectedPhaseIndex w;
     volumetricPhaseWeights := volumetricPhaseWeights w;
     maximumSurfaceRate := maximumSurfaceRate w;
     maximumReservoirRate := maximumReservoirRate w;
     targetBottomHolePressure := targetBottomHolePressure w;
     targetTubingHeadPressure := targetTubingHeadPressure w;
     referenceDepth := referenceDepth w; dofVariables := dofVariables w |}.

Definition setControlMode (c : ControlMode) (w : Well) : Well :=
  {| wellName := wellName w; wellStatus := wellStatus w; wellType := wellType w;
     controlMode := Some c; injectedPhaseIndex := injectedPhaseIndex w;
     volumetricPhaseWeights := volumetricPhaseWeights w;
     maximumSurfaceRate := maximumSurfaceRate w;
     maximumReservoirRate := maximumReservoirRate w;
     targetBottomHolePressure := targetBottomHolePressure w;
     targetTubingHeadPressure := targetTubingHeadPressure w;
     referenceDepth := referenceDepth w; dofVariables := dofVariables w |}.

Definition setInjectedPhaseIndex (p : PhaseIdx) (w : Well) : Well :=
  {| wellName := wellName w; wellStatus := wellStatus w; wellType := wellType w;
     controlMode := controlMode w; injectedPhaseIndex := Some p;
     volumetricPhaseWeights := volumetricPhaseWeights w;
     maximumSurfaceRate := maximumSurfaceRate w;
     maximumReservoirRate := maximumReservoirRate w;
     targetBottomHolePressure := targetBottomHolePressure w;
     targetTubingHeadPressure := targetTubingHeadPressure w;
     referenceDepth := referenceDepth w; dofVariables := dofVariables w |}.

Definition setVolumetricPhaseWeights (oil gas water : Scalar) (w : Well) : Well :=
  {| wellName := wellName w; wellStatus := wellStatus w; wellType := wellType w;
     controlMode := controlMode w; injectedPhaseIndex := injectedPhaseIndex w;
     volumetricPhaseWeights := Some (oil, gas, water);
     maximumSurfaceRate := maximumSurfaceRate w;
     maximumReservoirRate := maximumReservoirRate w;
     targetBottomHolePressure := targetBottomHolePressure w;
     targetTubingHeadPressure := targetTubingHeadPressure w;
     referenceDepth := referenceDepth w; dofVariables := dofVariables w |}.

Definition setMaximumSurfaceRate (r : Scalar) (w : Well) : Well :=
  {| wellName := wellName w; wellStatus := wellStatus w; wellType := wellType w;
     controlMode := controlMode w; injectedPhaseIndex := injectedPhaseIndex w;
     volumetricPhaseWeights := volumetricPhaseWeights w;
     maximumSurfaceRate := Some r;
     maximumReservoirRate := maximumReservoirRate w;
     targetBottomHolePressure := targetBottomHolePressure w;
     targetTubingHeadPressure := targetTubingHeadPressure w;
     referenceDepth := referenceDepth w; dofVariables := dofVariables w |}.

Definition setMaximumReservoirRate (r : Scalar) (w : Well) : Well :=
  {| wellName := wellName w; wellStatus := wellStatus w; wellType := wellType w;
     controlMode := controlMode w; injectedPhaseIndex := injectedPhaseIndex w;
     volumetricPhaseWeights := volumetricPhaseWeights w;
     maximumSurfaceRate := maximumSurfaceRate w;
     maximumReservoirRate := Some r;
     targetBottomHolePressure := targetBottomHolePressure w;
     targetTubingHeadPressure := targetTubingHeadPressure w;
     referenceDepth := referenceDepth w; dofVariables := dofVariables w |}.

Definition setTargetBottomHolePressure (p : Scalar) (w : Well) : Well :=
  {| wellName := wellName w; wellStatus := wellStatus w; wellType := wellType w;
     controlMode := controlMode w; injectedPhaseIndex := injectedPhaseIndex w;
     volumetricPhaseWeights := volumetricPhaseWeights w;
     maximumSurfaceRate := maximumSurfaceRate w;
     maximumReservoirRate := maximumReservoirRate w;
     targetBottomHolePressure := Some p;
     targetTubingHeadPressure := targetTubingHeadPressure w;
     referenceDepth := referenceDepth w; dofVariables := dofVariables w |}.

Definition setTargetTubingHeadPressure (p : Scalar) (w : Well) : Well :=
  {| wellName := wellName w; wellStatus := wellStatus w; wellType := wellType w;
     controlMode := controlMode w; injectedPhaseIndex := injectedPhaseIndex w;
     volumetricPhaseWeights := volumetricPhaseWeights w;
     maximumSurfaceRate := maximumSurfaceRate w;
     maximumReservoirRate := maximumReservoirRate w;
     targetBottomHolePressure := targetBottomHolePressure w;
     targetTubingHeadPressure := Some p;
     referenceDepth := referenceDepth w; dofVariables := dofVariables w |}.

Definition setReferenceDepth (d : Scalar) (w : Well) : Well :=
  {| wellName := wellName w; wellStatus := wellStatus w; wellType := wellType w;
     controlMode := controlMode w; injectedPhaseIndex := injectedPhaseIndex w;
     volumetricPhaseWeights := volumetricPhaseWeights w;
     maximumSurfaceRate := maximumSurfaceRate w;
     maximumReservoirRate := maximumReservoirRate w;
     targetBottomHolePressure := targetBottomHolePressure w;
     targetTubingHeadPressure := targetTubingHeadPressure w;
     referenceDepth := Some d; dofVariables := dofVariables w |}.

Definition setDofVariables (dv : gmap Z DofVariables) (w : Well) : Well :=
  {| wellName := wellName w; wellStatus := wellStatus w; wellType := wellType w;
     controlMode := controlMode w; injectedPhaseIndex := injectedPhaseIndex w;
     volumetricPhaseWeights := volumetricPhaseWeights w;
     maximumSurfaceRate := maximumSurfaceRate w;
     maximumReservoirRate := maximumReservoirRate w;
     targetBottomHolePressure := targetBottomHolePressure w;
     targetTubingHeadPressure := targetTubingHeadPressure w;
     referenceDepth := referenceDepth w; dofVariables := dv |}.

(** Modelled from the spec: [clear] empties the well's set of owned DOFs;
    [addDof] registers a DOF with no override; [setRadius] and
    [setConnectionTransmissibilityFactor] override a value of a DOF the well
    already owns. *)
Definition clear (w : Well) : Well := setDofVariables ∅ w.

Definition addDof (globalDofIdx : Z) (w : Well) : Well :=
  setDofVariables
    (<[globalDofIdx := {| radius := None;
                          connectionTransmissibilityFactor := None |}]>
       (dofVariables w)) w.

Definition setRadius (globalDofIdx : Z) (value : Scalar) (w : Well) : Well :=
  setDofVariables
    (alter (fun dv => {| radius := Some value;
                         connectionTransmissibilityFactor :=
                           connectionTransmissibilityFactor dv |})
       globalDofIdx (dofVariables w)) w.

Definition setConnectionTransmissibilityFactor (globalDofIdx : Z)
    (value : Scalar) (w : Well) : Well :=
  setDofVariables
    (alter (fun dv => {| radius := radius dv;
                         connectionTransmissibilityFactor := Some value |})
       globalDofIdx (dofVariables w)) w.

(** Modelled from the spec: a well owns the DOFs registered with it. *)
Definition applies (w : Well) (globalDofIdx : Z) : bool :=
  bool_decide (is_Some (dofVariables w !! globalDofIdx)).

End Well.

(** ** The simulator, as the manager reads and writes it *)

Inductive PartitionType :=
  | InteriorEntity
  | BorderEntity
  | OverlapEntity
  | FrontEntity
  | GhostEntity.

(** An element of the grid view with the stencil the element context
    computes for it: [primaryDofs] lists [globalSpaceIndex(dofIdx, 0)] for
    [dofIdx = 0 .. numPrimaryDof(0) - 1]. *)
Record Element := {
  partitionType : PartitionType;
  primaryDofs : list Z;
}.

(** A module of the model's registry of auxiliary equations.  A well is held
    by shared pointer; the pointer is modelled by the well's position in
    [wells_], which never changes once the well has been created. *)
Inductive AuxiliaryModule :=
  | WellModule (wellIdx : nat)
  | OtherModule (id : nat).

#[global] Instance AuxiliaryModule_eq_dec : EqDecision AuxiliaryModule.
Proof. solve_decision. Defined.

(** Whether a module of the registry is a well. *)
Definition isWellModule (auxMod : AuxiliaryModule) : bool :=
  match auxMod with
  | WellModule _ => true
  | OtherModule _ => false
  end.

(** Modelled from the spec: the registry of auxiliary equations of the global
    model (the discretization is not part of this file).  The manager calls
    [clearAuxiliaryModules()], which clears the wells' registrations from the
    model (in the words of the code, it removes all wells from the
    reservoir), and [addAuxiliaryModule(well)], which appends to the
    registry. *)
Definition clearAuxiliaryModules (registry : list AuxiliaryModule)
  : list AuxiliaryModule :=
  filter (fun auxMod => isWellModule auxMod = false) registry.

Definition addAuxiliaryModule (auxMod : AuxiliaryModule)
    (registry : list AuxiliaryModule) : list AuxiliaryModule :=
  registry ++ [auxMod].

(** The context handed to [computeTotalRatesForDof]. *)
Record DofContext := {
  globalSpaceIndex : Z -> Z -> Z;
}.

Section Manager.
Context {TT : TypeTag}.

Record Simulator := {
  episodeIndex : Z;
  gridManager_eclState : EclipseState;
  gridView : list Element;
  cartesianCellId : Z -> Z;
  auxiliaryModules : list AuxiliaryModule;
}.

Definition setAuxiliaryModules (registry : list AuxiliaryModule)
    (s : Simulator) : Simulator :=
  {| episodeIndex := episodeIndex s;
     gridManager_eclState := gridManager_eclState s;
     gridView := gridView s; cartesianCellId := cartesianCellId s;
     auxiliaryModules := registry |}.

(** The manager: its three members, and the text written to [std::cout]. *)
Record EclWellManager := {
  simulator_ : Simulator;
  wells_ : list Well;
  wellNameToIndex_ : gmap string nat;
  cout : list string;
}.

Definition setSimulator (s : Simulator) (m : EclWellManager) : EclWellManager :=
  {| simulator_ := s; wells_ := wells_ m;
     wellNameToIndex_ := wellNameToIndex_ m; cout := cout m |}.

Definition setWells (ws : list Well) (m : EclWellManager) : EclWellManager :=
  {| simulator_ := simulator_ m; wells_ := ws;
     wellNameToIndex_ := wellNameToIndex_ m; cout := cout m |}.

Definition setWellNameToIndex (idx : gmap string nat) (m : EclWellManager)
  : EclWellManager :=
  {| simulator_ := simulator_ m; wells_ := wells_ m;
     wellNameToIndex_ := idx; cout := cout m |}.

Definition print (line : string) (m : EclWellManager) : EclWellManager :=
  {| simulator_ := simulator_ m; wells_ := wells_ m;
     wellNameToIndex_ := wellNameToIndex_ m; cout := cout m ++ [line] |}.

(** The constructor. *)
Definition mkEclWellManager (simulator : Simulator) : EclWellManager :=
  {| simulator_ := simulator; wells_ := []; wellNameToIndex_ := ∅;
     cout := [] |}.

(** ** [init] *)

Definition init_well (m : EclWellManager) (deckWell : DeckWell)
  : EclWellManager :=
  let wellName := name deckWell in
  let well := newWell in
  let m := setWellNameToIndex
             (<[wellName := length (wells_ m)]> (wellNameToIndex_ m)) m in
  (* beginSpec(); setName(wellName); endSpec(); *)
  setWells (wells_ m ++ [setName wellName well]) m.

Definition init (eclState : EclipseState) (m : EclWellManager)
  : EclWellManager :=
  let deckSchedule := getSchedule eclState in
  foldl init_well m (getAllWells deckSchedule).

(** ** [numWells], [hasWell], [wellIndex] *)

Definition numWells (m : EclWellManager) : nat := length (wells_ m).

Definition hasWell (m : EclWellManager) (wellName : string) : bool :=
  bool_decide (is_Some (wellNameToIndex_ m !! wellName)).

Definition wellIndex (m : EclWellManager) (wellName : string) : Result nat :=
  match wellNameToIndex_ m !! wellName with
  | None => Err (RuntimeError ("No well called '" +:+ wellName +:+ "'found"))
  | Some idx => Ok idx
  end.

(** ** [computeWellCompletionsMap_]

    The map holds, per Cartesian index, the completion and the well (by its
    position in [wells_]). *)

Definition cartIdxOf (nx ny : Z) (completion : Completion) : Z :=
  getI completion + getJ completion * nx + getK completion * nx * ny.

Fixpoint insertCompletions (m : EclWellManager) (wellName : string)
    (nx ny : Z) (completions : list Completion)
    (cartesianIdxToCompletionMap : gmap Z (Completion * nat))
  : Result (gmap Z (Completion * nat)) :=
  match completions with
  | [] => Ok cartesianIdxToCompletionMap
  | completion :: rest =>
      let cartIdx := cartIdxOf nx ny completion in
      _ ← assert (bool_decide (cartesianIdxToCompletionMap !! cartIdx = None))
            "cartesianIdxToCompletionMap.count(cartIdx) == 0";
      eclWell ← wellIndex m wellName;
      insertCompletions m wellName nx ny rest
        (<[cartIdx := (completion, eclWell)]> cartesianIdxToCompletionMap)
  end.

Fixpoint computeWellCompletionsMap_wells (reportStepIdx : Z) (nx ny : Z)
    (deckWells : list DeckWell) (m : EclWellManager)
    (cartesianIdxToCompletionMap : gmap Z (Completion * nat))
  : Result (EclWellManager * gmap Z (Completion * nat)) :=
  match deckWells with
  | [] => Ok (m, cartesianIdxToCompletionMap)
  | deckWell :: rest =>
      let wellName := name deckWell in
      if negb (hasWell m wellName) then
        computeWellCompletionsMap_wells reportStepIdx nx ny rest
          (print ("Well '" +:+ wellName
                  +:+ "' suddenly appears in the completions "
                  +:+ "for the report step, but has not been previously specified. "
                  +:+ "Ignoring.") m)
          cartesianIdxToCompletionMap
      else
        let completionSet := getCompletions deckWell reportStepIdx in
        map' ← insertCompletions m wellName nx ny completionSet
                 cartesianIdxToCompletionMap;
        computeWellCompletionsMap_wells reportStepIdx nx ny rest m map'
  end.

Definition computeWellCompletionsMap_ (reportStepIdx : Z)
    (cartesianIdxToCompletionMap : gmap Z (Completion * nat))
    (m : EclWellManager)
  : Result (EclWellManager * gmap Z (Completion * nat)) :=
  let eclStatePtr := gridManager_eclState (simulator_ m) in
  let deckSchedule := getSchedule eclStatePtr in
  let eclGrid := getEclipseGrid eclStatePtr in
  let nx := getNX eclGrid in
  let ny := getNY eclGrid in
  let deckWells := getWells deckSchedule reportStepIdx in
  computeWellCompletionsMap_wells reportStepIdx nx ny deckWells m
    cartesianIdxToCompletionMap.

(** ** [updateWellTopology_] *)

Definition updateWellTopology_dof (cartesianCellId : Z -> Z)
    (wellCompletions : gmap Z (Completion * nat))
    (acc : list Well * gset nat) (globalDofIdx : Z) : list Well * gset nat :=
  let cartesianDofIdx := cartesianCellId globalDofIdx in
  match wellCompletions !! cartesianDofIdx with
  | None => acc
  | Some (_, eclWell) =>
      (alter (addDof globalDofIdx) eclWell acc.1, {[eclWell]} ∪ acc.2)
  end.

Definition updateWellTopology_elem (cartesianCellId : Z -> Z)
    (wellCompletions : gmap Z (Completion * nat))
    (acc : list Well * gset nat) (elem : Element) : list Well * gset nat :=
  match partitionType elem with
  | InteriorEntity =>
      foldl (updateWellTopology_dof cartesianCellId wellCompletions) acc
        (primaryDofs elem)
  | _ => acc
  end.

Definition updateWellTopology_ (reportStepIdx : Z)
    (wellCompletions : gmap Z (Completion * nat)) (m : EclWellManager)
  : EclWellManager :=
  let sim := simulator_ m in
  let registry := clearAuxiliaryModules (auxiliaryModules sim) in
  let cleared := clear <$> wells_ m in
  let '(wells', wells) :=
    foldl (updateWellTopology_elem (cartesianCellId sim) wellCompletions)
      (cleared, ∅) (gridView sim) in
  let registry' :=
    foldl (fun reg eclWell => addAuxiliaryModule (WellModule eclWell) reg)
      registry (elements wells) in
  setSimulator (setAuxiliaryModules registry' sim) (setWells wells' m).

(** ** [updateWellParameters_] *)

Fixpoint updateWellParameters_refDepth (deckWells : list DeckWell)
    (m : EclWellManager) : Result EclWellManager :=
  match deckWells with
  | [] => Ok m
  | deckWell :: rest =>
      let wellName := name deckWell in
      if negb (getRefDepthDefaulted deckWell) then
        idx ← wellIndex m wellName;
        updateWellParameters_refDepth rest
          (setWells (alter (setReferenceDepth (getRefDepth deckWell)) idx
                       (wells_ m)) m)
      else updateWellParameters_refDepth rest m
  end.

Definition updateWellParameters_dof (cartesianCellId : Z -> Z)
    (wellCompletions : gmap Z (Completion * nat))
    (wells : list Well) (globalDofIdx : Z) : list Well :=
  let cartesianDofIdx := cartesianCellId globalDofIdx in
  match wellCompletions !! cartesianDofIdx with
  | None => wells
  | Some (completion, eclWell) =>
      let wells :=
        match getDiameter completion with
        | Some diameter =>
            alter (setRadius globalDofIdx (scalar_half diameter)) eclWell wells
        | None => wells
        end in
      let ctf := getConnectionTransmissibilityFactor completion in
      if scalar_isfinite ctf && scalar_gt0 ctf then
        alter (setConnectionTransmissibilityFactor globalDofIdx ctf) eclWell
          wells
      else wells
  end.

Definition updateWellParameters_elem (cartesianCellId : Z -> Z)
    (wellCompletions : gmap Z (Completion * nat))
    (wells : list Well) (elem : Element) : list Well :=
  match partitionType elem with
  | InteriorEntity =>
      foldl (updateWellParameters_dof cartesianCellId wellCompletions) wells
        (primaryDofs elem)
  | _ => wells
  end.

Definition updateWellParameters_ (reportStepIdx : Z)
    (wellCompletions : gmap Z (Completion * nat)) (m : EclWellManager)
  : Result EclWellManager :=
  let eclStatePtr := gridManager_eclState (simulator_ m) in
  let deckSchedule := getSchedule eclStatePtr in
  let deckWells := getWells deckSchedule reportStepIdx in
  m ← updateWellParameters_refDepth deckWells m;
  let sim := simulator_ m in
  Ok (setWells
        (foldl (updateWellParameters_elem (cartesianCellId sim) wellCompletions)
           (wells_ m) (gridView sim)) m).

(** ** [beginEpisode] *)

(** The block [if (deckWell->isInjector(episodeIdx))]. *)
Definition beginEpisode_injector (episodeIdx : Z) (deckWell : DeckWell)
    (well : Well) : Result Well :=
  let well := setWellType Injector well in
  let injectProperties := getInjectionProperties deckWell episodeIdx in
  well ← match injectorType injectProperties with
         | WellInjector.WATER => Ok (setInjectedPhaseIndex waterPhaseIdx well)
         | WellInjector.GAS => Ok (setInjectedPhaseIndex gasPhaseIdx well)
         | WellInjector.OIL => Ok (setInjectedPhaseIndex oilPhaseIdx well)
         | WellInjector.MULTI =>
             Err (RuntimeError "Not implemented: Multi-phase injector wells")
         end;
  well ← match inj_controlMode injectProperties with
         | WellInjector.RATE => Ok (setControlMode VolumetricSurfaceRate well)
         | WellInjector.RESV => Ok (setControlMode VolumetricReservoirRate well)
         | WellInjector.BHP => Ok (setControlMode BottomHolePressure well)
         | WellInjector.THP => Ok (setControlMode TubingHeadPressure well)
         | WellInjector.GRUP => Err (RuntimeError "Not implemented: Well groups")
         | WellInjector.CMODE_UNDEFINED =>
             Err (RuntimeError ("Control mode of well " +:+ wellName well
                                +:+ " is undefined."))
         end;
  well ← match injectorType injectProperties with
         | WellInjector.WATER =>
             Ok (setVolumetricPhaseWeights scalar_0 scalar_0 scalar_1 well)
         | WellInjector.OIL =>
             Ok (setVolumetricPhaseWeights scalar_1 scalar_0 scalar_0 well)
         | WellInjector.GAS =>
             Ok (setVolumetricPhaseWeights scalar_0 scalar_1 scalar_0 well)
         | WellInjector.MULTI =>
             Err (RuntimeError "Not implemented: Multi-phase injection wells")
         end;
  let well := setMaximumSurfaceRate (surfaceInjectionRate injectProperties) well in
  let well :=
    setMaximumReservoirRate (reservoirInjectionRate injectProperties) well in
  let well := setTargetBottomHolePressure (inj_BHPLimit injectProperties) well in
  Ok (setTargetTubingHeadPressure scalar_1e100 well).

(** The block [if (deckWell->isProducer(episodeIdx))]. *)
Definition beginEpisode_producer (episodeIdx : Z) (deckWell : DeckWell)
    (well : Well) : Result Well :=
  let well := setWellType Producer well in
  let producerProperties := getProductionProperties deckWell episodeIdx in
  well ← match prod_controlMode producerProperties with
         | WellProducer.ORAT =>
             let well := setControlMode VolumetricSurfaceRate well in
             let well :=
               setVolumetricPhaseWeights scalar_1 scalar_0 scalar_0 well in
             Ok (setMaximumSurfaceRate (OilRate producerProperties) well)
         | WellProducer.GRAT =>
             let well := setControlMode VolumetricSurfaceRate well in
             let well :=
               setVolumetricPhaseWeights scalar_0 scalar_1 scalar_0 well in
             Ok (setMaximumSurfaceRate (GasRate producerProperties) well)
         | WellProducer.WRAT =>
             let well := setControlMode VolumetricSurfaceRate well in
             let well :=
               setVolumetricPhaseWeights scalar_0 scalar_0 scalar_1 well in
             Ok (setMaximumSurfaceRate (WaterRate producerProperties) well)
         | WellProducer.LRAT =>
             let well := setControlMode VolumetricSurfaceRate well in
             let well :=
               setVolumetricPhaseWeights scalar_1 scalar_0 scalar_1 well in
             Ok (setMaximumSurfaceRate (LiquidRate producerProperties) well)
         | WellProducer.CRAT =>
             Err (RuntimeError "Not implemented: Linearly combined rates")
         | WellProducer.RESV =>
             let well := setControlMode VolumetricReservoirRate well in
             let well :=
               setVolumetricPhaseWeights scalar_1 scalar_1 scalar_1 well in
             Ok (setMaximumSurfaceRate (ResVRate producerProperties) well)
         | WellProducer.BHP => Ok (setControlMode BottomHolePressure well)
         | WellProducer.THP => Ok (setControlMode TubingHeadPressure well)
         | WellProducer.GRUP => Err (RuntimeError "Not implemented: Well groups")
         | WellProducer.CMODE_UNDEFINED =>
             Err (RuntimeError ("Control mode of well " +:+ wellName well
                                +:+ " is undefined."))
         end;
  let well :=
    setTargetBottomHolePressure (prod_BHPLimit producerProperties) well in
  Ok (setTargetTubingHeadPressure scalar_neg_1e100 well).

(** The body of the loop over the wells of the deck, on the well object the
    name resolves to. *)
Definition beginEpisode_well (episodeIdx : Z) (deckWell : DeckWell)
    (well : Well) : Result Well :=
  let deckWellStatus := getStatus deckWell episodeIdx in
  let well :=
    match deckWellStatus with
    | WellCommon.AUTO
    | WellCommon.OPEN => setWellStatus Open well
    | WellCommon.STOP => setWellStatus Closed well
    | WellCommon.SHUT => setWellStatus Shut well
    end in
  _ ← assert
        (((if isInjector deckWell episodeIdx then 1 else 0)
          + (if isProducer deckWell episodeIdx then 1 else 0) =? 1)%nat)
        "(deckWell->isInjector(episodeIdx)?1:0) + (deckWell->isProducer(episodeIdx)?1:0) == 1";
  well ← (if isInjector deckWell episodeIdx
          then beginEpisode_injector episodeIdx deckWell well
          else Ok well);
  if isProducer deckWell episodeIdx
  then beginEpisode_producer episodeIdx deckWell well
  else Ok well.

(** The loop over the wells of the deck.  [this->well(name)] is
    [wells_[wellIndex(name)]]; an index outside [wells_] does not occur for an
    index map that [init] built (lemma [init_wf] below) and is modelled as a
    range failure. *)
Fixpoint beginEpisode_wells (episodeIdx : Z) (deckWells : list DeckWell)
    (m : EclWellManager) : Result EclWellManager :=
  match deckWells with
  | [] => Ok m
  | deckWell :: rest =>
      if negb (hasWell m (name deckWell)) then
        beginEpisode_wells episodeIdx rest m
      else
        wellIdx ← wellIndex m (name deckWell);
        match wells_ m !! wellIdx with
        | None => Err RangeError
        | Some well =>
            well' ← beginEpisode_well episodeIdx deckWell well;
            beginEpisode_wells episodeIdx rest
              (setWells (<[wellIdx := well']> (wells_ m)) m)
        end
  end.

Definition beginEpisode (eclState : EclipseState) (wasRestarted : bool)
    (m : EclWellManager) : Result EclWellManager :=
  let episodeIdx := episodeIndex (simulator_ m) in
  let deckSchedule := getSchedule eclState in
  '(m, wellCompMap) ← computeWellCompletionsMap_ episodeIdx ∅ m;
  changed ← (if wasRestarted then Ok true
             else wellTopologyChanged_ eclState episodeIdx);
  let m := if changed : bool
           then updateWellTopology_ episodeIdx wellCompMap m
           else m in
  m ← updateWellParameters_ episodeIdx wellCompMap m;
  let deckWells := getWells deckSchedule episodeIdx in
  beginEpisode_wells episodeIdx deckWells m.

(** ** [serialize] and [deserialize] *)

Definition serialize {Restarter : Type} (res : Restarter) (m : EclWellManager)
  : Restarter * EclWellManager :=
  (res, m).

Definition deserialize {Restarter : Type} (res : Restarter)
    (m : EclWellManager) : Result EclWellManager :=
  beginEpisode (gridManager_eclState (simulator_ m)) true m.

(** ** [computeTotalRatesForDof] *)

Section Rates.
(** The rates a well computes for a DOF it owns: the Peaceman model, which
    is not part of this file. *)
Variable peacemanRates : Well -> DofContext -> Z -> Z -> RateVector.

(** Modelled from the spec: the well's own [computeTotalRatesForDof]; a well
    that does not own the DOF contributes the zero vector. *)
Definition Well_computeTotalRatesForDof (well : Well) (q : RateVector)
    (context : DofContext) (dofIdx timeIdx : Z) : RateVector :=
  if applies well (globalSpaceIndex context dofIdx timeIdx)
  then peacemanRates well context dofIdx timeIdx
  else rate_0.

Definition computeTotalRatesForDof (m : EclWellManager) (context : DofContext)
    (dofIdx timeIdx : Z) : RateVector :=
  let q := rate_0 in
  foldl (fun q well =>
           let wellRate := rate_0 in
           let wellRate :=
             Well_computeTotalRatesForDof well wellRate context dofIdx timeIdx in
           rate_add q wellRate)
    q (wells_ m).

End Rates.

End Manager.

(** ** The accessors and the hooks of the time loop *)

Section Accessors.
Context {TT : TypeTag}.

(** [well(wellName)] is [wells_[wellIndex(wellName)]]; as in [beginEpisode],
    an index outside [wells_] is modelled as a range failure. *)
Definition well_byName (m : EclWellManager) (wellName : string) : Result Well :=
  idx ← wellIndex m wellName;
  match wells_ m !! idx with
  | None => Err RangeError
  | Some well => Ok well
  end.

(** [well(wellIdx)] is [wells_[wellIdx]]. *)
Definition well_byIndex (m : EclWellManager) (wellIdx : nat) : Result Well :=
  match wells_ m !! wellIdx with
  | None => Err RangeError
  | Some well => Ok well
  end.

Section Hooks.
(** Modelled from the spec: the hooks of a well at the boundaries of a time
    step and of an iteration ([EclPeacemanWell], not part of this file); each
    acts on the well it is called on.  The accumulation hook receives the
    element context, updated for the element. *)
Variable Well_beginTimeStep : Well -> Well.
Variable Well_beginIterationPreProcess : Well -> Well.
Variable Well_beginIterationAccumulate : Element -> Well -> Well.
Variable Well_beginIterationPostProcess : Well -> Well.
Variable Well_endIteration : Well -> Well.
Variable Well_endTimeStep : Well -> Well.

Definition beginTimeStep (m : EclWellManager) : EclWellManager :=
  setWells (Well_beginTimeStep <$> wells_ m) m.

Definition beginIteration_elem (wells : list Well) (elem : Element)
  : list Well :=
  match partitionType elem with
  | InteriorEntity => Well_beginIterationAccumulate elem <$> wells
  | _ => wells
  end.

Definition beginIteration (m : EclWellManager) : EclWellManager :=
  let wells := Well_beginIterationPreProcess <$> wells_ m in
  let wells := foldl beginIteration_elem wells (gridView (simulator_ m)) in
  setWells (Well_beginIterationPostProcess <$> wells) m.

Definition endIteration (m : EclWellManager) : EclWellManager :=
  setWells (Well_endIteration <$> wells_ m) m.

Definition endTimeStep (m : EclWellManager) : EclWellManager :=
  setWells (Well_endTimeStep <$> wells_ m) m.

Definition endEpisode (m : EclWellManager) : EclWellManager := m.

End Hooks.

End Accessors.

(** ** Vocabulary of the statements *)

Section Vocabulary.
Context {TT : TypeTag}.

(** The entries the builder inserts, in order: for each well of the report
    step that the manager knows, each completion under its Cartesian
    index. *)
Definition entriesOf (index : gmap string nat) (reportStepIdx nx ny : Z)
    (deckWells : list DeckWell) : list (Z * (Completion * nat)) :=
  deckWell ← deckWells;
  match index !! name deckWell with
  | Some eclWell =>
      (fun completion => (cartIdxOf nx ny completion, (completion, eclWell)))
        <$> getCompletions deckWell reportStepIdx
  | None => []
  end.

(** The completions of the wells of a report step that the manager knows. *)
Definition managedCompletions (m : EclWellManager) (reportStepIdx : Z)
  : list Completion :=
  deckWell ← getWells (getSchedule (gridManager_eclState (simulator_ m)))
               reportStepIdx;
  if hasWell m (name deckWell) then getCompletions deckWell reportStepIdx
  else [].

Fixpoint insertEntries (entries : list (Z * (Completion * nat)))
    (map : gmap Z (Completion * nat)) : Result (gmap Z (Completion * nat)) :=
  match entries with
  | [] => Ok map
  | (cartIdx, entry) :: rest =>
      _ ← assert (bool_decide (map !! cartIdx = None))
            "cartesianIdxToCompletionMap.count(cartIdx) == 0";
      insertEntries rest (<[cartIdx := entry]> map)
  end.

(** The lines written for the wells the manager does not know. *)
Fixpoint logUnknown (deckWells : list DeckWell) (m : EclWellManager)
  : EclWellManager :=
  match deckWells with
  | [] => m
  | deckWell :: rest =>
      if negb (hasWell m (name deckWell)) then
        logUnknown rest
          (print ("Well '" +:+ name deckWell
                  +:+ "' suddenly appears in the completions "
                  +:+ "for the report step, but has not been previously specified. "
                  +:+ "Ignoring.") m)
      else logUnknown rest m
  end.

(** The index and the vector of wells agree: a name of the index leads to a
    well of the vector, and that well bears the name.  [init] builds the two
    this way and no method changes either. *)
Definition manager_wf (m : EclWellManager) : Prop :=
  forall n idx,
    wellNameToIndex_ m !! n = Some idx ->
    exists well, wells_ m !! idx = Some well /\ wellName well = n.

(** Two managers with the same index and the same wells by name. *)
Definition sameWells (m m' : EclWellManager) : Prop :=
  wellNameToIndex_ m' = wellNameToIndex_ m
  /\ wellName <$> wells_ m' = wellName <$> wells_ m.

(** The runtime status a deck status stands for. *)
Definition statusOf (deckWellStatus : WellCommon.StatusEnum) : WellStatus :=
  match deckWellStatus with
  | WellCommon.AUTO => Open
  | WellCommon.OPEN => Open
  | WellCommon.STOP => Closed
  | WellCommon.SHUT => Shut
  end.

(** The declarations the manager does not support. *)
Definition unsupported (episodeIdx : Z) (deckWell : DeckWell) : Prop :=
  (isInjector deckWell episodeIdx = true
   /\ (injectorType (getInjectionProperties deckWell episodeIdx)
       = WellInjector.MULTI
       \/ inj_controlMode (getInjectionProperties deckWell episodeIdx)
          = WellInjector.GRUP
       \/ inj_controlMode (getInjectionProperties deckWell episodeIdx)
          = WellInjector.CMODE_UNDEFINED))
  \/ (isProducer deckWell episodeIdx = true
      /\ (prod_controlMode (getProductionProperties deckWell episodeIdx)
          = WellProducer.CRAT
          \/ prod_controlMode (getProductionProperties deckWell episodeIdx)
             = WellProducer.GRUP
          \/ prod_controlMode (getProductionProperties deckWell episodeIdx)
             = WellProducer.CMODE_UNDEFINED)).

(** A failure the code raises itself; a range failure stands for an index
    outside [wells_]. *)
Definition fatal (e : Failure) : Prop := e <> RangeError.

(** The association of DOFs to wells: per well, the set of DOFs it owns. *)
Definition ownedDofs (m : EclWellManager) : list (gset Z) :=
  (fun well => dom (dofVariables well)) <$> wells_ m.

(** The DOFs of the interior elements of a grid view, in the order of the
    element walk. *)
Definition localDofs (grid : list Element) : list Z :=
  elem ← grid;
  match partitionType elem with
  | InteriorEntity => primaryDofs elem
  | _ => []
  end.

(** A DOF lies in a completion of the well at position [eclWell]. *)
Definition completedBy (cartesianCellId : Z -> Z)
    (wellCompletions : gmap Z (Completion * nat)) (globalDofIdx : Z)
    (eclWell : nat) : Prop :=
  exists completion,
    wellCompletions !! cartesianCellId globalDofIdx
    = Some (completion, eclWell).

(** Two managers set up alike: the same deck, report step and grid, the same
    index of names and as many wells.  The state of the wells and the
    registry of the model are free. *)
Definition sameSetup (m1 m2 : EclWellManager) : Prop :=
  episodeIndex (simulator_ m1) = episodeIndex (simulator_ m2)
  /\ gridManager_eclState (simulator_ m1) = gridManager_eclState (simulator_ m2)
  /\ gridView (simulator_ m1) = gridView (simulator_ m2)
  /\ cartesianCellId (simulator_ m1) = cartesianCellId (simulator_ m2)
  /\ wellNameToIndex_ m1 = wellNameToIndex_ m2
  /\ length (wells_ m1) = length (wells_ m2).

(** What a well adds to the total rates of a DOF. *)
Definition contribution
    (peacemanRates : Well -> DofContext -> Z -> Z -> RateVector)
    (context : DofContext) (dofIdx timeIdx : Z) (well : Well) : RateVector :=
  Well_computeTotalRatesForDof peacemanRates well rate_0 context dofIdx timeIdx.

(** The sum of the contributions of a list of wells. *)
Definition sumRates
    (peacemanRates : Well -> DofContext -> Z -> Z -> RateVector)
    (context : DofContext) (dofIdx timeIdx : Z) (wells : list Well)
  : RateVector :=
  foldr (fun well acc =>
           rate_add (contribution peacemanRates context dofIdx timeIdx well) acc)
    rate_0 wells.

End Vocabulary.

#[global] Instance PartitionType_eq_dec : EqDecision PartitionType.
Proof. solve_decision. Defined.

Section Vocabulary2.
Context {TT : TypeTag}.

(** The overrides a completion puts on the variables of a DOF: half its
    diameter as radius when the deck gives a diameter, its transmissibility
    factor when that is finite and positive. *)
Definition completionOverrides (completion : Completion) (dv : DofVariables)
  : DofVariables :=
  {| radius :=
       match getDiameter completion with
       | Some diameter => Some (scalar_half diameter)
       | None => radius dv
       end;
     connectionTransmissibilityFactor :=
       let ctf := getConnectionTransmissibilityFactor completion in
       if scalar_isfinite ctf && scalar_gt0 ctf then Some ctf
       else connectionTransmissibilityFactor dv |}.

(** The interior elements of a grid view. *)
Definition interiorElements (grid : list Element) : list Element :=
  filter (fun elem => partitionType elem = InteriorEntity) grid.

End Vocabulary2.

(** * A small deck and grid for the examples

    Exact rational scalars and integer rates; a 2 x 2 x 1 grid of four
    interior cells and a ghost cell; an injector [INJ] completed in cell
    (0,0,0) and a producer [PROD] completed in cell (1,1,0), to which the deck
    adds cell (0,1,0) at report step 1. *)

Module Demo.

Definition exactTypeTag : TypeTag :=
  {| Scalar := Q;
     scalar_0 := 0%Q;
     scalar_1 := 1%Q;
     scalar_1e100 := inject_Z (10 ^ 100);
     scalar_neg_1e100 := inject_Z (- 10 ^ 100);
     scalar_half := Qmult (1 # 2);
     scalar_isfinite := fun _ => true;
     scalar_gt0 := fun x => negb (Qle_bool x 0);
     RateVector := Z;
     rate_0 := 0;
     rate_add := Z.add |}.

#[local] Existing Instance exactTypeTag.

Definition completionAt (i j k : Z) : Completion :=
  {| getI := i; getJ := j; getK := k;
     getDiameter := Some (1 # 4)%Q;
     getConnectionTransmissibilityFactor := 2%Q |}.

Definition injection (type : WellInjector.TypeEnum)
    (mode : WellInjector.ControlModeEnum) : WellInjectionProperties :=
  {| injectorType := type; inj_controlMode := mode;
     surfaceInjectionRate := 100%Q; reservoirInjectionRate := 90%Q;
     inj_BHPLimit := 400%Q; inj_THPLimit := 0%Q |}.

Definition production (mode : WellProducer.ControlModeEnum)
  : WellProductionProperties :=
  {| prod_controlMode := mode;
     OilRate := 50%Q; GasRate := 60%Q; WaterRate := 70%Q; LiquidRate := 80%Q;
     ResVRate := 85%Q; prod_BHPLimit := 150%Q; prod_THPLimit := 0%Q |}.

Definition deckWell (wellName : string) (status : WellCommon.StatusEnum)
    (injector producer : bool) (inj : WellInjectionProperties)
    (prod : WellProductionProperties) (refDepthDefaulted : bool)
    (completions : Z -> list Completion) : DeckWell :=
  {| name := wellName;
     getStatus := fun _ => status;
     isInjector := fun _ => injector;
     isProducer := fun _ => producer;
     getInjectionProperties := fun _ => inj;
     getProductionProperties := fun _ => prod;
     getRefDepthDefaulted := refDepthDefaulted;
     getRefDepth := 2500%Q;
     getCompletions := completions |}.

Definition INJ : DeckWell :=
  deckWell "INJ" WellCommon.AUTO true false
    (injection WellInjector.GAS WellInjector.RATE)
    (production WellProducer.CMODE_UNDEFINED) false
    (fun _ => [completionAt 0 0 0]).

Definition PROD : DeckWell :=
  deckWell "PROD" WellCommon.OPEN false true
    (injection WellInjector.WATER WellInjector.CMODE_UNDEFINED)
    (production WellProducer.ORAT) true
    (fun step => if step =? 0 then [completionAt 1 1 0]
                 else [completionAt 1 1 0; completionAt 0 1 0]).

Definition deckOf (allWells : list DeckWell) (wells : Z -> list DeckWell)
  : EclipseState :=
  {| getSchedule := {| getAllWells := allWells; getWells := wells |};
     getEclipseGrid := {| getNX := 2; getNY := 2 |} |}.

Definition deck : EclipseState := deckOf [INJ; PROD] (fun _ => [INJ; PROD]).

Definition interior (dofs : list Z) : Element :=
  {| partitionType := InteriorEntity; primaryDofs := dofs |}.

Definition grid : list Element :=
  [interior [0]; interior [1]; interior [2]; interior [3];
   {| partitionType := GhostEntity; primaryDofs := [4] |}].

Definition simulatorAt (episodeIdx : Z) (eclState : EclipseState)
    (registry : list AuxiliaryModule) : Simulator :=
  {| episodeIndex := episodeIdx; gridManager_eclState := eclState;
     gridView := grid; cartesianCellId := fun globalDofIdx => globalDofIdx;
     auxiliaryModules := registry |}.

(** The manager after [init] on a deck, at a given report step. *)
Definition managerOf (eclState : EclipseState) (episodeIdx : Z)
    (registry : list AuxiliaryModule) : EclWellManager :=
  init eclState (mkEclWellManager (simulatorAt episodeIdx eclState registry)).

Definition managerAt (episodeIdx : Z) : EclWellManager :=
  managerOf deck episodeIdx [].

(** The manager after [beginEpisode] at report step 0. *)
Definition started : EclWellManager :=
  match beginEpisode deck false (managerAt 0) with
  | Ok m => m
  | Err _ => managerAt 0
  end.

(** The same run, arrived at report step 1. *)
Definition continued : EclWellManager :=
  setSimulator (simulatorAt 1 deck (auxiliaryModules (simulator_ started)))
    started.

(** A deck whose report steps list [INJ], a well with a reference depth of
    its own, though the list of all wells, from which [init] creates the
    wells, does not have it. *)
Definition driftDeck : EclipseState := deckOf [PROD] (fun _ => [INJ; PROD]).

(** The same drift with [PROD], whose reference depth is defaulted. *)
Definition driftDeckDefaulted : EclipseState :=
  deckOf [INJ] (fun _ => [INJ; PROD]).

(** A second producer completed in the cell of [INJ]. *)
Definition CLASH : DeckWell :=
  deckWell "CLASH" WellCommon.OPEN false true
    (injection WellInjector.WATER WellInjector.CMODE_UNDEFINED)
    (production WellProducer.BHP) true
    (fun _ => [completionAt 0 0 0]).

Definition clashDeck : EclipseState :=
  deckOf [INJ; CLASH] (fun _ => [INJ; CLASH]).

(** A well flagged both as injector and as producer. *)
Definition BOTH : DeckWell :=
  deckWell "BOTH" WellCommon.OPEN true true
    (injection WellInjector.WATER WellInjector.RATE)
    (production WellProducer.ORAT) true
    (fun _ => [completionAt 1 0 0]).

Definition bothDeck : EclipseState := deckOf [INJ; BOTH] (fun _ => [INJ; BOTH]).

(** A multi-phase injector, and a producer without control mode. *)
Definition MULTI : DeckWell :=
  deckWell "MULTI" WellCommon.OPEN true false
    (injection WellInjector.MULTI WellInjector.RATE)
    (production WellProducer.CMODE_UNDEFINED) true
    (fun _ => [completionAt 1 0 0]).

Definition multiDeck : EclipseState :=
  deckOf [INJ; MULTI] (fun _ => [INJ; MULTI]).

Definition UNDEF : DeckWell :=
  deckWell "UNDEF" WellCommon.STOP false true
    (injection WellInjector.WATER WellInjector.RATE)
    (production WellProducer.CMODE_UNDEFINED) true
    (fun _ => [completionAt 1 0 0]).

(** The rates of the example wells on their own DOFs. *)
Definition unitRates (well : Well) (context : DofContext) (dofIdx timeIdx : Z)
  : RateVector :=
  match wellType well with
  | Some Injector => 10
  | _ => -7
  end.

Definition contextOf (globalDofIdx : Z) : DofContext :=
  {| globalSpaceIndex := fun _ _ => globalDofIdx |}.

(** The map of completions of [deck] at report step 0. *)
Definition completionsMap : gmap Z (Completion * nat) :=
  match computeWellCompletionsMap_ 0 ∅ (managerAt 0) with
  | Ok (_, map) => map
  | Err _ => ∅
  end.

(** A deck that moves the completion (1,0,0) from one producer to another
    at report step 1. *)
Definition SRC : DeckWell :=
  deckWell "SRC" WellCommon.OPEN false true
    (injection WellInjector.WATER WellInjector.CMODE_UNDEFINED)
    (production WellProducer.ORAT) true
    (fun step => if step =? 0 then [completionAt 0 0 0; completionAt 1 0 0]
                 else [completionAt 0 0 0]).

Definition DST : DeckWell :=
  deckWell "DST" WellCommon.OPEN false true
    (injection WellInjector.WATER WellInjector.CMODE_UNDEFINED)
    (production WellProducer.ORAT) true
    (fun step => if step =? 0 then [completionAt 1 1 0]
                 else [completionAt 1 1 0; completionAt 1 0 0]).

Definition movedDeck : EclipseState := deckOf [SRC; DST] (fun _ => [SRC; DST]).

(** The wells of the run, by position. *)
Definition startedWell (idx : nat) : Well :=
  default newWell (wells_ started !! idx).

(** The run at report step 1 read back from a restart file. *)
Definition restarted : EclWellManager :=
  match deserialize tt (serialize tt continued).2 with
  | Ok m => m
  | Err _ => continued
  end.

(** A deck of one well whose completions never change. *)
Definition steadyDeck : EclipseState := deckOf [INJ] (fun _ => [INJ]).

(** The DOFs of each well, listed. *)
Definition listedDofs (m : EclWellManager) : list (list Z) :=
  elements <$> ownedDofs m.

(** A deck that lists [PROD] from report step 1 on, and one that lists it
    at report step 0 only. *)
Definition growDeck : EclipseState :=
  deckOf [INJ; PROD] (fun step => if step =? 0 then [INJ] else [INJ; PROD]).

Definition shrinkDeck : EclipseState :=
  deckOf [INJ; PROD] (fun step => if step =? 0 then [INJ; PROD] else [INJ]).

(** The run on [shrinkDeck]: after report step 0, arrived at report step 1,
    and after report step 1. *)
Definition shrunkStart : EclWellManager :=
  match beginEpisode shrinkDeck false (managerOf shrinkDeck 0 []) with
  | Ok m => m
  | Err _ => managerOf shrinkDeck 0 []
  end.

Definition shrunkNext : EclWellManager :=
  setSimulator
    (simulatorAt 1 shrinkDeck (auxiliaryModules (simulator_ shrunkStart)))
    shrunkStart.

Definition shrunkEnd : EclWellManager :=
  match beginEpisode shrinkDeck false shrunkNext with
  | Ok m => m
  | Err _ => shrunkNext
  end.

Definition wellOf (m : EclWellManager) (idx : nat) : Well :=
  default newWell (wells_ m !! idx).

(** The map of completions of [driftDeckDefaulted] at report step 0, with
    the manager that has logged the unknown well. *)
Definition driftCompletions
  : EclWellManager * gmap Z (Completion * nat) :=
  match computeWellCompletionsMap_ 0 ∅ (managerOf driftDeckDefaulted 0 []) with
  | Ok result => result
  | Err _ => (managerOf driftDeckDefaulted 0 [], ∅)
  end.

(** The two halves of the rebuild of [deck] at report step 0. *)
Definition rebuilt : EclWellManager :=
  updateWellTopology_ 0 completionsMap (managerAt 0).

Definition parametrised : EclWellManager :=
  match updateWellParameters_ 0 completionsMap rebuilt with
  | Ok m => m
  | Err _ => rebuilt
  end.

(** The run on [deck] after report step 1. *)
Definition resumed : EclWellManager :=
  match beginEpisode deck false continued with
  | Ok m => m
  | Err _ => continued
  end.

(** The loop body on [PROD], and on the producer [CLASH], which is under BHP
    control, starting from the state of [PROD] after report step 0. *)
Definition producerState : Well :=
  match beginEpisode_well 0 PROD newWell with
  | Ok w => w
  | Err _ => newWell
  end.

Definition bhpState : Well :=
  match beginEpisode_well 0 CLASH (startedWell 1) with
  | Ok w => w
  | Err _ => startedWell 1
  end.

(** A completion in the cell of [completionAt 1 0 0] without diameter. *)
Definition bareCompletion : Completion :=
  {| getI := 1; getJ := 0; getK := 0;
     getDiameter := None;
     getConnectionTransmissibilityFactor := 0%Q |}.

(** A run on a deck: after [beginEpisode] at report step 0, arrived at
    report step 1, and from there after a call of [beginEpisode] and after a
    restart. *)
Definition startOf (eclState : EclipseState) : EclWellManager :=
  match beginEpisode eclState false (managerOf eclState 0 []) with
  | Ok m => m
  | Err _ => managerOf eclState 0 []
  end.

Definition arrivedAt1 (eclState : EclipseState) : EclWellManager :=
  setSimulator
    (simulatorAt 1 eclState
       (auxiliaryModules (simulator_ (startOf eclState))))
    (startOf eclState).

Definition resumedOf (eclState : EclipseState) : EclWellManager :=
  match beginEpisode eclState false (arrivedAt1 eclState) with
  | Ok m => m
  | Err _ => arrivedAt1 eclState
  end.

Definition restartedOf (eclState : EclipseState) : EclWellManager :=
  match deserialize tt (serialize tt (arrivedAt1 eclState)).2 with
  | Ok m => m
  | Err _ => arrivedAt1 eclState
  end.

End Demo.

(** * Properties *)

Section Properties.
Context {TT : TypeTag}.

Lemma bind_Ok {A B} (r : Result A) (f : A -> Result B) (b : B) :
  r ≫= f = Ok b <-> exists a, r = Ok a /\ f a = Ok b.
Proof.
  destruct r as [a|e]; simpl; split.
  - intros H. by exists a.
  - by intros (a' & [= <-] & H).
  - intros [=].
  - by intros (a' & [=] & _).
Qed.

Lemma failed_Err {A} (e : Failure) : failed (@Err A e).
Proof. by exists e. Qed.

Lemma not_failed_Ok {A} (a : A) : ~ failed (Ok a).
Proof. by intros [e [=]]. Qed.

(** ** The topology-change detector *)

Lemma sameIJK_refl (c : Completion) : sameIJK c c = true.
Proof. unfold sameIJK. by rewrite !Z.eqb_refl. Qed.

(** At report step 0 the detector answers true, whatever the deck. *)
Lemma wellTopologyChanged_step0 (eclState : EclipseState) :
  wellTopologyChanged_ eclState 0 = Ok true.
Proof. reflexivity. Qed.

(** The scan of the previous set only ever reads position [curWellComplIdx]:
    it answers by comparing the two completions at that position. *)
Lemma scanPrevCompletions_at idxs k cur prevSet prev :
  prevSet !! k = Some prev ->
  scanPrevCompletions idxs k cur prevSet
  = Ok (match idxs with [] => true | _ => negb (sameIJK cur prev) end).
Proof.
  intros Hk. induction idxs as [|i idxs IH]; [done|].
  simpl. rewrite Hk. destruct (sameIJK cur prev); [done|].
  rewrite IH. by destruct idxs.
Qed.

Lemma compareCompletions_total k curRest prevSet :
  (k + length curRest = length prevSet)%nat ->
  exists b, compareCompletions k curRest prevSet = Ok b.
Proof.
  revert k. induction curRest as [|c rest IH]; intros k Hlen; [by eexists|].
  simpl in *.
  destruct (lookup_lt_is_Some_2 prevSet k) as [p Hp]; [lia|].
  rewrite (scanPrevCompletions_at _ _ _ _ _ Hp). simpl.
  destruct (seq 0 (length prevSet)); simpl; [by eexists|].
  destruct (sameIJK c p); simpl; [|by eexists].
  apply IH. lia.
Qed.

Lemma compareWells_total step curRest prevWells :
  exists b, compareWells step curRest prevWells = Ok b.
Proof.
  induction curRest as [|w rest IH]; [by eexists|].
  simpl. destruct (findPrevWell prevWells (name w)) as [p|]; [|by eexists].
  destruct (Nat.eqb_spec (length (getCompletions w step))
              (length (getCompletions p step))) as [Hlen|]; simpl;
    [|by eexists].
  destruct (compareCompletions_total 0 (getCompletions w step)
              (getCompletions p step)) as [b Hb]; [done|].
  rewrite Hb. simpl. destruct b; [by eexists|done].
Qed.

(** The detector always answers: the read of the previous set stays in
    range because the two sets have been found of equal size. *)
Lemma wellTopologyChanged_total (eclState : EclipseState) (reportStepIdx : Z) :
  exists b, wellTopologyChanged_ eclState reportStepIdx = Ok b.
Proof.
  unfold wellTopologyChanged_.
  destruct (reportStepIdx =? 0); [by eexists|].
  destruct (negb _); [by eexists|]. apply compareWells_total.
Qed.

Lemma compareCompletions_self pre rest :
  compareCompletions (length pre) rest (pre ++ rest) = Ok false.
Proof.
  revert pre. induction rest as [|c rest IH]; intros pre; [done|].
  simpl.
  rewrite (scanPrevCompletions_at _ _ c _ c).
  2:{ by rewrite lookup_app_r, Nat.sub_diag. }
  rewrite sameIJK_refl. rewrite length_app. simpl.
  replace (length pre + S (length rest))%nat
    with (S (length pre + length rest)) by lia.
  simpl.
  specialize (IH (pre ++ [c])).
  rewrite length_app in IH. simpl in IH.
  rewrite Nat.add_1_r, <- app_assoc in IH. exact IH.
Qed.

Lemma findPrevWell_NoDup (prevWells : list DeckWell) (w : DeckWell) :
  NoDup (name <$> prevWells) -> w ∈ prevWells ->
  findPrevWell prevWells (name w) = Some w.
Proof.
  induction prevWells as [|p rest IH]; intros Hnd Hin.
  - by apply elem_of_nil in Hin.
  - simpl. apply NoDup_cons in Hnd as [Hp Hnd].
    apply elem_of_cons in Hin as [->|Hin].
    + by rewrite String.eqb_refl.
    + destruct (String.eqb_spec (name p) (name w)) as [Heq|_]; [|by apply IH].
      exfalso. apply Hp. rewrite Heq. by apply list_elem_of_fmap_2.
Qed.

Lemma compareWells_self step (curRest prevWells : list DeckWell) :
  NoDup (name <$> prevWells) -> curRest ⊆ prevWells ->
  compareWells step curRest prevWells = Ok false.
Proof.
  intros Hnd. induction curRest as [|w rest IH]; intros Hsub; [done|].
  simpl. rewrite findPrevWell_NoDup; [|done|set_solver].
  rewrite Nat.eqb_refl. simpl.
  pose proof (compareCompletions_self [] (getCompletions w step)) as Hself.
  simpl in Hself. rewrite Hself. simpl.
  apply IH. set_solver.
Qed.

(** For two consecutive report steps with the same wells (as many, each of
    the current step among those of the previous step, of distinct names) the
    detector answers false. *)
Lemma wellTopologyChanged_same_wells (eclState : EclipseState)
    (reportStepIdx : Z) :
  let curDeckWells := getWells (getSchedule eclState) reportStepIdx in
  let prevDeckWells := getWells (getSchedule eclState) (reportStepIdx - 1) in
  reportStepIdx <> 0 ->
  length curDeckWells = length prevDeckWells ->
  curDeckWells ⊆ prevDeckWells ->
  NoDup (name <$> prevDeckWells) ->
  wellTopologyChanged_ eclState reportStepIdx = Ok false.
Proof.
  intros cur prev Hne Hlen Hsub Hnd. unfold wellTopologyChanged_.
  destruct (Z.eqb_spec reportStepIdx 0); [done|].
  fold cur prev. rewrite Hlen, Nat.eqb_refl. simpl. by apply compareWells_self.
Qed.

(** ** The map of completions *)

Lemma logUnknown_index deckWells m :
  wellNameToIndex_ (logUnknown deckWells m) = wellNameToIndex_ m.
Proof.
  revert m. induction deckWells as [|dw rest IH]; intros m; [done|].
  simpl. destruct (negb _); rewrite IH; done.
Qed.

Lemma logUnknown_wells deckWells m :
  wells_ (logUnknown deckWells m) = wells_ m.
Proof.
  revert m. induction deckWells as [|dw rest IH]; intros m; [done|].
  simpl. destruct (negb _); rewrite IH; done.
Qed.

Lemma logUnknown_simulator deckWells m :
  simulator_ (logUnknown deckWells m) = simulator_ m.
Proof.
  revert m. induction deckWells as [|dw rest IH]; intros m; [done|].
  simpl. destruct (negb _); rewrite IH; done.
Qed.

Lemma hasWell_lookup m n :
  hasWell m n = true <-> is_Some (wellNameToIndex_ m !! n).
Proof. unfold hasWell. by rewrite bool_decide_eq_true. Qed.

Lemma hasWell_false m n :
  hasWell m n = false <-> wellNameToIndex_ m !! n = None.
Proof.
  unfold hasWell. rewrite bool_decide_eq_false. by rewrite eq_None_not_Some.
Qed.

Lemma wellIndex_known m n idx :
  wellNameToIndex_ m !! n = Some idx -> wellIndex m n = Ok idx.
Proof. intros H. unfold wellIndex. by rewrite H. Qed.

Lemma insertCompletions_entries m n idx nx ny completions map :
  wellNameToIndex_ m !! n = Some idx ->
  insertCompletions m n nx ny completions map
  = insertEntries
      ((fun completion => (cartIdxOf nx ny completion, (completion, idx)))
         <$> completions) map.
Proof.
  intros Hidx. revert map.
  induction completions as [|c rest IH]; intros map; [done|].
  simpl. destruct (assert _ _); simpl; [|done].
  rewrite (wellIndex_known _ _ _ Hidx). simpl. apply IH.
Qed.

Lemma insertEntries_app l1 l2 map :
  insertEntries (l1 ++ l2) map = insertEntries l1 map ≫= insertEntries l2.
Proof.
  revert map. induction l1 as [|[k v] l1 IH]; intros map; [done|].
  simpl. destruct (assert _ _); simpl; [apply IH|done].
Qed.

(** The builder is the insertion of the managed entries; the manager is left
    as it was but for the log. *)
Lemma computeWellCompletionsMap_wells_entries step nx ny deckWells m map :
  computeWellCompletionsMap_wells step nx ny deckWells m map
  = map' ← insertEntries
             (entriesOf (wellNameToIndex_ m) step nx ny deckWells) map;
    Ok (logUnknown deckWells m, map').
Proof.
  revert m map. induction deckWells as [|dw rest IH]; intros m map; [done|].
  unfold entriesOf in *. rewrite bind_cons.
  cbn [computeWellCompletionsMap_wells logUnknown].
  destruct (hasWell m (name dw)) eqn:Hhas; cbn [negb].
  - apply hasWell_lookup in Hhas as [idx Hidx]. rewrite Hidx.
    rewrite insertEntries_app, (insertCompletions_entries _ _ idx); [|done].
    destruct (insertEntries _ map) as [map1|e]; [|done].
    apply IH.
  - apply hasWell_false in Hhas. rewrite Hhas. by rewrite IH.
Qed.

Lemma insertEntries_failure entries map e :
  insertEntries entries map = Err e ->
  e = AssertionFailed "cartesianIdxToCompletionMap.count(cartIdx) == 0".
Proof.
  revert map. induction entries as [|[k v] rest IH]; intros map; [done|].
  simpl. unfold assert. case_bool_decide; simpl; [apply IH|by intros [= <-]].
Qed.

Lemma insertEntries_Ok entries map map' :
  insertEntries entries map = Ok map' ->
  NoDup entries.*1
  /\ (forall k, k ∈ entries.*1 -> map !! k = None)
  /\ size map' = (length entries + size map)%nat
  /\ (forall k v, (k, v) ∈ entries -> map' !! k = Some v)
  /\ (forall k, k ∉ entries.*1 -> map' !! k = map !! k).
Proof.
  revert map. induction entries as [|[k v] rest IH]; intros map.
  - intros [= <-]. split_and!; try done.
    + constructor.
    + intros k Hk. by apply elem_of_nil in Hk.
    + intros k v Hk. by apply elem_of_nil in Hk.
  - simpl. unfold assert. case_bool_decide as Hfree; simpl; [|done].
    intros Hrest. destruct (IH _ Hrest) as (Hnd & Hnew & Hsize & Hin & Hout).
    assert (Hk : k ∉ rest.*1).
    { intros Hk. specialize (Hnew _ Hk). by rewrite lookup_insert_eq in Hnew. }
    split_and!.
    + by constructor.
    + intros k' [->|Hk']%elem_of_cons; [done|].
      specialize (Hnew _ Hk'). rewrite lookup_insert_ne in Hnew; [done|].
      intros ->. done.
    + rewrite Hsize, map_size_insert_None; [lia|done].
    + intros k' v' [[= -> ->]|Hk']%elem_of_cons; [|by apply Hin].
      rewrite Hout; [|done]. by rewrite lookup_insert_eq.
    + intros k' Hk'. apply not_elem_of_cons in Hk' as [Hne Hk'].
      rewrite Hout; [|done]. by rewrite lookup_insert_ne.
Qed.

Lemma insertEntries_NoDup entries map :
  NoDup entries.*1 -> (forall k, k ∈ entries.*1 -> map !! k = None) ->
  exists map', insertEntries entries map = Ok map'.
Proof.
  revert map. induction entries as [|[k v] rest IH]; intros map Hnd Hfree.
  - by eexists.
  - simpl in *. apply NoDup_cons in Hnd as [Hk Hnd].
    unfold assert. rewrite bool_decide_eq_true_2; [|apply Hfree; left].
    simpl. apply IH; [done|].
    intros k' Hk'. rewrite lookup_insert_ne; [|by intros ->].
    apply Hfree. by right.
Qed.

Lemma entriesOf_keys m step :
  let eclState := gridManager_eclState (simulator_ m) in
  let nx := getNX (getEclipseGrid eclState) in
  let ny := getNY (getEclipseGrid eclState) in
  (entriesOf (wellNameToIndex_ m) step nx ny
     (getWells (getSchedule eclState) step)).*1
  = cartIdxOf nx ny <$> managedCompletions m step.
Proof.
  intros eclState nx ny. unfold managedCompletions, entriesOf.
  fold eclState.
  induction (getWells (getSchedule eclState) step) as [|dw rest IH]; [done|].
  rewrite !bind_cons, !fmap_app, IH. f_equal.
  destruct (hasWell m (name dw)) eqn:Hhas.
  - apply hasWell_lookup in Hhas as [idx ->].
    rewrite <- list_fmap_compose. done.
  - apply hasWell_false in Hhas. by rewrite Hhas.
Qed.

Lemma entriesOf_completions m step c :
  let eclState := gridManager_eclState (simulator_ m) in
  let nx := getNX (getEclipseGrid eclState) in
  let ny := getNY (getEclipseGrid eclState) in
  c ∈ managedCompletions m step ->
  exists idx,
    (cartIdxOf nx ny c, (c, idx))
    ∈ entriesOf (wellNameToIndex_ m) step nx ny
        (getWells (getSchedule eclState) step).
Proof.
  intros eclState nx ny. unfold managedCompletions, entriesOf.
  fold eclState.
  induction (getWells (getSchedule eclState) step) as [|dw rest IH];
    intros Hc.
  - by apply elem_of_nil in Hc.
  - rewrite bind_cons in *. apply elem_of_app in Hc as [Hc|Hc].
    + destruct (hasWell m (name dw)) eqn:Hhas;
        [|by apply elem_of_nil in Hc].
      apply hasWell_lookup in Hhas as [idx Hidx]. exists idx.
      apply elem_of_app. left. rewrite Hidx.
      by apply (list_elem_of_fmap_2
                  (fun completion => (cartIdxOf nx ny completion,
                                      (completion, idx)))).
    + destruct (IH Hc) as [idx Hidx]. exists idx.
      apply elem_of_app. by right.
Qed.

(** C3. The map of completions built by [computeWellCompletionsMap_] for a
    report step keys every completion of the wells the manager knows by
    [i + j*nx + k*nx*ny], one entry per completion and no key twice: when the
    builder returns, the keys of these completions are pairwise distinct and
    the map has as many entries as there are completions; it returns
    whenever the keys are distinct; and when two of these completions (of one
    well or of two) share a key, the builder stops on the failed
    assertion. *)
Theorem computeWellCompletionsMap_no_duplicates (m : EclWellManager)
    (reportStepIdx : Z) :
  let eclState := gridManager_eclState (simulator_ m) in
  let nx := getNX (getEclipseGrid eclState) in
  let ny := getNY (getEclipseGrid eclState) in
  let completions := managedCompletions m reportStepIdx in
  (forall m' map,
     computeWellCompletionsMap_ reportStepIdx ∅ m = Ok (m', map) ->
     NoDup (cartIdxOf nx ny <$> completions)
     /\ size map = length completions
     /\ forall c, c ∈ completions ->
          exists eclWell, map !! cartIdxOf nx ny c = Some (c, eclWell))
  /\ (NoDup (cartIdxOf nx ny <$> completions) ->
      exists m' map,
        computeWellCompletionsMap_ reportStepIdx ∅ m = Ok (m', map))
  /\ (forall p q c1 c2,
        p <> q ->
        completions !! p = Some c1 -> completions !! q = Some c2 ->
        cartIdxOf nx ny c1 = cartIdxOf nx ny c2 ->
        computeWellCompletionsMap_ reportStepIdx ∅ m
        = Err (AssertionFailed
                 "cartesianIdxToCompletionMap.count(cartIdx) == 0")).
Proof.
  intros eclState nx ny completions.
  pose proof (entriesOf_keys m reportStepIdx) as Hkeys. simpl in Hkeys.
  fold eclState nx ny completions in Hkeys.
  unfold computeWellCompletionsMap_. fold eclState nx ny.
  rewrite computeWellCompletionsMap_wells_entries.
  set (entries := entriesOf _ _ _ _ _) in *.
  assert (Hgood : NoDup (cartIdxOf nx ny <$> completions) ->
                  exists map', insertEntries entries ∅ = Ok map').
  { intros Hnd. apply insertEntries_NoDup; [by rewrite Hkeys|done]. }
  split_and!.
  - intros m' map (map' & Hins & [= <- <-])%bind_Ok.
    destruct (insertEntries_Ok _ _ _ Hins) as (Hnd & _ & Hsize & Hin & _).
    rewrite Hkeys in Hnd. split_and!; [done| |].
    + rewrite Hsize, map_size_empty, Nat.add_0_r.
      rewrite <- (length_fmap fst entries), Hkeys. by rewrite length_fmap.
    + intros c Hc.
      destruct (entriesOf_completions m reportStepIdx c Hc) as [idx Hidx].
      exists idx. by apply Hin.
  - intros Hnd. destruct (Hgood Hnd) as [map' ->]. simpl. by eexists _, _.
  - intros p q c1 c2 Hpq Hp Hq Hkey.
    destruct (insertEntries entries ∅) as [map'|e] eqn:Hins; simpl.
    + exfalso. apply insertEntries_Ok in Hins as (Hnd & _).
      rewrite Hkeys in Hnd. apply Hpq.
      eapply NoDup_lookup; [exact Hnd| |].
      * rewrite list_lookup_fmap, Hp. done.
      * rewrite list_lookup_fmap, Hq. simpl. by rewrite Hkey.
    + by rewrite (insertEntries_failure _ _ _ Hins).
Qed.

(** ** The loop body of [beginEpisode] on one well *)

Lemma beginEpisode_injector_frame ep dw w w' :
  beginEpisode_injector ep dw w = Ok w' ->
  wellName w' = wellName w /\ dofVariables w' = dofVariables w
  /\ referenceDepth w' = referenceDepth w /\ wellStatus w' = wellStatus w
  /\ wellType w' = Some Injector.
Proof.
  unfold beginEpisode_injector.
  destruct (injectorType _), (inj_controlMode _); simpl;
    intros [= <-]; done.
Qed.

Lemma beginEpisode_producer_frame ep dw w w' :
  beginEpisode_producer ep dw w = Ok w' ->
  wellName w' = wellName w /\ dofVariables w' = dofVariables w
  /\ referenceDepth w' = referenceDepth w /\ wellStatus w' = wellStatus w
  /\ wellType w' = Some Producer.
Proof.
  unfold beginEpisode_producer.
  destruct (prod_controlMode _); simpl; intros [= <-]; done.
Qed.

(** What the loop body does when it returns: exactly one of the two flags
    of the deck well is set, the well has the type of that flag and the
    status the deck status stands for, and its name, its DOFs and its
    reference depth are untouched. *)
Lemma beginEpisode_well_Ok ep dw w w' :
  beginEpisode_well ep dw w = Ok w' ->
  isInjector dw ep = negb (isProducer dw ep)
  /\ wellType w' = Some (if isInjector dw ep then Injector else Producer)
  /\ wellStatus w' = Some (statusOf (getStatus dw ep))
  /\ wellName w' = wellName w /\ dofVariables w' = dofVariables w
  /\ referenceDepth w' = referenceDepth w.
Proof.
  unfold beginEpisode_well.
  set (w0 := match getStatus dw ep with
             | WellCommon.STOP => _ | WellCommon.SHUT => _ | _ => _ end).
  assert (Hw0 : wellName w0 = wellName w /\ dofVariables w0 = dofVariables w
                /\ referenceDepth w0 = referenceDepth w
                /\ wellStatus w0 = Some (statusOf (getStatus dw ep))).
  { subst w0. by destruct (getStatus dw ep). }
  clearbody w0. destruct Hw0 as (Hn & Hd & Hr & Hs).
  destruct (isInjector dw ep), (isProducer dw ep); simpl; try done.
  - destruct (beginEpisode_injector ep dw w0) as [w1|] eqn:Hinj; simpl; [|done].
    intros [= <-].
    apply beginEpisode_injector_frame in Hinj as (? & ? & ? & ? & ?).
    split_and!; congruence.
  - intros Hprod.
    apply beginEpisode_producer_frame in Hprod as (? & ? & ? & ? & ?).
    split_and!; congruence.
Qed.

(** Whether the loop body fails is decided by the deck well alone. *)
Lemma beginEpisode_well_failed_indep ep dw w1 w2 :
  failed (beginEpisode_well ep dw w1) -> failed (beginEpisode_well ep dw w2).
Proof.
  unfold beginEpisode_well, beginEpisode_injector, beginEpisode_producer.
  destruct (isInjector dw ep), (isProducer dw ep); simpl;
    try (intros _; apply failed_Err).
  - destruct (injectorType _), (inj_controlMode _); simpl;
      first [intros _; apply failed_Err | intros []%not_failed_Ok].
  - destruct (prod_controlMode _); simpl;
      first [intros _; apply failed_Err | intros []%not_failed_Ok].
Qed.

(** The loop body never fails by range. *)
Lemma beginEpisode_well_fatal ep dw w e :
  beginEpisode_well ep dw w = Err e -> fatal e.
Proof.
  unfold beginEpisode_well, beginEpisode_injector, beginEpisode_producer.
  destruct (isInjector dw ep), (isProducer dw ep); simpl;
    try (by intros [= <-]).
  - destruct (injectorType _), (inj_controlMode _); simpl;
      by intros [= <-].
  - destruct (prod_controlMode _); simpl; by intros [= <-].
Qed.

(** An unsupported declaration makes the loop body fail. *)
Lemma beginEpisode_well_unsupported ep dw w :
  unsupported ep dw -> failed (beginEpisode_well ep dw w).
Proof.
  unfold unsupported, beginEpisode_well, beginEpisode_injector,
    beginEpisode_producer.
  intros [[-> Hinj]|[-> Hprod]].
  - destruct (isProducer dw ep); simpl; [apply failed_Err|].
    destruct Hinj as [->|[->| ->]]; simpl.
    + apply failed_Err.
    + destruct (injectorType _); apply failed_Err.
    + destruct (injectorType _); apply failed_Err.
  - destruct (isInjector dw ep); simpl; [apply failed_Err|].
    destruct Hprod as [->|[->| ->]]; apply failed_Err.
Qed.

(** Both flags or neither: the assertion of the loop body fails. *)
Lemma beginEpisode_well_flags ep dw w :
  isInjector dw ep = isProducer dw ep ->
  beginEpisode_well ep dw w
  = Err (AssertionFailed
           "(deckWell->isInjector(episodeIdx)?1:0) + (deckWell->isProducer(episodeIdx)?1:0) == 1").
Proof.
  unfold beginEpisode_well. intros ->. by destruct (isProducer dw ep).
Qed.

(** An undefined control mode: the message bears the name of the well. *)
Lemma beginEpisode_well_undefined_injector ep dw w :
  isInjector dw ep = true -> isProducer dw ep = false ->
  injectorType (getInjectionProperties dw ep) <> WellInjector.MULTI ->
  inj_controlMode (getInjectionProperties dw ep)
  = WellInjector.CMODE_UNDEFINED ->
  beginEpisode_well ep dw w
  = Err (RuntimeError
           ("Control mode of well " +:+ wellName w +:+ " is undefined.")).
Proof.
  unfold beginEpisode_well, beginEpisode_injector.
  intros -> -> Hty ->. simpl.
  destruct (injectorType _); try done; by destruct (getStatus dw ep).
Qed.

Lemma beginEpisode_well_undefined_producer ep dw w :
  isInjector dw ep = false -> isProducer dw ep = true ->
  prod_controlMode (getProductionProperties dw ep)
  = WellProducer.CMODE_UNDEFINED ->
  beginEpisode_well ep dw w
  = Err (RuntimeError
           ("Control mode of well " +:+ wellName w +:+ " is undefined.")).
Proof.
  unfold beginEpisode_well, beginEpisode_producer.
  intros -> -> ->. simpl. by destruct (getStatus dw ep).
Qed.

(** ** The loop of [beginEpisode] over the wells of the deck *)

Lemma fmap_alter_preserve {X} (proj : Well -> X) (f : Well -> Well) i
    (l : list Well) :
  (forall w, proj (f w) = proj w) -> proj <$> alter f i l = proj <$> l.
Proof.
  intros Hf. rewrite (list_fmap_alter proj f id).
  - by apply list_alter_id.
  - apply Forall_forall. intros w _. apply Hf.
Qed.

Lemma fmap_insert_preserve {X} (proj : Well -> X) i (w w' : Well)
    (l : list Well) :
  l !! i = Some w -> proj w' = proj w -> proj <$> <[i:=w']> l = proj <$> l.
Proof.
  intros Hi Hw. rewrite list_fmap_insert, Hw. apply list_insert_id.
  by rewrite list_lookup_fmap, Hi.
Qed.

Lemma manager_wf_same m m' : sameWells m m' -> manager_wf m -> manager_wf m'.
Proof.
  intros [Hidx Hnames] Hwf n idx Hn. rewrite Hidx in Hn.
  destruct (Hwf n idx Hn) as (w & Hw & Hname).
  assert (Hl : (wellName <$> wells_ m') !! idx = Some n).
  { rewrite Hnames, list_lookup_fmap, Hw. simpl. by rewrite Hname. }
  rewrite list_lookup_fmap in Hl.
  destruct (wells_ m' !! idx) as [w'|]; [|done].
  exists w'. split; [done|]. by injection Hl.
Qed.

Lemma sameWells_refl m : sameWells m m.
Proof. done. Qed.

Lemma sameWells_trans m1 m2 m3 :
  sameWells m1 m2 -> sameWells m2 m3 -> sameWells m1 m3.
Proof. intros [H1 H2] [H3 H4]. split; congruence. Qed.

(** The index the manager_wf relation gives is injective. *)
Lemma manager_wf_inj m n1 n2 idx :
  manager_wf m ->
  wellNameToIndex_ m !! n1 = Some idx -> wellNameToIndex_ m !! n2 = Some idx ->
  n1 = n2.
Proof.
  intros Hwf H1 H2.
  destruct (Hwf _ _ H1) as (w1 & Hw1 & <-).
  destruct (Hwf _ _ H2) as (w2 & Hw2 & <-). congruence.
Qed.

(** One round of the loop on a well the manager knows. *)
Lemma beginEpisode_wells_known ep dw rest m idx :
  wellNameToIndex_ m !! name dw = Some idx ->
  beginEpisode_wells ep (dw :: rest) m
  = match wells_ m !! idx with
    | None => Err RangeError
    | Some well =>
        well' ← beginEpisode_well ep dw well;
        beginEpisode_wells ep rest (setWells (<[idx := well']> (wells_ m)) m)
    end.
Proof.
  intros Hidx. cbn [beginEpisode_wells].
  assert (Hhas : hasWell m (name dw) = true) by (apply hasWell_lookup; eauto).
  rewrite Hhas. cbn [negb]. by rewrite (wellIndex_known _ _ _ Hidx).
Qed.

Lemma beginEpisode_wells_unknown ep dw rest m :
  wellNameToIndex_ m !! name dw = None ->
  beginEpisode_wells ep (dw :: rest) m = beginEpisode_wells ep rest m.
Proof.
  intros Hidx. cbn [beginEpisode_wells].
  apply hasWell_false in Hidx. by rewrite Hidx.
Qed.

(** The loop changes neither the index, the simulator nor the log, and of
    the wells neither the names nor the DOFs. *)
Lemma beginEpisode_wells_frame ep deckWells m m' :
  beginEpisode_wells ep deckWells m = Ok m' ->
  wellNameToIndex_ m' = wellNameToIndex_ m
  /\ simulator_ m' = simulator_ m
  /\ cout m' = cout m
  /\ wellName <$> wells_ m' = wellName <$> wells_ m
  /\ dofVariables <$> wells_ m' = dofVariables <$> wells_ m.
Proof.
  revert m. induction deckWells as [|dw rest IH]; intros m.
  - by intros [= <-].
  - destruct (wellNameToIndex_ m !! name dw) as [idx|] eqn:Hidx.
    + rewrite (beginEpisode_wells_known _ _ _ _ _ Hidx).
      destruct (wells_ m !! idx) as [w|] eqn:Hw; [|done].
      destruct (beginEpisode_well ep dw w) as [w'|] eqn:Hstep; [|done].
      simpl. intros Hrest. apply IH in Hrest. simpl in Hrest.
      destruct Hrest as (-> & -> & -> & -> & ->).
      apply beginEpisode_well_Ok in Hstep as (_ & _ & _ & Hn & Hd & _).
      split_and!; try done; by eapply fmap_insert_preserve.
    + rewrite (beginEpisode_wells_unknown _ _ _ _ Hidx). apply IH.
Qed.

(** A well that no deck well of the list resolves to is left as it was. *)
Lemma beginEpisode_wells_untouched ep deckWells m m' idx :
  beginEpisode_wells ep deckWells m = Ok m' ->
  (forall dw, dw ∈ deckWells -> wellNameToIndex_ m !! name dw <> Some idx) ->
  wells_ m' !! idx = wells_ m !! idx.
Proof.
  revert m. induction deckWells as [|dw rest IH]; intros m.
  - by intros [= <-].
  - intros Hloop Hother.
    destruct (wellNameToIndex_ m !! name dw) as [idx0|] eqn:Hidx.
    + rewrite (beginEpisode_wells_known _ _ _ _ _ Hidx) in Hloop.
      destruct (wells_ m !! idx0) as [w|] eqn:Hw; [|done].
      destruct (beginEpisode_well ep dw w) as [w'|] eqn:Hstep; [|done].
      simpl in Hloop. rewrite (IH _ Hloop); simpl.
      * apply list_lookup_insert_ne. intros ->.
        apply (Hother dw); [by left|done].
      * intros d Hd. apply Hother. by right.
    + rewrite (beginEpisode_wells_unknown _ _ _ _ Hidx) in Hloop.
      apply (IH _ Hloop). intros d Hd. apply Hother. by right.
Qed.

(** When the loop returns, the well a deck well of the list resolves to
    is the result of the loop body for a deck well of the list that
    resolves to it (the last one). *)
Lemma beginEpisode_wells_post ep deckWells m m' dw idx :
  beginEpisode_wells ep deckWells m = Ok m' ->
  dw ∈ deckWells -> wellNameToIndex_ m !! name dw = Some idx ->
  exists dw' w0 w',
    dw' ∈ deckWells /\ wellNameToIndex_ m !! name dw' = Some idx
    /\ beginEpisode_well ep dw' w0 = Ok w' /\ wells_ m' !! idx = Some w'.
Proof.
  revert m dw.
  induction deckWells as [|dw0 rest IH]; intros m dw Hloop Hin Hidx.
  - by apply elem_of_nil in Hin.
  - destruct (wellNameToIndex_ m !! name dw0) as [idx0|] eqn:Hidx0.
    + rewrite (beginEpisode_wells_known _ _ _ _ _ Hidx0) in Hloop.
      destruct (wells_ m !! idx0) as [w|] eqn:Hw; [|done].
      destruct (beginEpisode_well ep dw0 w) as [w'|] eqn:Hstep; [|done].
      simpl in Hloop.
      destruct (decide (Exists (fun d => wellNameToIndex_ m !! name d = Some idx)
                          rest)) as [Hex|Hnex].
      * apply Exists_exists in Hex as (d & Hd & Hdidx).
        destruct (IH _ _ Hloop Hd Hdidx) as (dw' & w0 & w1 & ? & ? & ? & ?).
        exists dw', w0, w1. split_and!; try done. by right.
      * assert (Hnone : forall d, d ∈ rest ->
                  wellNameToIndex_ m !! name d <> Some idx).
        { intros d Hd Hdidx. apply Hnex. apply Exists_exists. eauto. }
        apply elem_of_cons in Hin as [->|Hin]; [|by destruct (Hnone _ Hin)].
        assert (idx0 = idx) as -> by congruence.
        exists dw0, w, w'. split_and!; try done; [by left|].
        rewrite (beginEpisode_wells_untouched _ _ _ _ _ Hloop Hnone). simpl.
        apply list_lookup_insert_eq. by eapply lookup_lt_Some.
    + rewrite (beginEpisode_wells_unknown _ _ _ _ Hidx0) in Hloop.
      apply elem_of_cons in Hin as [->|Hin]; [congruence|].
      destruct (IH _ _ Hloop Hin Hidx) as (dw' & w0 & w1 & ? & ? & ? & ?).
      exists dw', w0, w1. split_and!; try done. by right.
Qed.

Lemma NoDup_fmap_elem_inj {A B} (f : A -> B) (l : list A) x y :
  NoDup (f <$> l) -> x ∈ l -> y ∈ l -> f x = f y -> x = y.
Proof.
  induction l as [|a l IH]; intros Hnd Hx Hy Hf.
  - by apply elem_of_nil in Hx.
  - simpl in Hnd. apply NoDup_cons in Hnd as [Ha Hnd].
    apply elem_of_cons in Hx as [->|Hx]; apply elem_of_cons in Hy as [->|Hy];
      try done.
    + exfalso. apply Ha. rewrite Hf. by apply list_elem_of_fmap_2.
    + exfalso. apply Ha. rewrite <- Hf. by apply list_elem_of_fmap_2.
    + by apply IH.
Qed.

(** A deck well of the list that the manager knows and on which the loop
    body fails makes the loop fail. *)
Lemma beginEpisode_wells_failed ep deckWells m dw :
  dw ∈ deckWells -> hasWell m (name dw) = true ->
  (forall w, failed (beginEpisode_well ep dw w)) ->
  failed (beginEpisode_wells ep deckWells m).
Proof.
  revert m. induction deckWells as [|dw0 rest IH]; intros m Hin Hhas Hfail.
  - by apply elem_of_nil in Hin.
  - destruct (wellNameToIndex_ m !! name dw0) as [idx0|] eqn:Hidx0.
    + rewrite (beginEpisode_wells_known _ _ _ _ _ Hidx0).
      destruct (wells_ m !! idx0) as [w|] eqn:Hw; [|apply failed_Err].
      apply elem_of_cons in Hin as [->|Hin].
      * destruct (Hfail w) as [e ->]. apply failed_Err.
      * destruct (beginEpisode_well ep dw0 w) as [w'|];
          [|apply failed_Err].
        simpl. by apply IH.
    + rewrite (beginEpisode_wells_unknown _ _ _ _ Hidx0).
      apply elem_of_cons in Hin as [->|Hin]; [|by apply IH].
      apply hasWell_lookup in Hhas as [? ?]. congruence.
Qed.

(** On a consistent manager the loop never fails by range. *)
Lemma beginEpisode_wells_fatal ep deckWells m e :
  manager_wf m -> beginEpisode_wells ep deckWells m = Err e -> fatal e.
Proof.
  revert m. induction deckWells as [|dw rest IH]; intros m Hwf; [done|].
  destruct (wellNameToIndex_ m !! name dw) as [idx|] eqn:Hidx.
  - rewrite (beginEpisode_wells_known _ _ _ _ _ Hidx).
    destruct (Hwf _ _ Hidx) as (w & Hw & Hname). rewrite Hw.
    destruct (beginEpisode_well ep dw w) as [w'|e'] eqn:Hstep; simpl.
    + apply IH. eapply manager_wf_same; [|exact Hwf].
      split; [done|]. simpl.
      apply beginEpisode_well_Ok in Hstep as (_ & _ & _ & Hn & _).
      by eapply fmap_insert_preserve.
    + intros [= <-]. by eapply beginEpisode_well_fatal.
  - rewrite (beginEpisode_wells_unknown _ _ _ _ Hidx). by apply IH.
Qed.

(** ** The topology rebuild *)

(** The walk over elements and their DOFs is a walk over the local DOFs. *)
Lemma updateWellTopology_walk cid wcm grid acc :
  foldl (updateWellTopology_elem cid wcm) acc grid
  = foldl (updateWellTopology_dof cid wcm) acc (localDofs grid).
Proof.
  revert acc. induction grid as [|elem grid IH]; intros acc; [done|].
  unfold localDofs in *. rewrite bind_cons, foldl_app. simpl.
  rewrite IH. unfold updateWellTopology_elem.
  by destruct (partitionType elem).
Qed.

Lemma updateWellParameters_walk cid wcm grid wells :
  foldl (updateWellParameters_elem cid wcm) wells grid
  = foldl (updateWellParameters_dof cid wcm) wells (localDofs grid).
Proof.
  revert wells. induction grid as [|elem grid IH]; intros wells; [done|].
  unfold localDofs in *. rewrite bind_cons, foldl_app. simpl.
  rewrite IH. unfold updateWellParameters_elem.
  by destruct (partitionType elem).
Qed.

(** The state of the walk after a list of DOFs: the wells keep their
    number and names, a well owns the DOFs it owned plus those of the list it
    completes, and the set collects the wells completing a DOF of the list. *)
Lemma updateWellTopology_dofs cid wcm dofs wells touched :
  (forall k c idx, wcm !! k = Some (c, idx) -> (idx < length wells)%nat) ->
  let acc := foldl (updateWellTopology_dof cid wcm) (wells, touched) dofs in
  wellName <$> acc.1 = wellName <$> wells
  /\ (forall idx w, wells !! idx = Some w ->
        exists w', acc.1 !! idx = Some w'
          /\ forall g, g ∈ dom (dofVariables w')
               <-> g ∈ dom (dofVariables w)
                   \/ (g ∈ dofs /\ completedBy cid wcm g idx))
  /\ (forall idx, idx ∈ acc.2
        <-> idx ∈ touched \/ exists g, g ∈ dofs /\ completedBy cid wcm g idx).
Proof.
  revert wells touched.
  induction dofs as [|g0 dofs IH]; intros wells touched Hrange acc.
  - subst acc. simpl. split_and!; [done| |].
    + intros idx w Hw. exists w. split; [done|]. intros g. split; [auto|].
      intros [?|[[]%elem_of_nil _]]. done.
    + intros idx. split; [auto|]. intros [?|(g & []%elem_of_nil & _)]. done.
  - subst acc. cbn [foldl].
    destruct (wcm !! cid g0) as [[c0 idx0]|] eqn:Hg0.
    + replace (updateWellTopology_dof cid wcm (wells, touched) g0)
        with (alter (addDof g0) idx0 wells, {[idx0]} ∪ touched)
        by (unfold updateWellTopology_dof; by rewrite Hg0).
      specialize (IH (alter (addDof g0) idx0 wells) ({[idx0]} ∪ touched)).
      destruct IH as (Hn & Hd & Ht).
      { intros k c idx Hk. rewrite length_alter. by eapply Hrange. }
      split_and!.
      * rewrite Hn. by apply fmap_alter_preserve.
      * intros idx w Hw.
        destruct (decide (idx = idx0)) as [->|Hne].
        -- destruct (Hd idx0 (addDof g0 w)) as (w' & Hw' & Hdom).
           { by rewrite list_lookup_alter_eq, Hw. }
           exists w'. split; [done|]. intros g. rewrite Hdom. simpl.
           rewrite dom_insert_L, elem_of_union, elem_of_singleton.
           rewrite elem_of_cons. unfold completedBy at 2.
           split.
           ++ intros [[->|?]|[? ?]]; eauto 6.
           ++ intros [?|[[->|?] Hc]]; eauto.
        -- destruct (Hd idx w) as (w' & Hw' & Hdom).
           { by rewrite list_lookup_alter_ne. }
           exists w'. split; [done|]. intros g. rewrite Hdom.
           rewrite elem_of_cons. unfold completedBy.
           split.
           ++ intros [?|[? ?]]; eauto.
           ++ intros [?|[[->|?] [c Hc]]]; eauto. congruence.
      * intros idx. rewrite Ht, elem_of_union, elem_of_singleton.
        unfold completedBy. split.
        -- intros [[->|?]|(g & ? & ?)]; eauto.
           ++ right. exists g0. split; [by left|eauto].
           ++ right. exists g. split; [by right|done].
        -- intros [?|(g & [->|?]%elem_of_cons & [c Hc])]; eauto.
           left. left. congruence.
    + replace (updateWellTopology_dof cid wcm (wells, touched) g0)
        with (wells, touched)
        by (unfold updateWellTopology_dof; by rewrite Hg0).
      specialize (IH wells touched Hrange). destruct IH as (Hn & Hd & Ht).
      split_and!; [done| |].
      * intros idx w Hw. destruct (Hd idx w Hw) as (w' & Hw' & Hdom).
        exists w'. split; [done|]. intros g. rewrite Hdom.
        rewrite elem_of_cons. unfold completedBy. split.
        -- intros [?|[? ?]]; eauto.
        -- intros [?|[[->|?] [c Hc]]]; eauto. congruence.
      * intros idx. rewrite Ht. unfold completedBy. split.
        -- intros [?|(g & ? & ?)]; eauto.
           right. exists g. split; [by right|done].
        -- intros [?|(g & [->|?]%elem_of_cons & [c Hc])]; eauto. congruence.
Qed.

(** The registry after the registration loop. *)
Lemma addAuxiliaryModules_elem (registry : list AuxiliaryModule)
    (wells : list nat) (auxMod : AuxiliaryModule) :
  auxMod ∈ foldl (fun reg eclWell => addAuxiliaryModule (WellModule eclWell) reg)
             registry wells
  <-> auxMod ∈ registry \/ exists idx, auxMod = WellModule idx /\ idx ∈ wells.
Proof.
  revert registry. induction wells as [|i wells IH]; intros registry; simpl.
  - split; [auto|]. intros [?|(idx & _ & []%elem_of_nil)]. done.
  - rewrite IH. unfold addAuxiliaryModule. rewrite elem_of_app.
    rewrite list_elem_of_singleton. split.
    + intros [[?| ->]|(idx & -> & ?)]; eauto.
      * right. exists i. split; [done|by left].
      * right. exists idx. split; [done|by right].
    + intros [?|(idx & -> & [->|?]%elem_of_cons)]; eauto.
Qed.

Lemma addAuxiliaryModules_NoDup (registry : list AuxiliaryModule)
    (wells : list nat) :
  NoDup registry -> NoDup wells ->
  (forall idx, idx ∈ wells -> WellModule idx ∉ registry) ->
  NoDup (foldl (fun reg eclWell => addAuxiliaryModule (WellModule eclWell) reg)
           registry wells).
Proof.
  revert registry. induction wells as [|i wells IH];
    intros registry Hreg Hnd Hfresh; [done|].
  simpl. apply NoDup_cons in Hnd as [Hi Hnd]. apply IH; [|done|].
  - unfold addAuxiliaryModule. apply NoDup_app. split_and!; [done| |].
    + intros x Hx Hx'%list_elem_of_singleton. subst x.
      apply (Hfresh i); [by left|done].
    + apply NoDup_singleton.
  - intros idx Hidx. unfold addAuxiliaryModule. rewrite elem_of_app.
    intros [?|Heq%list_elem_of_singleton].
    + apply (Hfresh idx); [by right|done].
    + injection Heq as ->. done.
Qed.

(** What [clearAuxiliaryModules] keeps, and what the registration loop adds
    to the wells and to the other modules of the registry. *)
Lemma clearAuxiliaryModules_elem (registry : list AuxiliaryModule)
    (auxMod : AuxiliaryModule) :
  auxMod ∈ clearAuxiliaryModules registry
  <-> auxMod ∈ registry /\ isWellModule auxMod = false.
Proof.
  unfold clearAuxiliaryModules. rewrite list_elem_of_filter. tauto.
Qed.

Lemma clearAuxiliaryModules_idemp (registry : list AuxiliaryModule) :
  clearAuxiliaryModules (clearAuxiliaryModules registry)
  = clearAuxiliaryModules registry.
Proof.
  unfold clearAuxiliaryModules.
  induction registry as [|auxMod registry IH]; [done|].
  destruct (decide (isWellModule auxMod = false)) as [Hother|Hwell].
  - rewrite !filter_cons_True by done. by rewrite IH.
  - by rewrite filter_cons_False.
Qed.

Lemma clearAuxiliaryModules_wells (registry : list AuxiliaryModule) :
  filter (fun auxMod => isWellModule auxMod = true)
    (clearAuxiliaryModules registry) = [].
Proof.
  unfold clearAuxiliaryModules.
  induction registry as [|auxMod registry IH]; [done|].
  destruct (decide (isWellModule auxMod = false)) as [Hother|Hwell].
  - rewrite filter_cons_True by done.
    rewrite filter_cons_False; [done|]. by rewrite Hother.
  - by rewrite filter_cons_False.
Qed.

Lemma addAuxiliaryModules_wells (registry : list AuxiliaryModule)
    (wells : list nat) :
  filter (fun auxMod => isWellModule auxMod = true)
    (foldl (fun reg eclWell => addAuxiliaryModule (WellModule eclWell) reg)
       registry wells)
  = filter (fun auxMod => isWellModule auxMod = true) registry
    ++ (WellModule <$> wells).
Proof.
  revert registry. induction wells as [|i wells IH]; intros registry; simpl.
  - by rewrite app_nil_r.
  - rewrite IH. unfold addAuxiliaryModule. rewrite filter_app.
    rewrite filter_cons_True by done. rewrite filter_nil.
    by rewrite <- app_assoc.
Qed.

Lemma addAuxiliaryModules_others (registry : list AuxiliaryModule)
    (wells : list nat) :
  clearAuxiliaryModules
    (foldl (fun reg eclWell => addAuxiliaryModule (WellModule eclWell) reg)
       registry wells)
  = clearAuxiliaryModules registry.
Proof.
  revert registry. induction wells as [|i wells IH]; intros registry; simpl;
    [done|].
  rewrite IH. unfold addAuxiliaryModule, clearAuxiliaryModules.
  rewrite filter_app. rewrite filter_cons_False by done.
  rewrite filter_nil. by rewrite app_nil_r.
Qed.


Lemma updateWellTopology_unfold step wcm m :
  updateWellTopology_ step wcm m
  = let sim := simulator_ m in
    let acc := foldl (updateWellTopology_dof (cartesianCellId sim) wcm)
                 (clear <$> wells_ m, ∅) (localDofs (gridView sim)) in
    setSimulator
      (setAuxiliaryModules
         (foldl (fun reg eclWell => addAuxiliaryModule (WellModule eclWell) reg)
            (clearAuxiliaryModules (auxiliaryModules sim)) (elements acc.2))
         sim)
      (setWells acc.1 m).
Proof.
  unfold updateWellTopology_. rewrite updateWellTopology_walk.
  by destruct (foldl _ _ _).
Qed.

(** The wells the rebuild leaves: as many, under the same names, each owning
    exactly the local DOFs that lie in one of its completions. *)
Lemma updateWellTopology_wells step wcm m :
  (forall k c idx, wcm !! k = Some (c, idx) -> (idx < length (wells_ m))%nat) ->
  let sim := simulator_ m in
  let m' := updateWellTopology_ step wcm m in
  wellName <$> wells_ m' = wellName <$> wells_ m
  /\ forall idx well, wells_ m' !! idx = Some well ->
       forall g, g ∈ dom (dofVariables well)
         <-> g ∈ localDofs (gridView sim)
             /\ completedBy (cartesianCellId sim) wcm g idx.
Proof.
  intros Hrange sim m'. subst m'. rewrite updateWellTopology_unfold.
  cbn zeta. fold sim. simpl.
  destruct (updateWellTopology_dofs (cartesianCellId sim) wcm
              (localDofs (gridView sim)) (clear <$> wells_ m) ∅)
    as (Hn & Hd & _).
  { intros k c idx Hk. rewrite length_fmap. by eapply Hrange. }
  split.
  - rewrite Hn, <- list_fmap_compose. done.
  - intros idx well Hwell.
    assert (Hlt : (idx < length (wells_ m))%nat).
    { apply lookup_lt_Some in Hwell.
      apply (f_equal length) in Hn. rewrite !length_fmap in Hn. lia. }
    destruct (lookup_lt_is_Some_2 _ _ Hlt) as [w Hw].
    destruct (Hd idx (clear w)) as (w' & Hw' & Hdom).
    { by rewrite list_lookup_fmap, Hw. }
    assert (w' = well) as -> by congruence.
    intros g. rewrite Hdom. simpl. rewrite dom_empty_L.
    split; [by intros [[]%elem_of_empty|?]|by right].
Qed.

(** C9.  A topology rebuild removes the registrations of the wells from the
    registry of the model and empties the set of owned DOFs of every well;
    after the walk over the interior elements each well owns exactly the
    local DOFs lying in one of its completions, and the wells the registry
    holds are, once each, exactly the wells that received at least one such
    DOF: a well without local DOF is not registered, whether it was before
    or not.  Nothing else of the registry is affected: the modules that are
    no wells are the same, in the same order. *)
Theorem updateWellTopology_registers_wells_with_dofs (reportStepIdx : Z)
    (wellCompletions : gmap Z (Completion * nat)) (m : EclWellManager) :
  (forall k c idx,
     wellCompletions !! k = Some (c, idx) -> (idx < length (wells_ m))%nat) ->
  let sim := simulator_ m in
  let m' := updateWellTopology_ reportStepIdx wellCompletions m in
  let registry := auxiliaryModules sim in
  let registry' := auxiliaryModules (simulator_ m') in
  (forall idx,
     WellModule idx ∈ registry'
     <-> exists well,
           wells_ m' !! idx = Some well /\ dom (dofVariables well) <> ∅)
  /\ NoDup (filter (fun auxMod => isWellModule auxMod = true) registry')
  /\ filter (fun auxMod => isWellModule auxMod = false) registry'
     = filter (fun auxMod => isWellModule auxMod = false) registry
  /\ (forall idx well,
        wells_ m' !! idx = Some well ->
        forall g, g ∈ dom (dofVariables well)
          <-> g ∈ localDofs (gridView sim)
              /\ completedBy (cartesianCellId sim) wellCompletions g idx)
  /\ length (wells_ m') = length (wells_ m).
Proof.
  intros Hrange sim m' registry registry'.
  destruct (updateWellTopology_wells reportStepIdx wellCompletions m Hrange)
    as (Hnames & Hdofs).
  fold sim m' in Hnames, Hdofs.
  assert (Hlen : length (wells_ m') = length (wells_ m)).
  { apply (f_equal length) in Hnames. by rewrite !length_fmap in Hnames. }
  assert (Hreg : registry'
            = foldl (fun reg eclWell =>
                       addAuxiliaryModule (WellModule eclWell) reg)
                (clearAuxiliaryModules registry)
                (elements
                   (foldl (updateWellTopology_dof (cartesianCellId sim)
                             wellCompletions)
                      (clear <$> wells_ m, ∅) (localDofs (gridView sim))).2)).
  { subst registry' m'. by rewrite updateWellTopology_unfold. }
  destruct (updateWellTopology_dofs (cartesianCellId sim) wellCompletions
              (localDofs (gridView sim)) (clear <$> wells_ m) ∅)
    as (_ & _ & Ht).
  { intros k c idx Hk. rewrite length_fmap. by eapply Hrange. }
  cbn zeta in Ht.
  split_and!; [|rewrite Hreg|rewrite Hreg|done|done].
  - intros idx. rewrite Hreg, addAuxiliaryModules_elem. split.
    + intros [Hold|(idx' & [= <-] & Hidx)].
      { by apply clearAuxiliaryModules_elem in Hold as [_ ?]. }
      apply elem_of_elements, Ht in Hidx as [[]%elem_of_empty|(g & Hg & Hc)].
      assert (Hlt : (idx < length (wells_ m'))%nat).
      { rewrite Hlen. destruct Hc as [c Hc]. by eapply Hrange. }
      destruct (lookup_lt_is_Some_2 _ _ Hlt) as [well Hwell].
      exists well. split; [done|].
      intros Hempty. assert (Hin : g ∈ dom (dofVariables well)).
      { by apply (Hdofs idx well Hwell). }
      rewrite Hempty in Hin. by apply elem_of_empty in Hin.
    + intros (well & Hwell & Hne). right. exists idx.
      split; [done|]. apply elem_of_elements, Ht. right.
      apply set_choose_L in Hne as [g Hg]. exists g.
      by apply (Hdofs idx well Hwell).
  - rewrite addAuxiliaryModules_wells, clearAuxiliaryModules_wells. simpl.
    apply NoDup_fmap_2; [|apply NoDup_elements].
    intros i j [= ->]. done.
  - by rewrite addAuxiliaryModules_others, clearAuxiliaryModules_idemp.
Qed.

(** The rebuild touches neither the index nor the log, and of the simulator
    only the registry. *)
Lemma updateWellTopology_frame step wcm m :
  let m' := updateWellTopology_ step wcm m in
  wellNameToIndex_ m' = wellNameToIndex_ m
  /\ cout m' = cout m
  /\ episodeIndex (simulator_ m') = episodeIndex (simulator_ m)
  /\ gridManager_eclState (simulator_ m') = gridManager_eclState (simulator_ m)
  /\ gridView (simulator_ m') = gridView (simulator_ m)
  /\ cartesianCellId (simulator_ m') = cartesianCellId (simulator_ m).
Proof. intros m'. subst m'. by rewrite updateWellTopology_unfold. Qed.

(** ** The phases of [beginEpisode] *)

Lemma computeWellCompletionsMap_Ok ep m m1 wcm :
  computeWellCompletionsMap_ ep ∅ m = Ok (m1, wcm) ->
  let eclState := gridManager_eclState (simulator_ m) in
  let deckWells := getWells (getSchedule eclState) ep in
  m1 = logUnknown deckWells m
  /\ insertEntries
       (entriesOf (wellNameToIndex_ m) ep (getNX (getEclipseGrid eclState))
          (getNY (getEclipseGrid eclState)) deckWells) ∅ = Ok wcm.
Proof.
  unfold computeWellCompletionsMap_.
  rewrite computeWellCompletionsMap_wells_entries.
  intros (wcm' & Hins & [= <- <-])%bind_Ok. done.
Qed.

Lemma computeWellCompletionsMap_fatal ep m e :
  computeWellCompletionsMap_ ep ∅ m = Err e -> fatal e.
Proof.
  unfold computeWellCompletionsMap_.
  rewrite computeWellCompletionsMap_wells_entries.
  destruct (insertEntries _ _) as [wcm|e'] eqn:Hins; simpl; [done|].
  intros [= <-]. by rewrite (insertEntries_failure _ _ _ Hins).
Qed.

(** The map depends on the manager through its index only. *)
Lemma computeWellCompletionsMap_setup ep m1 m2 m1' wcm :
  sameSetup m1 m2 ->
  computeWellCompletionsMap_ ep ∅ m1 = Ok (m1', wcm) ->
  exists m2', computeWellCompletionsMap_ ep ∅ m2 = Ok (m2', wcm).
Proof.
  intros (_ & Hes & _ & _ & Hidx & _) H1.
  apply computeWellCompletionsMap_Ok in H1 as [_ Hins].
  unfold computeWellCompletionsMap_.
  rewrite computeWellCompletionsMap_wells_entries.
  rewrite <- Hes, <- Hidx, Hins. simpl. by eexists.
Qed.

Lemma entriesOf_index index ep nx ny deckWells k c idx :
  (k, (c, idx)) ∈ entriesOf index ep nx ny deckWells ->
  exists dw, dw ∈ deckWells /\ index !! name dw = Some idx.
Proof.
  unfold entriesOf. intros (dw & Hin & Hdw)%list_elem_of_bind.
  exists dw. split; [done|].
  destruct (index !! name dw) as [idx'|]; [|by apply elem_of_nil in Hin].
  apply list_elem_of_fmap in Hin as (c' & [= _ _ ->] & _). done.
Qed.

Lemma insertEntries_lookup entries map k v :
  insertEntries entries ∅ = Ok map -> map !! k = Some v -> (k, v) ∈ entries.
Proof.
  intros Hins Hk.
  destruct (insertEntries_Ok _ _ _ Hins) as (_ & _ & _ & Hin & Hout).
  destruct (decide (k ∈ entries.*1)) as [Hmem|Hmem].
  - apply list_elem_of_fmap in Hmem as ([k' v'] & -> & Hkv). simpl in *.
    rewrite (Hin _ _ Hkv) in Hk. by injection Hk as ->.
  - rewrite (Hout _ Hmem) in Hk. done.
Qed.

(** On a consistent manager every well of the map is a well of [wells_]. *)
Lemma computeWellCompletionsMap_range ep m m1 wcm :
  manager_wf m ->
  computeWellCompletionsMap_ ep ∅ m = Ok (m1, wcm) ->
  forall k c idx, wcm !! k = Some (c, idx) -> (idx < length (wells_ m))%nat.
Proof.
  intros Hwf Hmap k c idx Hk.
  apply computeWellCompletionsMap_Ok in Hmap as [_ Hins].
  apply (insertEntries_lookup _ _ _ _ Hins) in Hk.
  apply entriesOf_index in Hk as (dw & _ & Hidx).
  destruct (Hwf _ _ Hidx) as (w & Hw & _). by eapply lookup_lt_Some.
Qed.

Lemma updateWellParameters_refDepth_frame deckWells m m' :
  updateWellParameters_refDepth deckWells m = Ok m' ->
  wellNameToIndex_ m' = wellNameToIndex_ m
  /\ simulator_ m' = simulator_ m
  /\ cout m' = cout m
  /\ wellName <$> wells_ m' = wellName <$> wells_ m
  /\ dofVariables <$> wells_ m' = dofVariables <$> wells_ m.
Proof.
  revert m. induction deckWells as [|dw rest IH]; intros m.
  - by intros [= <-].
  - simpl. destruct (getRefDepthDefaulted dw); simpl; [apply IH|].
    destruct (wellIndex m (name dw)) as [idx|]; simpl; [|done].
    intros (-> & -> & -> & -> & ->)%IH. simpl.
    split_and!; try done; by apply fmap_alter_preserve.
Qed.

Lemma updateWellParameters_refDepth_Err deckWells m e :
  updateWellParameters_refDepth deckWells m = Err e ->
  exists n, e = RuntimeError ("No well called '" +:+ n +:+ "'found").
Proof.
  revert m. induction deckWells as [|dw rest IH]; intros m; [done|].
  simpl. destruct (getRefDepthDefaulted dw); simpl; [apply IH|].
  unfold wellIndex. destruct (wellNameToIndex_ m !! name dw); simpl.
  - apply IH.
  - intros [= <-]. by eexists.
Qed.

Lemma updateWellParameters_refDepth_fatal deckWells m e :
  updateWellParameters_refDepth deckWells m = Err e -> fatal e.
Proof.
  revert m. induction deckWells as [|dw rest IH]; intros m; [done|].
  simpl. destruct (getRefDepthDefaulted dw); simpl; [apply IH|].
  unfold wellIndex. destruct (wellNameToIndex_ m !! name dw); simpl.
  - apply IH.
  - by intros [= <-].
Qed.

(** Whether the push of the reference depths fails is decided by the index
    alone. *)
Lemma updateWellParameters_refDepth_index deckWells m1 m2 m1' :
  wellNameToIndex_ m1 = wellNameToIndex_ m2 ->
  updateWellParameters_refDepth deckWells m1 = Ok m1' ->
  exists m2', updateWellParameters_refDepth deckWells m2 = Ok m2'.
Proof.
  revert m1 m2. induction deckWells as [|dw rest IH]; intros m1 m2 Hidx.
  - by eexists.
  - simpl. destruct (getRefDepthDefaulted dw); simpl; [by apply IH|].
    unfold wellIndex. rewrite <- Hidx.
    destruct (wellNameToIndex_ m1 !! name dw); simpl; [|done].
    by apply IH.
Qed.

Lemma updateWellParameters_dofs_preserve {X} (proj : Well -> X) cid wcm dofs
    (wells : list Well) :
  (forall g v w, proj (setRadius g v w) = proj w) ->
  (forall g v w, proj (setConnectionTransmissibilityFactor g v w) = proj w) ->
  proj <$> foldl (updateWellParameters_dof cid wcm) wells dofs
  = proj <$> wells.
Proof.
  intros Hr Hc. revert wells.
  induction dofs as [|g dofs IH]; intros wells; [done|].
  simpl. rewrite IH. unfold updateWellParameters_dof.
  destruct (wcm !! cid g) as [[c idx]|]; [|done].
  destruct (_ && _).
  - rewrite fmap_alter_preserve; [|by intros; apply Hc].
    destruct (getDiameter c); [|done].
    apply fmap_alter_preserve. intros; apply Hr.
  - destruct (getDiameter c); [|done].
    apply fmap_alter_preserve. intros; apply Hr.
Qed.

(** The parameters change neither the index, the simulator, the log, the
    names of the wells nor the DOFs they own. *)
Lemma updateWellParameters_Ok ep wcm m m' :
  updateWellParameters_ ep wcm m = Ok m' ->
  wellNameToIndex_ m' = wellNameToIndex_ m
  /\ simulator_ m' = simulator_ m
  /\ cout m' = cout m
  /\ wellName <$> wells_ m' = wellName <$> wells_ m
  /\ ownedDofs m' = ownedDofs m.
Proof.
  unfold updateWellParameters_.
  intros (m1 & Href & [= <-])%bind_Ok.
  apply updateWellParameters_refDepth_frame in Href
    as (Hi & Hs & Hc & Hn & Hd).
  simpl. rewrite updateWellParameters_walk. unfold ownedDofs. simpl.
  split_and!; try done.
  - by rewrite (updateWellParameters_dofs_preserve wellName).
  - rewrite (updateWellParameters_dofs_preserve
               (fun well => dom (dofVariables well))).
    + change (fun well => dom (dofVariables well))
        with (dom ∘ (@dofVariables TT)).
      by rewrite !list_fmap_compose, Hd.
    + intros. simpl. by rewrite dom_alter_L.
    + intros. simpl. by rewrite dom_alter_L.
Qed.

Lemma updateWellParameters_fatal ep wcm m e :
  updateWellParameters_ ep wcm m = Err e -> fatal e.
Proof.
  unfold updateWellParameters_.
  destruct (updateWellParameters_refDepth _ m) as [m1|e'] eqn:Href; [done|].
  simpl. intros [= <-]. by eapply updateWellParameters_refDepth_fatal.
Qed.

Lemma updateWellParameters_index ep wcm1 wcm2 m1 m2 m1' :
  wellNameToIndex_ m1 = wellNameToIndex_ m2 ->
  gridManager_eclState (simulator_ m1) = gridManager_eclState (simulator_ m2) ->
  updateWellParameters_ ep wcm1 m1 = Ok m1' ->
  exists m2', updateWellParameters_ ep wcm2 m2 = Ok m2'.
Proof.
  intros Hidx Hes. unfold updateWellParameters_. rewrite <- Hes.
  intros (m1'' & Href & _)%bind_Ok.
  destruct (updateWellParameters_refDepth_index _ _ m2 _ Hidx Href)
    as [m2'' ->].
  simpl. by eexists.
Qed.

(** The phases of a call that returns. *)
Lemma beginEpisode_phases eclState wasRestarted m m' :
  beginEpisode eclState wasRestarted m = Ok m' ->
  let ep := episodeIndex (simulator_ m) in
  exists m1 wcm changed m3,
    computeWellCompletionsMap_ ep ∅ m = Ok (m1, wcm)
    /\ (if wasRestarted then Ok true else wellTopologyChanged_ eclState ep)
       = Ok changed
    /\ updateWellParameters_ ep wcm
         (if changed : bool then updateWellTopology_ ep wcm m1 else m1) = Ok m3
    /\ beginEpisode_wells ep (getWells (getSchedule eclState) ep) m3 = Ok m'.
Proof.
  intros H ep. unfold beginEpisode in H. fold ep in H.
  apply bind_Ok in H as ([m1 wcm] & Hmap & H).
  apply bind_Ok in H as (changed & Hch & H).
  apply bind_Ok in H as (m3 & Hpar & H).
  by exists m1, wcm, changed, m3.
Qed.

Lemma logUnknown_sameWells deckWells m : sameWells m (logUnknown deckWells m).
Proof.
  split; [apply logUnknown_index|]. by rewrite logUnknown_wells.
Qed.

Lemma updateWellTopology_sameWells ep wcm m :
  (forall k c idx, wcm !! k = Some (c, idx) -> (idx < length (wells_ m))%nat) ->
  sameWells m (updateWellTopology_ ep wcm m).
Proof.
  intros Hrange. split.
  - apply updateWellTopology_frame.
  - by apply updateWellTopology_wells.
Qed.

(** A call that returns leaves the index and the names of the wells. *)
Lemma beginEpisode_sameWells eclState wasRestarted m m' :
  manager_wf m ->
  beginEpisode eclState wasRestarted m = Ok m' -> sameWells m m'.
Proof.
  intros Hwf (m1 & wcm & changed & m3 & Hmap & _ & Hpar & Hloop)
    %beginEpisode_phases.
  pose proof (computeWellCompletionsMap_range _ _ _ _ Hwf Hmap) as Hrange.
  apply computeWellCompletionsMap_Ok in Hmap as [-> _].
  apply updateWellParameters_Ok in Hpar as (Hi3 & _ & _ & Hn3 & _).
  apply beginEpisode_wells_frame in Hloop as (Hi & _ & _ & Hn & _).
  set (m1 := logUnknown _ m) in *.
  set (m2 := if changed then _ else m1) in *.
  apply (sameWells_trans m m1); [apply logUnknown_sameWells|].
  apply (sameWells_trans m1 m2); [|split; [by rewrite Hi, Hi3|by rewrite Hn, Hn3]].
  subst m2. destruct changed; [|apply sameWells_refl].
  apply updateWellTopology_sameWells. subst m1. by rewrite logUnknown_wells.
Qed.

Lemma beginEpisode_wf eclState wasRestarted m m' :
  manager_wf m ->
  beginEpisode eclState wasRestarted m = Ok m' -> manager_wf m'.
Proof.
  intros Hwf H. eapply manager_wf_same; [|exact Hwf].
  by eapply beginEpisode_sameWells.
Qed.

(** The manager the loop over the deck wells starts from. *)
Lemma beginEpisode_before_loop eclState wasRestarted m :
  manager_wf m ->
  let ep := episodeIndex (simulator_ m) in
  (exists e, beginEpisode eclState wasRestarted m = Err e /\ fatal e)
  \/ exists m3,
       sameWells m m3
       /\ beginEpisode eclState wasRestarted m
          = beginEpisode_wells ep (getWells (getSchedule eclState) ep) m3.
Proof.
  intros Hwf ep. unfold beginEpisode. fold ep.
  destruct (computeWellCompletionsMap_ ep ∅ m) as [[m1 wcm]|e] eqn:Hmap.
  2:{ left. exists e. split; [done|by eapply computeWellCompletionsMap_fatal]. }
  pose proof (computeWellCompletionsMap_range _ _ _ _ Hwf Hmap) as Hrange.
  apply computeWellCompletionsMap_Ok in Hmap as [-> _].
  simpl.
  assert (Hch : exists changed,
            (if wasRestarted then Ok true
             else wellTopologyChanged_ eclState ep) = Ok changed).
  { destruct wasRestarted; [by eexists|apply wellTopologyChanged_total]. }
  destruct Hch as [changed ->]. simpl.
  set (m2 := if changed then _ else _).
  assert (Hm2 : sameWells m m2).
  { eapply sameWells_trans; [apply logUnknown_sameWells|].
    subst m2. destruct changed; [|apply sameWells_refl].
    apply updateWellTopology_sameWells. by rewrite logUnknown_wells. }
  destruct (updateWellParameters_ ep wcm m2) as [m3|e] eqn:Hpar; simpl.
  2:{ left. exists e. split; [done|by eapply updateWellParameters_fatal]. }
  right. exists m3. split; [|done].
  eapply sameWells_trans; [exact Hm2|].
  apply updateWellParameters_Ok in Hpar as (Hi & _ & _ & Hn & _). by split.
Qed.

(** A deck well of the report step that the manager knows and on which the
    loop body fails makes [beginEpisode] fail. *)
Lemma beginEpisode_failed_of_well eclState wasRestarted m dw :
  manager_wf m ->
  let ep := episodeIndex (simulator_ m) in
  dw ∈ getWells (getSchedule eclState) ep ->
  hasWell m (name dw) = true ->
  (forall w, failed (beginEpisode_well ep dw w)) ->
  exists e, beginEpisode eclState wasRestarted m = Err e /\ fatal e.
Proof.
  intros Hwf ep Hin Hhas Hfail.
  destruct (beginEpisode_before_loop eclState wasRestarted m Hwf)
    as [Herr|(m3 & Hsame & ->)]; [done|].
  fold ep.
  assert (Hhas3 : hasWell m3 (name dw) = true).
  { apply hasWell_lookup. destruct Hsame as [-> _].
    by apply hasWell_lookup. }
  destruct (beginEpisode_wells_failed ep _ m3 dw Hin Hhas3 Hfail) as [e He].
  exists e. split; [done|].
  eapply beginEpisode_wells_fatal; [|exact He].
  by eapply manager_wf_same.
Qed.

(** When [beginEpisode] returns, the well a deck well of the report step
    resolves to is a result of the loop body. *)
Lemma beginEpisode_post eclState wasRestarted m m' dw idx :
  beginEpisode eclState wasRestarted m = Ok m' ->
  let ep := episodeIndex (simulator_ m) in
  dw ∈ getWells (getSchedule eclState) ep ->
  wellNameToIndex_ m !! name dw = Some idx ->
  exists dw' w0 w',
    dw' ∈ getWells (getSchedule eclState) ep
    /\ wellNameToIndex_ m !! name dw' = Some idx
    /\ beginEpisode_well ep dw' w0 = Ok w' /\ wells_ m' !! idx = Some w'.
Proof.
  intros (m1 & wcm & changed & m3 & Hmap & _ & Hpar & Hloop)
    %beginEpisode_phases ep Hin Hidx.
  fold ep in Hmap, Hpar, Hloop.
  assert (Hi3 : wellNameToIndex_ m3 = wellNameToIndex_ m).
  { apply updateWellParameters_Ok in Hpar as (-> & _).
    apply computeWellCompletionsMap_Ok in Hmap as [-> _].
    destruct changed.
    - destruct (updateWellTopology_frame ep wcm
                  (logUnknown (getWells
                     (getSchedule (gridManager_eclState (simulator_ m))) ep) m))
        as (-> & _).
      apply logUnknown_index.
    - apply logUnknown_index. }
  rewrite <- Hi3 in Hidx.
  destruct (beginEpisode_wells_post _ _ _ _ _ _ Hloop Hin Hidx)
    as (dw' & w0 & w' & ? & ? & ? & ?).
  exists dw', w0, w'. by rewrite <- Hi3.
Qed.

(** ** [init] builds a consistent manager *)

Lemma init_well_wf m dw : manager_wf m -> manager_wf (init_well m dw).
Proof.
  intros Hwf n idx. unfold init_well. simpl.
  intros [[<- <-]|[Hne Hn]]%lookup_insert_Some.
  - exists (setName (name dw) newWell). split; [|done].
    by rewrite lookup_app_r, Nat.sub_diag.
  - destruct (Hwf _ _ Hn) as (w & Hw & Hname). exists w. split; [|done].
    by apply lookup_app_l_Some.
Qed.

Lemma init_wf eclState m : manager_wf m -> manager_wf (init eclState m).
Proof.
  unfold init. revert m.
  induction (getAllWells (getSchedule eclState)) as [|dw rest IH]; intros m Hwf;
    [done|].
  simpl. apply IH. by apply init_well_wf.
Qed.

Lemma mkEclWellManager_wf simulator : manager_wf (mkEclWellManager simulator).
Proof. intros n idx. simpl. by rewrite lookup_empty. Qed.

Lemma beginEpisode_post_NoDup eclState wasRestarted m m' dw idx :
  manager_wf m ->
  let ep := episodeIndex (simulator_ m) in
  NoDup (name <$> getWells (getSchedule eclState) ep) ->
  beginEpisode eclState wasRestarted m = Ok m' ->
  dw ∈ getWells (getSchedule eclState) ep ->
  wellNameToIndex_ m !! name dw = Some idx ->
  exists w0 w',
    beginEpisode_well ep dw w0 = Ok w' /\ wells_ m' !! idx = Some w'.
Proof.
  intros Hwf ep Hnd Hrun Hin Hidx.
  destruct (beginEpisode_post _ _ _ _ _ _ Hrun Hin Hidx)
    as (dw' & w0 & w' & Hin' & Hidx' & Hstep & Hw').
  assert (dw' = dw) as ->.
  { eapply (NoDup_fmap_elem_inj name); try done.
    by eapply manager_wf_inj. }
  by exists w0, w'.
Qed.

(** ** The claims on [beginEpisode] *)

(** C4. After [beginEpisode] has returned, every well of the report step's
    schedule (that the manager knows) has exactly one of the two flags set in
    the deck and has its type set, to [Injector] or to [Producer]; with
    distinct names in the deck it is the type of the flag.  A call on a
    schedule with a well flagged as both or as neither fails. *)
Theorem beginEpisode_injector_xor_producer (eclState : EclipseState)
    (wasRestarted : bool) (m : EclWellManager) :
  manager_wf m ->
  let ep := episodeIndex (simulator_ m) in
  let deckWells := getWells (getSchedule eclState) ep in
  (forall m' dw idx,
     beginEpisode eclState wasRestarted m = Ok m' ->
     dw ∈ deckWells -> wellNameToIndex_ m !! name dw = Some idx ->
     exists well,
       wells_ m' !! idx = Some well
       /\ (wellType well = Some Injector \/ wellType well = Some Producer)
       /\ isInjector dw ep = negb (isProducer dw ep)
       /\ (NoDup (name <$> deckWells) ->
           wellType well
           = Some (if isInjector dw ep then Injector else Producer)))
  /\ (forall dw,
        dw ∈ deckWells -> hasWell m (name dw) = true ->
        isInjector dw ep = isProducer dw ep ->
        exists e, beginEpisode eclState wasRestarted m = Err e /\ fatal e).
Proof.
  intros Hwf ep deckWells.
  assert (Hfail : forall dw,
            dw ∈ deckWells -> hasWell m (name dw) = true ->
            isInjector dw ep = isProducer dw ep ->
            exists e, beginEpisode eclState wasRestarted m = Err e /\ fatal e).
  { intros dw Hin Hhas Hflags.
    apply (beginEpisode_failed_of_well _ _ _ dw); try done.
    intros w. rewrite beginEpisode_well_flags; [|done]. apply failed_Err. }
  split; [|exact Hfail].
  intros m' dw idx Hrun Hin Hidx.
  destruct (beginEpisode_post _ _ _ _ _ _ Hrun Hin Hidx)
    as (dw' & w0 & w' & Hin' & Hidx' & Hstep & Hw').
  exists w'. split_and!; [done| | |].
  - apply beginEpisode_well_Ok in Hstep as (_ & -> & _).
    destruct (isInjector dw' _); auto.
  - destruct (isInjector dw ep) eqn:Hi, (isProducer dw ep) eqn:Hp; try done.
    + destruct (Hfail dw) as (e & He & _); try congruence.
      apply hasWell_lookup. eauto.
    + destruct (Hfail dw) as (e & He & _); try congruence.
      apply hasWell_lookup. eauto.
  - intros Hnd.
    assert (dw' = dw) as ->.
    { eapply (NoDup_fmap_elem_inj name); try done.
      by eapply manager_wf_inj. }
    by apply beginEpisode_well_Ok in Hstep as (_ & -> & _).
Qed.

(** C5. The resolution of the control mode.  For a producer under ORAT the
    loop body returns a well with type producer, control mode
    [VolumetricSurfaceRate], weights oil 1, gas 0, water 0 and the declared
    oil rate as maximum surface rate; for an injector of GAS under RATE, a
    well with type injector, control mode [VolumetricSurfaceRate] and weights
    oil 0, gas 1, water 0; this for any state the well was in.  Whether the
    body returns, and then the type and control mode it sets, is decided by
    the flags, the control variable and the injected phase alone.  After
    [beginEpisode] the wells of such deck wells are in these states. *)
Theorem beginEpisode_control_mode_resolution (ep : Z) (dw : DeckWell) :
  (isInjector dw ep = false -> isProducer dw ep = true ->
   prod_controlMode (getProductionProperties dw ep) = WellProducer.ORAT ->
   forall w, exists w',
     beginEpisode_well ep dw w = Ok w'
     /\ wellType w' = Some Producer
     /\ controlMode w' = Some VolumetricSurfaceRate
     /\ volumetricPhaseWeights w' = Some (scalar_1, scalar_0, scalar_0)
     /\ maximumSurfaceRate w' = Some (OilRate (getProductionProperties dw ep)))
  /\ (isInjector dw ep = true -> isProducer dw ep = false ->
      inj_controlMode (getInjectionProperties dw ep) = WellInjector.RATE ->
      injectorType (getInjectionProperties dw ep) = WellInjector.GAS ->
      forall w, exists w',
        beginEpisode_well ep dw w = Ok w'
        /\ wellType w' = Some Injector
        /\ controlMode w' = Some VolumetricSurfaceRate
        /\ volumetricPhaseWeights w' = Some (scalar_0, scalar_1, scalar_0))
  /\ (forall ep2 dw2 w w2 w',
        isInjector dw2 ep2 = isInjector dw ep ->
        isProducer dw2 ep2 = isProducer dw ep ->
        injectorType (getInjectionProperties dw2 ep2)
        = injectorType (getInjectionProperties dw ep) ->
        inj_controlMode (getInjectionProperties dw2 ep2)
        = inj_controlMode (getInjectionProperties dw ep) ->
        prod_controlMode (getProductionProperties dw2 ep2)
        = prod_controlMode (getProductionProperties dw ep) ->
        beginEpisode_well ep dw w = Ok w' ->
        exists w2',
          beginEpisode_well ep2 dw2 w2 = Ok w2'
          /\ wellType w2' = wellType w'
          /\ controlMode w2' = controlMode w')
  /\ (forall eclState wasRestarted m m' idx,
        manager_wf m -> ep = episodeIndex (simulator_ m) ->
        NoDup (name <$> getWells (getSchedule eclState) ep) ->
        beginEpisode eclState wasRestarted m = Ok m' ->
        dw ∈ getWells (getSchedule eclState) ep ->
        wellNameToIndex_ m !! name dw = Some idx ->
        exists w',
          wells_ m' !! idx = Some w'
          /\ (isInjector dw ep = false -> isProducer dw ep = true ->
              prod_controlMode (getProductionProperties dw ep)
              = WellProducer.ORAT ->
              wellType w' = Some Producer
              /\ controlMode w' = Some VolumetricSurfaceRate
              /\ volumetricPhaseWeights w'
                 = Some (scalar_1, scalar_0, scalar_0)
              /\ maximumSurfaceRate w'
                 = Some (OilRate (getProductionProperties dw ep)))
          /\ (isInjector dw ep = true -> isProducer dw ep = false ->
              inj_controlMode (getInjectionProperties dw ep)
              = WellInjector.RATE ->
              injectorType (getInjectionProperties dw ep)
              = WellInjector.GAS ->
              wellType w' = Some Injector
              /\ controlMode w' = Some VolumetricSurfaceRate
              /\ volumetricPhaseWeights w'
                 = Some (scalar_0, scalar_1, scalar_0))).
Proof.
  assert (Hprod : isInjector dw ep = false -> isProducer dw ep = true ->
     prod_controlMode (getProductionProperties dw ep) = WellProducer.ORAT ->
     forall w, exists w',
       beginEpisode_well ep dw w = Ok w'
       /\ wellType w' = Some Producer
       /\ controlMode w' = Some VolumetricSurfaceRate
       /\ volumetricPhaseWeights w' = Some (scalar_1, scalar_0, scalar_0)
       /\ maximumSurfaceRate w'
          = Some (OilRate (getProductionProperties dw ep))).
  { intros Hi Hp Hmode w.
    unfold beginEpisode_well, beginEpisode_producer. rewrite Hi, Hp, Hmode.
    simpl. eexists. split; [reflexivity|]. done. }
  assert (Hinj : isInjector dw ep = true -> isProducer dw ep = false ->
     inj_controlMode (getInjectionProperties dw ep) = WellInjector.RATE ->
     injectorType (getInjectionProperties dw ep) = WellInjector.GAS ->
     forall w, exists w',
       beginEpisode_well ep dw w = Ok w'
       /\ wellType w' = Some Injector
       /\ controlMode w' = Some VolumetricSurfaceRate
       /\ volumetricPhaseWeights w' = Some (scalar_0, scalar_1, scalar_0)).
  { intros Hi Hp Hmode Hty w.
    unfold beginEpisode_well, beginEpisode_injector. rewrite Hi, Hp, Hmode, Hty.
    simpl. eexists. split; [reflexivity|]. done. }
  split_and!; [exact Hprod|exact Hinj| |].
  - intros ep2 dw2 w w2 w' Hi Hp Hty Hmi Hmp.
    unfold beginEpisode_well, beginEpisode_injector, beginEpisode_producer.
    rewrite Hi, Hp, Hty, Hmi, Hmp.
    destruct (isInjector dw ep), (isProducer dw ep); simpl; try done.
    + destruct (injectorType _), (inj_controlMode _); simpl; try done;
        intros [= <-]; eexists; (split; [reflexivity|done]).
    + destruct (prod_controlMode _); simpl; try done;
        intros [= <-]; eexists; (split; [reflexivity|done]).
  - intros eclState wasRestarted m m' idx Hwf -> Hnd Hrun Hin Hidx.
    destruct (beginEpisode_post_NoDup _ _ _ _ _ _ Hwf Hnd Hrun Hin Hidx)
      as (w0 & w' & Hstep & Hw').
    exists w'. split_and!; [done| |].
    + intros Hi Hp Hmode.
      destruct (Hprod Hi Hp Hmode w0) as (w'' & Hstep' & ?).
      by assert (w'' = w') as -> by congruence.
    + intros Hi Hp Hmode Hty.
      destruct (Hinj Hi Hp Hmode Hty w0) as (w'' & Hstep' & ?).
      by assert (w'' = w') as -> by congruence.
Qed.

(** The failure of the loop is the failure of the loop body on a deck well
    that the manager knows, applied to the well of that name. *)
Lemma beginEpisode_wells_Err ep deckWells m e :
  manager_wf m -> beginEpisode_wells ep deckWells m = Err e ->
  exists dw well,
    dw ∈ deckWells /\ hasWell m (name dw) = true
    /\ wellName well = name dw /\ beginEpisode_well ep dw well = Err e.
Proof.
  revert m. induction deckWells as [|dw rest IH]; intros m Hwf; [done|].
  destruct (wellNameToIndex_ m !! name dw) as [idx|] eqn:Hidx.
  - rewrite (beginEpisode_wells_known _ _ _ _ _ Hidx).
    destruct (Hwf _ _ Hidx) as (w & Hw & Hname). rewrite Hw.
    destruct (beginEpisode_well ep dw w) as [w'|e'] eqn:Hstep; simpl.
    + intros Hrest. apply IH in Hrest as (dw' & well & ? & Hhas & ? & ?).
      * exists dw', well. split_and!; [by right|exact Hhas|done|done].
      * eapply manager_wf_same; [|exact Hwf]. split; [done|]. simpl.
        apply beginEpisode_well_Ok in Hstep as (_ & _ & _ & Hn & _).
        by eapply fmap_insert_preserve.
    + intros [= <-]. exists dw, w. split_and!; try done; [by left|].
      apply hasWell_lookup. eauto.
  - rewrite (beginEpisode_wells_unknown _ _ _ _ Hidx).
    intros Hrest. apply IH in Hrest as (dw' & well & ? & ? & ? & ?); [|done].
    exists dw', well. split_and!; try done. by right.
Qed.

(** C6. [beginEpisode] fails on every declaration it does not support: with a
    well of the report step (that the manager knows) that is a multi-phase
    injector, an injector or a producer under group control, a producer under
    combined rate, or has an undefined control mode, the call fails.  A
    failure of the call beyond the map of completions and the reference
    depths is the failure of the loop body on such a well, applied to the
    well object of that name; on an undefined control mode the loop body
    fails with the message bearing that name. *)
Theorem beginEpisode_unsupported_fails (eclState : EclipseState)
    (wasRestarted : bool) (m : EclWellManager) :
  manager_wf m ->
  let ep := episodeIndex (simulator_ m) in
  let deckWells := getWells (getSchedule eclState) ep in
  (forall dw,
     dw ∈ deckWells -> hasWell m (name dw) = true -> unsupported ep dw ->
     exists e, beginEpisode eclState wasRestarted m = Err e /\ fatal e)
  /\ (forall e,
        beginEpisode eclState wasRestarted m = Err e ->
        e = AssertionFailed "cartesianIdxToCompletionMap.count(cartIdx) == 0"
        \/ (exists n, e = RuntimeError ("No well called '" +:+ n +:+ "'found"))
        \/ exists dw well,
             dw ∈ deckWells /\ hasWell m (name dw) = true
             /\ wellName well = name dw
             /\ beginEpisode_well ep dw well = Err e)
  /\ (forall dw well,
        wellName well = name dw ->
        (isInjector dw ep = true /\ isProducer dw ep = false
         /\ injectorType (getInjectionProperties dw ep) <> WellInjector.MULTI
         /\ inj_controlMode (getInjectionProperties dw ep)
            = WellInjector.CMODE_UNDEFINED)
        \/ (isInjector dw ep = false /\ isProducer dw ep = true
            /\ prod_controlMode (getProductionProperties dw ep)
               = WellProducer.CMODE_UNDEFINED) ->
        beginEpisode_well ep dw well
        = Err (RuntimeError
                 ("Control mode of well " +:+ name dw +:+ " is undefined."))).
Proof.
  intros Hwf ep deckWells. split_and!.
  - intros dw Hin Hhas Huns.
    apply (beginEpisode_failed_of_well _ _ _ dw); try done.
    intros w. by apply beginEpisode_well_unsupported.
  - intros e. unfold beginEpisode. fold ep deckWells.
    destruct (computeWellCompletionsMap_ ep ∅ m) as [[m1 wcm]|e1] eqn:Hmap;
      simpl.
    2:{ intros [= <-]. left.
        revert Hmap. unfold computeWellCompletionsMap_.
        rewrite computeWellCompletionsMap_wells_entries.
        destruct (insertEntries _ _) as [|e2] eqn:Hins; simpl; [done|].
        intros [= <-]. by eapply insertEntries_failure. }
    pose proof (computeWellCompletionsMap_range _ _ _ _ Hwf Hmap) as Hrange.
    apply computeWellCompletionsMap_Ok in Hmap as [-> _].
    destruct (if wasRestarted then Ok true
              else wellTopologyChanged_ eclState ep) as [changed|e1] eqn:Hch;
      simpl.
    2:{ destruct wasRestarted; [done|].
        destruct (wellTopologyChanged_total eclState ep) as [b Hb].
        congruence. }
    set (m2 := if changed then _ else _).
    assert (Hm2 : sameWells m m2).
    { eapply sameWells_trans; [apply logUnknown_sameWells|].
      subst m2. destruct changed; [|apply sameWells_refl].
      apply updateWellTopology_sameWells. by rewrite logUnknown_wells. }
    destruct (updateWellParameters_ ep wcm m2) as [m3|e3] eqn:Hpar; simpl.
    2:{ intros [= <-]. right. left. revert Hpar.
        unfold updateWellParameters_.
        destruct (updateWellParameters_refDepth _ m2) as [|e4] eqn:Href;
          [done|].
        simpl. intros [= <-]. by eapply updateWellParameters_refDepth_Err. }
    assert (Hm3 : sameWells m m3).
    { eapply sameWells_trans; [exact Hm2|].
      apply updateWellParameters_Ok in Hpar as (Hi & _ & _ & Hn & _).
      by split. }
    intros Hloop. right. right.
    apply beginEpisode_wells_Err in Hloop
      as (dw & well & ? & Hhas & ? & ?); [|by eapply manager_wf_same].
    exists dw, well. split_and!; try done.
    apply hasWell_lookup. destruct Hm3 as [Hi _]. rewrite <- Hi.
    by apply hasWell_lookup.
  - intros dw well Hname [(Hi & Hp & Hty & Hmode)|(Hi & Hp & Hmode)].
    + rewrite <- Hname. by apply beginEpisode_well_undefined_injector.
    + rewrite <- Hname. by apply beginEpisode_well_undefined_producer.
Qed.

(** C10. [beginEpisode] gives a well declared AUTO the runtime status [Open],
    as it does a well declared OPEN; STOP gives [Closed] and SHUT gives
    [Shut]. *)
Theorem beginEpisode_status_of_deck (eclState : EclipseState)
    (wasRestarted : bool) (m m' : EclWellManager) (dw : DeckWell) (idx : nat) :
  manager_wf m ->
  let ep := episodeIndex (simulator_ m) in
  NoDup (name <$> getWells (getSchedule eclState) ep) ->
  beginEpisode eclState wasRestarted m = Ok m' ->
  dw ∈ getWells (getSchedule eclState) ep ->
  wellNameToIndex_ m !! name dw = Some idx ->
  exists well,
    wells_ m' !! idx = Some well
    /\ wellStatus well
       = Some (match getStatus dw ep with
               | WellCommon.AUTO => Open
               | WellCommon.OPEN => Open
               | WellCommon.STOP => Closed
               | WellCommon.SHUT => Shut
               end).
Proof.
  intros Hwf ep Hnd Hrun Hin Hidx.
  destruct (beginEpisode_post_NoDup _ _ _ _ _ _ Hwf Hnd Hrun Hin Hidx)
    as (w0 & w' & Hstep & Hw').
  exists w'. split; [done|].
  by apply beginEpisode_well_Ok in Hstep as (_ & _ & -> & _).
Qed.

(** ** Restart *)

(** Whether the loop over the deck wells returns is decided by the index and
    the number of wells. *)
Lemma beginEpisode_wells_shape ep deckWells m1 m2 m1' :
  wellNameToIndex_ m1 = wellNameToIndex_ m2 ->
  length (wells_ m1) = length (wells_ m2) ->
  beginEpisode_wells ep deckWells m1 = Ok m1' ->
  exists m2', beginEpisode_wells ep deckWells m2 = Ok m2'.
Proof.
  revert m1 m2.
  induction deckWells as [|dw rest IH]; intros m1 m2 Hidx Hlen; [by eexists|].
  destruct (wellNameToIndex_ m1 !! name dw) as [idx|] eqn:Hdw.
  - rewrite (beginEpisode_wells_known _ _ _ m1 _ Hdw).
    rewrite Hidx in Hdw. rewrite (beginEpisode_wells_known _ _ _ m2 _ Hdw).
    destruct (wells_ m1 !! idx) as [w1|] eqn:Hw1; [|done].
    destruct (lookup_lt_is_Some_2 (wells_ m2) idx) as [w2 Hw2].
    { rewrite <- Hlen. by eapply lookup_lt_Some. }
    rewrite Hw2.
    destruct (beginEpisode_well ep dw w1) as [w1'|] eqn:Hstep1; [|done].
    destruct (beginEpisode_well ep dw w2) as [w2'|e2] eqn:Hstep2.
    + simpl. apply IH; simpl; [done|]. by rewrite !length_insert.
    + assert (Hf : failed (beginEpisode_well ep dw w1)).
      { apply (beginEpisode_well_failed_indep ep dw w2). rewrite Hstep2.
        apply failed_Err. }
      rewrite Hstep1 in Hf. by apply not_failed_Ok in Hf.
  - rewrite (beginEpisode_wells_unknown _ _ _ m1 Hdw).
    rewrite Hidx in Hdw. rewrite (beginEpisode_wells_unknown _ _ _ m2 Hdw).
    by apply IH.
Qed.

(** The association a rebuild leaves is decided by the map of completions,
    the grid and the number of wells. *)
Lemma updateWellTopology_owned_setup ep wcm m1 m2 :
  (forall k c idx, wcm !! k = Some (c, idx) -> (idx < length (wells_ m1))%nat) ->
  length (wells_ m1) = length (wells_ m2) ->
  gridView (simulator_ m1) = gridView (simulator_ m2) ->
  cartesianCellId (simulator_ m1) = cartesianCellId (simulator_ m2) ->
  ownedDofs (updateWellTopology_ ep wcm m1)
  = ownedDofs (updateWellTopology_ ep wcm m2).
Proof.
  intros Hrange Hlen Hgrid Hcid.
  destruct (updateWellTopology_wells ep wcm m1 Hrange) as (Hn1 & Hd1).
  destruct (updateWellTopology_wells ep wcm m2) as (Hn2 & Hd2).
  { intros k c idx Hk. rewrite <- Hlen. by eapply Hrange. }
  cbn zeta in *.
  apply (f_equal length) in Hn1, Hn2. rewrite !length_fmap in Hn1, Hn2.
  unfold ownedDofs. apply list_eq. intros idx. rewrite !list_lookup_fmap.
  destruct (wells_ (updateWellTopology_ ep wcm m1) !! idx) as [w1|] eqn:Hw1.
  - destruct (lookup_lt_is_Some_2 (wells_ (updateWellTopology_ ep wcm m2)) idx)
      as [w2 Hw2].
    { apply lookup_lt_Some in Hw1. lia. }
    rewrite Hw2. simpl. f_equal. apply set_eq. intros g.
    rewrite (Hd1 _ _ Hw1), (Hd2 _ _ Hw2), Hgrid, Hcid. done.
  - apply lookup_ge_None in Hw1.
    rewrite (proj2 (lookup_ge_None _ idx)); [done|lia].
Qed.

(** Two calls that rebuild the topology, on managers set up alike: when one
    returns so does the other, with the same association. *)
Lemma beginEpisode_rebuild_setup (eclState : EclipseState) (b1 b2 : bool)
    (m1 m2 m1' : EclWellManager) :
  manager_wf m1 -> sameSetup m1 m2 ->
  let ep := episodeIndex (simulator_ m1) in
  (if b1 then Ok true else wellTopologyChanged_ eclState ep) = Ok true ->
  (if b2 then Ok true else wellTopologyChanged_ eclState ep) = Ok true ->
  beginEpisode eclState b1 m1 = Ok m1' ->
  exists m2', beginEpisode eclState b2 m2 = Ok m2'
              /\ ownedDofs m2' = ownedDofs m1'.
Proof.
  intros Hwf Hsetup ep Hb1 Hb2 Hrun.
  pose proof Hsetup as (Hep & Hes & Hgrid & Hcid & Hidx & Hlen).
  apply beginEpisode_phases in Hrun
    as (m11 & wcm & changed & m13 & Hmap1 & Hch & Hpar1 & Hloop1).
  fold ep in Hmap1, Hch, Hpar1, Hloop1.
  assert (changed = true) as -> by congruence.
  pose proof (computeWellCompletionsMap_range _ _ _ _ Hwf Hmap1) as Hrange.
  destruct (computeWellCompletionsMap_setup _ _ _ _ _ Hsetup Hmap1)
    as [m21 Hmap2].
  apply computeWellCompletionsMap_Ok in Hmap1 as [Hm11 _].
  pose proof Hmap2 as [Hm21 _]%computeWellCompletionsMap_Ok.
  assert (Hown : ownedDofs (updateWellTopology_ ep wcm m11)
                 = ownedDofs (updateWellTopology_ ep wcm m21)).
  { apply updateWellTopology_owned_setup.
    - by rewrite Hm11, logUnknown_wells.
    - by rewrite Hm11, Hm21, !logUnknown_wells.
    - by rewrite Hm11, Hm21, !logUnknown_simulator.
    - by rewrite Hm11, Hm21, !logUnknown_simulator. }
  destruct (updateWellTopology_frame ep wcm m11) as (Hi11 & _ & _ & He11 & _).
  destruct (updateWellTopology_frame ep wcm m21) as (Hi21 & _ & _ & He21 & _).
  cbn zeta in *.
  destruct (updateWellParameters_index ep wcm wcm
              (updateWellTopology_ ep wcm m11)
              (updateWellTopology_ ep wcm m21) m13) as [m23 Hpar2]; [| |done|].
  { by rewrite Hi11, Hi21, Hm11, Hm21, !logUnknown_index. }
  { by rewrite He11, He21, Hm11, Hm21, !logUnknown_simulator. }
  pose proof Hpar1 as (Hi13 & _ & _ & _ & Ho13)%updateWellParameters_Ok.
  pose proof Hpar2 as (Hi23 & _ & _ & _ & Ho23)%updateWellParameters_Ok.
  destruct (beginEpisode_wells_shape ep (getWells (getSchedule eclState) ep)
              m13 m23 m1') as [m2' Hloop2];
    [| |done|].
  { by rewrite Hi13, Hi23, Hi11, Hi21, Hm11, Hm21, !logUnknown_index. }
  { apply (f_equal length) in Ho13, Ho23, Hown. unfold ownedDofs in *.
    rewrite !length_fmap in Ho13, Ho23, Hown. lia. }
  exists m2'. split.
  - unfold beginEpisode. rewrite <- Hep. fold ep. rewrite Hmap2. simpl.
    rewrite Hb2. simpl. rewrite Hpar2. simpl. done.
  - apply beginEpisode_wells_frame in Hloop1 as (_ & _ & _ & _ & Hd1).
    apply beginEpisode_wells_frame in Hloop2 as (_ & _ & _ & _ & Hd2).
    assert (Hdom : forall a b : EclWellManager,
              dofVariables <$> wells_ a = dofVariables <$> wells_ b ->
              ownedDofs a = ownedDofs b).
    { intros a b Hab. unfold ownedDofs.
      change (fun well => dom (dofVariables well))
        with (dom ∘ (@dofVariables TT)).
      by rewrite !list_fmap_compose, Hab. }
    rewrite (Hdom _ _ Hd1), (Hdom _ _ Hd2). congruence.
Qed.

Lemma sameSetup_sym m1 m2 : sameSetup m1 m2 -> sameSetup m2 m1.
Proof. intros (? & ? & ? & ? & ? & ?). by split_and!. Qed.

(** The round trip where the topology is built.  [serialize] writes nothing
    and leaves the manager as it is; [deserialize] is [beginEpisode] on the
    deck of the simulator with [wasRestarted] set.  Its result gives every
    well exactly the local DOFs lying in its completions of the report step,
    whatever the wells owned before; and it is the association of any call
    of [beginEpisode] at that report step that builds the topology (at
    report step 0, under [wasRestarted], or on a change the detector
    reports), on any manager set up alike: the two calls return together and
    leave the same association. *)
Theorem serialize_deserialize_association {Restarter : Type} (res : Restarter)
    (m : EclWellManager) :
  manager_wf m ->
  let eclState := gridManager_eclState (simulator_ m) in
  let ep := episodeIndex (simulator_ m) in
  serialize res m = (res, m)
  /\ deserialize res (serialize res m).2 = beginEpisode eclState true m
  /\ (forall m',
        deserialize res (serialize res m).2 = Ok m' ->
        exists m1 wcm,
          computeWellCompletionsMap_ ep ∅ m = Ok (m1, wcm)
          /\ forall idx well, wells_ m' !! idx = Some well ->
               forall g, g ∈ dom (dofVariables well)
                 <-> g ∈ localDofs (gridView (simulator_ m))
                     /\ completedBy (cartesianCellId (simulator_ m)) wcm g idx)
  /\ (forall fresh wasRestarted,
        manager_wf fresh -> sameSetup m fresh ->
        wasRestarted = true \/ ep = 0
        \/ wellTopologyChanged_ eclState ep = Ok true ->
        (forall m',
           deserialize res (serialize res m).2 = Ok m' ->
           exists fresh',
             beginEpisode eclState wasRestarted fresh = Ok fresh'
             /\ ownedDofs fresh' = ownedDofs m')
        /\ (forall fresh',
              beginEpisode eclState wasRestarted fresh = Ok fresh' ->
              exists m',
                deserialize res (serialize res m).2 = Ok m'
                /\ ownedDofs m' = ownedDofs fresh')).
Proof.
  intros Hwf eclState ep. split_and!; [done|done| |].
  - unfold deserialize, serialize. simpl. fold eclState.
    intros m' (m1 & wcm & changed & m3 & Hmap & [= <-] & Hpar & Hloop)
      %beginEpisode_phases.
    fold ep in Hmap, Hpar, Hloop. exists m1, wcm. split; [done|].
    pose proof (computeWellCompletionsMap_range _ _ _ _ Hwf Hmap) as Hrange.
    apply computeWellCompletionsMap_Ok in Hmap as [-> _].
    destruct (updateWellTopology_wells ep wcm (logUnknown
                (getWells (getSchedule eclState) ep) m)) as (_ & Hd).
    { by rewrite logUnknown_wells. }
    cbn zeta in Hd. rewrite logUnknown_simulator in Hd.
    apply updateWellParameters_Ok in Hpar as (_ & _ & _ & _ & Ho).
    apply beginEpisode_wells_frame in Hloop as (_ & _ & _ & _ & Hdv).
    intros idx well Hwell g.
    assert (Hl : (dofVariables <$> wells_ m') !! idx
                 = Some (dofVariables well)).
    { by rewrite list_lookup_fmap, Hwell. }
    rewrite Hdv, list_lookup_fmap in Hl.
    destruct (wells_ m3 !! idx) as [w3|] eqn:Hw3; [|done].
    injection Hl as Hl. rewrite <- Hl.
    assert (Hl3 : ownedDofs m3 !! idx = Some (dom (dofVariables w3))).
    { unfold ownedDofs. by rewrite list_lookup_fmap, Hw3. }
    rewrite Ho in Hl3. unfold ownedDofs in Hl3.
    rewrite list_lookup_fmap in Hl3.
    destruct (wells_ (updateWellTopology_ _ _ _) !! idx) as [w2|] eqn:Hw2;
      [|done].
    injection Hl3 as Hl3. rewrite <- Hl3. by apply Hd.
  - intros fresh wasRestarted Hwff Hsetup Hbuild.
    unfold deserialize, serialize. simpl. fold eclState.
    assert (Hb : (if wasRestarted then Ok true
                  else wellTopologyChanged_ eclState ep) = Ok true).
    { destruct wasRestarted; [done|].
      destruct Hbuild as [?|[->|?]]; done. }
    split.
    + intros m' Hrun.
      by apply (beginEpisode_rebuild_setup eclState true wasRestarted m fresh).
    + intros fresh' Hrun.
      pose proof Hsetup as (Hep & _).
      apply (beginEpisode_rebuild_setup eclState wasRestarted true fresh m);
        try done.
      * by apply sameSetup_sym.
      * fold ep in Hep. by rewrite <- Hep.
Qed.

(** ** The total rates of a DOF *)

Section TotalRates.
Context {laws : RateVectorLaws TT}.
Variable peacemanRates : Well -> DofContext -> Z -> Z -> RateVector.
Variable context : DofContext.
Variables dofIdx timeIdx : Z.

Lemma rate_add_0_r (q : RateVector) : rate_add q rate_0 = q.
Proof. by rewrite rate_add_comm, rate_add_0_l. Qed.

Lemma sumRates_foldl (wells : list Well) (q : RateVector) :
  foldl (fun q well =>
           rate_add q (contribution peacemanRates context dofIdx timeIdx well))
    q wells
  = rate_add q (sumRates peacemanRates context dofIdx timeIdx wells).
Proof.
  revert q. induction wells as [|w wells IH]; intros q; simpl.
  - by rewrite rate_add_0_r.
  - by rewrite IH, rate_add_assoc.
Qed.

Lemma sumRates_Permutation (wells wells' : list Well) :
  wells ≡ₚ wells' ->
  sumRates peacemanRates context dofIdx timeIdx wells
  = sumRates peacemanRates context dofIdx timeIdx wells'.
Proof.
  unfold sumRates.
  induction 1 as [|w l l' _ IH|w1 w2 l|l1 l2 l3 _ IH1 _ IH2]; simpl.
  - done.
  - by rewrite IH.
  - rewrite <- !rate_add_assoc. f_equal. apply rate_add_comm.
  - by rewrite IH1.
Qed.

Lemma sumRates_not_owned (wells : list Well) :
  (forall well, well ∈ wells ->
     applies well (globalSpaceIndex context dofIdx timeIdx) = false) ->
  sumRates peacemanRates context dofIdx timeIdx wells = rate_0.
Proof.
  unfold sumRates.
  induction wells as [|w wells IH]; intros Hnone; [done|].
  simpl. rewrite IH.
  - unfold contribution, Well_computeTotalRatesForDof.
    rewrite (Hnone w); [|by left]. apply rate_add_0_l.
  - intros well Hwell. apply Hnone. by right.
Qed.

(** C7. [computeTotalRatesForDof] starts from the zero rate vector and adds
    the contribution of every well.  On a DOF that no well owns the result
    is the zero vector; on a DOF that exactly one well owns it is the rate
    of that well; and it is the same for any order of the wells. *)
Theorem computeTotalRatesForDof_sum (m : EclWellManager) :
  let g := globalSpaceIndex context dofIdx timeIdx in
  computeTotalRatesForDof peacemanRates m context dofIdx timeIdx
  = sumRates peacemanRates context dofIdx timeIdx (wells_ m)
  /\ ((forall well, well ∈ wells_ m -> applies well g = false) ->
      computeTotalRatesForDof peacemanRates m context dofIdx timeIdx = rate_0)
  /\ (forall before owner after,
        wells_ m = before ++ owner :: after ->
        applies owner g = true ->
        (forall well, well ∈ before ++ after -> applies well g = false) ->
        computeTotalRatesForDof peacemanRates m context dofIdx timeIdx
        = peacemanRates owner context dofIdx timeIdx)
  /\ (forall m',
        wells_ m' ≡ₚ wells_ m ->
        computeTotalRatesForDof peacemanRates m' context dofIdx timeIdx
        = computeTotalRatesForDof peacemanRates m context dofIdx timeIdx).
Proof.
  intros g.
  assert (Hsum : forall m0,
    computeTotalRatesForDof peacemanRates m0 context dofIdx timeIdx
    = sumRates peacemanRates context dofIdx timeIdx (wells_ m0)).
  { intros m0. unfold computeTotalRatesForDof.
    exact (eq_trans (sumRates_foldl (wells_ m0) rate_0) (rate_add_0_l _)). }
  split_and!.
  - apply Hsum.
  - intros Hnone. rewrite Hsum. by apply sumRates_not_owned.
  - intros before owner after Hwells Howner Hothers.
    rewrite Hsum, Hwells.
    rewrite (sumRates_Permutation _ (owner :: before ++ after)).
    2:{ symmetry. apply Permutation_middle. }
    unfold sumRates. simpl. fold (sumRates peacemanRates context dofIdx timeIdx
                                    (before ++ after)).
    rewrite sumRates_not_owned; [|done].
    rewrite rate_add_0_r. unfold contribution, Well_computeTotalRatesForDof.
    fold g. by rewrite Howner.
  - intros m' Hperm. rewrite !Hsum. by apply sumRates_Permutation.
Qed.

End TotalRates.

(** ** A well of the deck that [init] never created *)

Lemma updateWellParameters_refDepth_unknown deckWells m dw :
  dw ∈ deckWells -> hasWell m (name dw) = false ->
  getRefDepthDefaulted dw = false ->
  failed (updateWellParameters_refDepth deckWells m).
Proof.
  revert m. induction deckWells as [|dw0 rest IH]; intros m Hin Hhas Hdef.
  - by apply elem_of_nil in Hin.
  - simpl. apply elem_of_cons in Hin as [<-|Hin].
    + rewrite Hdef. simpl. apply hasWell_false in Hhas.
      unfold wellIndex. rewrite Hhas. apply failed_Err.
    + destruct (getRefDepthDefaulted dw0); simpl; [by apply IH|].
      destruct (wellIndex m (name dw0)); simpl; [|apply failed_Err].
      by apply IH.
Qed.

(** The push of the reference depths resolves every well of the report step
    with a reference depth of its own, known to the manager or not: a well
    the manager does not know makes [beginEpisode] fail there. *)
Lemma beginEpisode_unknown_refDepth eclState wasRestarted m dw :
  let ep := episodeIndex (simulator_ m) in
  dw ∈ getWells (getSchedule (gridManager_eclState (simulator_ m))) ep ->
  hasWell m (name dw) = false ->
  getRefDepthDefaulted dw = false ->
  failed (beginEpisode eclState wasRestarted m).
Proof.
  intros ep Hin Hhas Hdef. unfold beginEpisode. fold ep.
  destruct (computeWellCompletionsMap_ ep ∅ m) as [[m1 wcm]|e] eqn:Hmap;
    [|apply failed_Err].
  apply computeWellCompletionsMap_Ok in Hmap as [-> _]. simpl.
  destruct (if wasRestarted then _ else _) as [changed|]; [|apply failed_Err].
  simpl. set (m2 := if changed then _ else _).
  assert (Hi : wellNameToIndex_ m2 = wellNameToIndex_ m
               /\ gridManager_eclState (simulator_ m2)
                  = gridManager_eclState (simulator_ m)).
  { subst m2. destruct changed.
    - destruct (updateWellTopology_frame ep wcm
                  (logUnknown (getWells (getSchedule
                     (gridManager_eclState (simulator_ m))) ep) m))
        as (-> & _ & _ & -> & _).
      by rewrite logUnknown_index, logUnknown_simulator.
    - by rewrite logUnknown_index, logUnknown_simulator. }
  destruct Hi as [Hi Hs].
  unfold updateWellParameters_. rewrite Hs.
  destruct (updateWellParameters_refDepth_unknown _ m2 dw Hin) as [e ->];
    [|done|apply failed_Err].
  apply hasWell_false. rewrite Hi. by apply hasWell_false.
Qed.

(** ** Further properties: [init] and the accessors *)

Lemma init_wells_foldl (deckWells : list DeckWell) (m : EclWellManager) :
  wells_ (foldl init_well m deckWells)
  = wells_ m ++ ((fun dw => setName (name dw) newWell) <$> deckWells).
Proof.
  revert m. induction deckWells as [|dw rest IH]; intros m; simpl.
  - by rewrite app_nil_r.
  - rewrite IH. simpl. by rewrite <- app_assoc.
Qed.

Lemma init_index_other (deckWells : list DeckWell) (m : EclWellManager) n :
  n ∉ name <$> deckWells ->
  wellNameToIndex_ (foldl init_well m deckWells) !! n
  = wellNameToIndex_ m !! n.
Proof.
  revert m. induction deckWells as [|dw rest IH]; intros m Hn; [done|].
  simpl in *. apply not_elem_of_cons in Hn as [Hne Hn].
  rewrite IH; [|done]. simpl. by apply lookup_insert_ne.
Qed.

Lemma init_index_at (deckWells : list DeckWell) (m : EclWellManager) i dw :
  NoDup (name <$> deckWells) -> deckWells !! i = Some dw ->
  wellNameToIndex_ (foldl init_well m deckWells) !! name dw
  = Some (length (wells_ m) + i)%nat.
Proof.
  revert m i. induction deckWells as [|d rest IH]; intros m i Hnd Hi; [done|].
  simpl in Hnd. apply NoDup_cons in Hnd as [Hd Hnd].
  destruct i as [|i]; simpl in *.
  - injection Hi as ->. rewrite init_index_other; [|done].
    simpl. rewrite lookup_insert_eq. f_equal. lia.
  - rewrite (IH _ i Hnd Hi). simpl. rewrite length_app. simpl. f_equal. lia.
Qed.

Lemma init_index_known (deckWells : list DeckWell) (m : EclWellManager) n :
  is_Some (wellNameToIndex_ (foldl init_well m deckWells) !! n)
  <-> n ∈ name <$> deckWells \/ is_Some (wellNameToIndex_ m !! n).
Proof.
  revert m. induction deckWells as [|dw rest IH]; intros m; simpl.
  - split; [auto|]. intros [[]%elem_of_nil|?]. done.
  - rewrite IH. simpl. rewrite elem_of_cons.
    destruct (decide (name dw = n)) as [<-|Hne].
    + rewrite lookup_insert_eq. split; [auto|]. intros _. right. by eexists.
    + rewrite lookup_insert_ne; [|done]. split.
      * intros [?|?]; auto.
      * intros [[?|?]|?]; auto. congruence.
Qed.

(** X1. [init] on a manager just constructed creates one well per well of the
    deck, in the order of the deck: a placeholder that has its name and
    nothing else.  [numWells] is the number of wells of the deck, and
    [hasWell] answers true exactly for the names of the deck. *)
Theorem init_creates_placeholders (eclState : EclipseState)
    (simulator : Simulator) :
  let m := init eclState (mkEclWellManager simulator) in
  let deckWells := getAllWells (getSchedule eclState) in
  wells_ m = (fun dw => setName (name dw) newWell) <$> deckWells
  /\ numWells m = length deckWells
  /\ forall n, hasWell m n = true <-> n ∈ name <$> deckWells.
Proof.
  intros m deckWells. subst m. unfold init, numWells. fold deckWells.
  rewrite init_wells_foldl. simpl. split_and!; [done| |].
  - by rewrite length_fmap.
  - intros n. rewrite hasWell_lookup, init_index_known. simpl.
    rewrite lookup_empty. split; [|auto].
    intros [?|[? [=]]]. done.
Qed.

(** X2. After [init] on a deck of wells with distinct names, [wellIndex]
    of the name of the well at position [i] of the deck is [i], and
    [well(name)] is the placeholder of that name. *)
Theorem init_wellIndex_position (eclState : EclipseState)
    (simulator : Simulator) (i : nat) (dw : DeckWell) :
  NoDup (name <$> getAllWells (getSchedule eclState)) ->
  getAllWells (getSchedule eclState) !! i = Some dw ->
  let m := init eclState (mkEclWellManager simulator) in
  wellIndex m (name dw) = Ok i
  /\ well_byName m (name dw) = Ok (setName (name dw) newWell)
  /\ well_byIndex m i = Ok (setName (name dw) newWell).
Proof.
  intros Hnd Hi m.
  assert (Hidx : wellNameToIndex_ m !! name dw = Some i).
  { subst m. unfold init. by rewrite (init_index_at _ _ i dw). }
  assert (Hw : wells_ m !! i = Some (setName (name dw) newWell)).
  { subst m. unfold init. rewrite init_wells_foldl. simpl.
    by rewrite list_lookup_fmap, Hi. }
  unfold well_byName, well_byIndex.
  rewrite (wellIndex_known _ _ _ Hidx). simpl. by rewrite Hw.
Qed.

(** X3. On a manager whose index and wells agree, as [init] builds them and
    [beginEpisode] keeps them, [wellIndex] and [well(name)] succeed exactly
    for the names [hasWell] knows: the index lies below [numWells] and the
    well returned bears the name.  For any other name both throw the runtime
    error that quotes the name. *)
Theorem well_byName_known_or_throws (m : EclWellManager) (n : string) :
  manager_wf m ->
  (hasWell m n = true ->
   exists idx well,
     wellIndex m n = Ok idx /\ (idx < numWells m)%nat
     /\ well_byName m n = Ok well /\ well_byIndex m idx = Ok well
     /\ wellName well = n)
  /\ (hasWell m n = false ->
      wellIndex m n
      = Err (RuntimeError ("No well called '" +:+ n +:+ "'found"))
      /\ well_byName m n
         = Err (RuntimeError ("No well called '" +:+ n +:+ "'found"))).
Proof.
  intros Hwf. split.
  - intros [idx Hidx]%hasWell_lookup.
    destruct (Hwf _ _ Hidx) as (w & Hw & Hname).
    exists idx, w. unfold well_byName, well_byIndex, numWells.
    rewrite (wellIndex_known _ _ _ Hidx). simpl. rewrite Hw.
    split_and!; try done. by eapply lookup_lt_Some.
  - intros Hn%hasWell_false. unfold well_byName, wellIndex. by rewrite Hn.
Qed.

(** ** Further properties: the topology-change detector *)

(** X4. The detector never throws: every read of the previous completion set
    stays within the set, because the read comes after the comparison of the
    two sizes. *)
Theorem wellTopologyChanged_never_throws (eclState : EclipseState)
    (reportStepIdx : Z) :
  wellTopologyChanged_ eclState reportStepIdx = Ok true
  \/ wellTopologyChanged_ eclState reportStepIdx = Ok false.
Proof.
  destruct (wellTopologyChanged_total eclState reportStepIdx) as [[] ->]; auto.
Qed.

Lemma findPrevWell_Some prevWells n p :
  findPrevWell prevWells n = Some p -> p ∈ prevWells /\ name p = n.
Proof.
  induction prevWells as [|q rest IH]; [done|]. simpl.
  destruct (String.eqb_spec (name q) n) as [Heq|Hne].
  - intros [= <-]. split; [by left|done].
  - intros [? ?]%IH. split; [by right|done].
Qed.

Lemma findPrevWell_None prevWells n :
  findPrevWell prevWells n = None <-> n ∉ name <$> prevWells.
Proof.
  induction prevWells as [|q rest IH]; simpl.
  - split; [|done]. intros _ []%elem_of_nil.
  - rewrite not_elem_of_cons.
    destruct (String.eqb_spec (name q) n) as [Heq|Hne].
    + split; [done|]. intros [? _]. congruence.
    + rewrite IH. split; [|tauto]. intros ?. split; [congruence|done].
Qed.

Lemma compareWells_new_name step (curRest prevWells : list DeckWell) c :
  c ∈ curRest -> name c ∉ name <$> prevWells ->
  compareWells step curRest prevWells = Ok true.
Proof.
  induction curRest as [|w rest IH]; intros Hin Hnew.
  - by apply elem_of_nil in Hin.
  - simpl.
    destruct (findPrevWell prevWells (name w)) as [p|] eqn:Hfind; [|done].
    destruct (Nat.eqb_spec (length (getCompletions w step))
                (length (getCompletions p step))) as [Hlen|]; simpl; [|done].
    destruct (compareCompletions_total 0 (getCompletions w step)
                (getCompletions p step)) as [b Hb]; [done|].
    rewrite Hb. simpl. destruct b; [done|].
    apply elem_of_cons in Hin as [->|Hin]; [|by apply IH].
    apply findPrevWell_None in Hnew. congruence.
Qed.

(** X5. After report step 0 the detector answers true when the two report
    steps differ in their number of wells, and when a well of the current
    step has a name that no well of the previous step has. *)
Theorem wellTopologyChanged_new_well (eclState : EclipseState)
    (reportStepIdx : Z) :
  let curDeckWells := getWells (getSchedule eclState) reportStepIdx in
  let prevDeckWells := getWells (getSchedule eclState) (reportStepIdx - 1) in
  length curDeckWells <> length prevDeckWells
  \/ (exists c, c ∈ curDeckWells /\ name c ∉ name <$> prevDeckWells) ->
  wellTopologyChanged_ eclState reportStepIdx = Ok true.
Proof.
  intros cur prev Hdiff. unfold wellTopologyChanged_.
  destruct (reportStepIdx =? 0); [done|]. fold cur prev.
  destruct (Nat.eqb_spec (length cur) (length prev)) as [Hlen|Hlen]; simpl;
    [|done].
  destruct Hdiff as [?|(c & Hc & Hnew)]; [done|].
  by apply (compareWells_new_name _ _ _ c).
Qed.

Lemma compareWells_same_objects step (curRest prevWells : list DeckWell) :
  (forall c p, c ∈ curRest -> p ∈ prevWells -> name p = name c -> p = c) ->
  (forall c, c ∈ curRest -> name c ∈ name <$> prevWells) ->
  compareWells step curRest prevWells = Ok false.
Proof.
  induction curRest as [|w rest IH]; intros Hobj Hnames; [done|].
  simpl.
  destruct (findPrevWell prevWells (name w)) as [p|] eqn:Hfind.
  - apply findPrevWell_Some in Hfind as [Hp Hname].
    assert (p = w) as -> by (apply Hobj; [by left|done|done]).
    rewrite Nat.eqb_refl. simpl.
    pose proof (compareCompletions_self [] (getCompletions w step)) as Hself.
    simpl in Hself. rewrite Hself. simpl.
    apply IH.
    + intros c q Hc. apply Hobj. by right.
    + intros c Hc. apply Hnames. by right.
  - apply findPrevWell_None in Hfind. destruct Hfind. apply Hnames. by left.
Qed.

(** X6. When a well keeps its identity from one report step to the next
    (wells of the two steps with the same name are the same well, as the
    schedule has one well per name), the detector after report step 0 sees
    the set of wells and nothing else: it answers false exactly when the two
    steps have as many wells and every name of the current step is a name of
    the previous step, whatever the completions of either step. *)
Theorem wellTopologyChanged_sees_wells_only (eclState : EclipseState)
    (reportStepIdx : Z) :
  let curDeckWells := getWells (getSchedule eclState) reportStepIdx in
  let prevDeckWells := getWells (getSchedule eclState) (reportStepIdx - 1) in
  reportStepIdx <> 0 ->
  (forall c p, c ∈ curDeckWells -> p ∈ prevDeckWells ->
               name p = name c -> p = c) ->
  (wellTopologyChanged_ eclState reportStepIdx = Ok false
   <-> length curDeckWells = length prevDeckWells
       /\ forall c, c ∈ curDeckWells -> name c ∈ name <$> prevDeckWells).
Proof.
  intros cur prev Hne Hobj. split.
  - unfold wellTopologyChanged_.
    destruct (Z.eqb_spec reportStepIdx 0); [done|]. fold cur prev.
    destruct (Nat.eqb_spec (length cur) (length prev)) as [Hlen|Hlen]; simpl;
      [|done].
    intros Hfalse. split; [done|]. intros c Hc.
    destruct (decide (name c ∈ name <$> prev)) as [|Hnew]; [done|].
    by rewrite (compareWells_new_name _ _ _ c Hc Hnew) in Hfalse.
  - intros [Hlen Hnames]. unfold wellTopologyChanged_.
    destruct (Z.eqb_spec reportStepIdx 0); [done|]. fold cur prev.
    rewrite Hlen, Nat.eqb_refl. simpl. by apply compareWells_same_objects.
Qed.

(** ** Further properties: the map of completions *)

(** X7. Inside the grid ([0 <= i < nx], [0 <= j < ny]) the Cartesian index
    [i + j*nx + k*nx*ny] tells the cells apart: two completions with the same
    index lie in the same cell, so that the assertion of the builder fails
    for a cell claimed twice only. *)
Theorem cartIdxOf_injective (nx ny : Z) (c1 c2 : Completion) :
  0 <= getI c1 < nx -> 0 <= getJ c1 < ny ->
  0 <= getI c2 < nx -> 0 <= getJ c2 < ny ->
  cartIdxOf nx ny c1 = cartIdxOf nx ny c2 ->
  getI c1 = getI c2 /\ getJ c1 = getJ c2 /\ getK c1 = getK c2.
Proof.
  unfold cartIdxOf. intros Hi1 Hj1 Hi2 Hj2 Heq.
  assert (Hi : getI c1 = getI c2).
  { assert (H1 : (getI c1 + (getJ c1 + getK c1 * ny) * nx) mod nx = getI c1).
    { rewrite Z.mod_add by lia. apply Z.mod_small. lia. }
    assert (H2 : (getI c2 + (getJ c2 + getK c2 * ny) * nx) mod nx = getI c2).
    { rewrite Z.mod_add by lia. apply Z.mod_small. lia. }
    rewrite <- H1, <- H2. f_equal. lia. }
  assert (Hjk : getJ c1 + getK c1 * ny = getJ c2 + getK c2 * ny).
  { assert (nx <> 0) by lia. nia. }
  assert (Hj : getJ c1 = getJ c2).
  { assert (H1 : (getJ c1 + getK c1 * ny) mod ny = getJ c1).
    { rewrite Z.mod_add by lia. apply Z.mod_small. lia. }
    assert (H2 : (getJ c2 + getK c2 * ny) mod ny = getJ c2).
    { rewrite Z.mod_add by lia. apply Z.mod_small. lia. }
    rewrite <- H1, <- H2. by rewrite Hjk. }
  split_and!; [done|done|]. assert (ny <> 0) by lia. nia.
Qed.

Lemma entriesOf_elem index ep nx ny (deckWells : list DeckWell) k c idx :
  (k, (c, idx)) ∈ entriesOf index ep nx ny deckWells
  <-> exists dw, dw ∈ deckWells /\ index !! name dw = Some idx
                 /\ c ∈ getCompletions dw ep /\ k = cartIdxOf nx ny c.
Proof.
  unfold entriesOf. rewrite list_elem_of_bind. split.
  - intros (dw & Hin & Hdw). exists dw.
    destruct (index !! name dw) as [idx'|]; [|by apply elem_of_nil in Hin].
    apply list_elem_of_fmap in Hin as (c' & [= -> -> ->] & Hc'). done.
  - intros (dw & Hdw & Hidx & Hc & ->). exists dw. split; [|done].
    rewrite Hidx.
    by apply (list_elem_of_fmap_2
                (fun completion => (cartIdxOf nx ny completion,
                                    (completion, idx)))).
Qed.

Lemma logUnknown_cout (deckWells : list DeckWell) (m : EclWellManager) :
  length (cout (logUnknown deckWells m))
  = (length (cout m)
     + length (filter (fun dw => hasWell m (name dw) = false) deckWells))%nat.
Proof.
  revert m. induction deckWells as [|dw rest IH]; intros m; simpl; [lia|].
  destruct (hasWell m (name dw)) eqn:Hhas; simpl.
  - rewrite filter_cons_False by (by rewrite Hhas). apply IH.
  - rewrite filter_cons_True by done. rewrite IH. simpl. rewrite length_app.
    unfold hasWell. simpl. lia.
Qed.

(** X8. When [computeWellCompletionsMap_] returns, the map holds under a
    Cartesian index a completion and a well exactly when the completion is
    one of a well of the report step that the manager knows, the well is the
    one that name resolves to, and the index is that of the completion's
    cell.  The manager is as before but for the log, which has one more line
    per well of the report step that the manager does not know. *)
Theorem computeWellCompletionsMap_content (reportStepIdx : Z)
    (m m' : EclWellManager) (map : gmap Z (Completion * nat)) :
  computeWellCompletionsMap_ reportStepIdx ∅ m = Ok (m', map) ->
  let eclState := gridManager_eclState (simulator_ m) in
  let nx := getNX (getEclipseGrid eclState) in
  let ny := getNY (getEclipseGrid eclState) in
  let deckWells := getWells (getSchedule eclState) reportStepIdx in
  (forall k c idx,
     map !! k = Some (c, idx)
     <-> exists dw, dw ∈ deckWells /\ wellNameToIndex_ m !! name dw = Some idx
                    /\ c ∈ getCompletions dw reportStepIdx
                    /\ k = cartIdxOf nx ny c)
  /\ wells_ m' = wells_ m
  /\ wellNameToIndex_ m' = wellNameToIndex_ m
  /\ simulator_ m' = simulator_ m
  /\ length (cout m')
     = (length (cout m)
        + length (filter (fun dw => hasWell m (name dw) = false) deckWells))%nat.
Proof.
  intros Hmap eclState nx ny deckWells.
  apply computeWellCompletionsMap_Ok in Hmap as [-> Hins].
  fold eclState nx ny deckWells in Hins |- *.
  split_and!.
  - intros k c idx. rewrite <- entriesOf_elem. split.
    + by apply insertEntries_lookup.
    + intros Hin. by apply (insertEntries_Ok _ _ _ Hins).
  - apply logUnknown_wells.
  - apply logUnknown_index.
  - apply logUnknown_simulator.
  - apply logUnknown_cout.
Qed.

(** ** Further properties: the topology rebuild *)

Lemma updateWellTopology_dofs_clear cid wcm dofs (wells : list Well)
    (touched : gset nat) :
  clear <$> (foldl (updateWellTopology_dof cid wcm) (wells, touched) dofs).1
  = clear <$> wells.
Proof.
  revert wells touched.
  induction dofs as [|g dofs IH]; intros wells touched; [done|].
  simpl. unfold updateWellTopology_dof at 2.
  destruct (wcm !! cid g) as [[c idx]|]; [|apply IH].
  rewrite IH. by apply fmap_alter_preserve.
Qed.

(** X9. A topology rebuild starts from the map of completions and the grid
    and from nothing the wells owned or were registered as before:
    rebuilding twice is rebuilding once. *)
Theorem updateWellTopology_idempotent (reportStepIdx : Z)
    (wellCompletions : gmap Z (Completion * nat)) (m : EclWellManager) :
  updateWellTopology_ reportStepIdx wellCompletions
    (updateWellTopology_ reportStepIdx wellCompletions m)
  = updateWellTopology_ reportStepIdx wellCompletions m.
Proof.
  rewrite (updateWellTopology_unfold _ _ (updateWellTopology_ _ _ m)).
  rewrite !(updateWellTopology_unfold _ _ m). cbn zeta. simpl.
  rewrite updateWellTopology_dofs_clear.
  rewrite <- list_fmap_compose.
  replace (clear ∘ clear) with (@clear TT) by done.
  by rewrite addAuxiliaryModules_others, clearAuxiliaryModules_idemp.
Qed.

(** ** Further properties: the parameters *)

Lemma updateWellParameters_refDepth_failed_iff (deckWells : list DeckWell)
    (m : EclWellManager) :
  failed (updateWellParameters_refDepth deckWells m)
  <-> exists dw, dw ∈ deckWells /\ getRefDepthDefaulted dw = false
                 /\ hasWell m (name dw) = false.
Proof.
  revert m. induction deckWells as [|dw rest IH]; intros m.
  - simpl. split.
    + by intros []%not_failed_Ok.
    + by intros (dw & []%elem_of_nil & _).
  - simpl. destruct (getRefDepthDefaulted dw) eqn:Hdef; simpl.
    + rewrite IH. split.
      * intros (d & ? & ? & ?). exists d. split_and!; try done. by right.
      * intros (d & [->|?]%elem_of_cons & ? & ?); [congruence|].
        by exists d.
    + unfold wellIndex.
      destruct (wellNameToIndex_ m !! name dw) as [idx|] eqn:Hidx; simpl.
      * rewrite IH. split.
        -- intros (d & ? & ? & ?). exists d. split_and!; try done. by right.
        -- intros (d & [->|?]%elem_of_cons & ? & Hhas).
           ++ apply hasWell_false in Hhas. congruence.
           ++ by exists d.
      * split; [|intros _; apply failed_Err]. intros _.
        exists dw. split_and!; [by left|done|by apply hasWell_false].
Qed.

(** X10. [updateWellParameters_] throws exactly when a well of the report
    step has a reference depth of its own and is not known to the manager;
    what it throws is the runtime error of [wellIndex].  The completions and
    the grid never make it fail. *)
Theorem updateWellParameters_fails_iff (reportStepIdx : Z)
    (wellCompletions : gmap Z (Completion * nat)) (m : EclWellManager) :
  let deckWells :=
    getWells (getSchedule (gridManager_eclState (simulator_ m)))
      reportStepIdx in
  (failed (updateWellParameters_ reportStepIdx wellCompletions m)
   <-> exists dw, dw ∈ deckWells /\ getRefDepthDefaulted dw = false
                  /\ hasWell m (name dw) = false)
  /\ forall e,
       updateWellParameters_ reportStepIdx wellCompletions m = Err e ->
       exists n, e = RuntimeError ("No well called '" +:+ n +:+ "'found").
Proof.
  intros deckWells. split.
  - rewrite <- updateWellParameters_refDepth_failed_iff.
    unfold updateWellParameters_. fold deckWells.
    destruct (updateWellParameters_refDepth deckWells m) as [m1|e]; simpl.
    + split; by intros []%not_failed_Ok.
    + split; intros _; apply failed_Err.
  - intros e. unfold updateWellParameters_. fold deckWells.
    destruct (updateWellParameters_refDepth deckWells m) as [m1|e1] eqn:Href;
      simpl; [done|].
    intros [= <-]. by eapply updateWellParameters_refDepth_Err.
Qed.

Lemma completionOverrides_idemp c dv :
  completionOverrides c (completionOverrides c dv) = completionOverrides c dv.
Proof.
  unfold completionOverrides. simpl.
  destruct (getDiameter c), (_ && _); done.
Qed.

(** The two setters of one step of the walk, on the well they are called
    on. *)
Lemma well_overrides (c : Completion) (g0 : Z) (w : Well) :
  let ctf := getConnectionTransmissibilityFactor c in
  let w1 := match getDiameter c with
            | Some d => setRadius g0 (scalar_half d) w
            | None => w
            end in
  (if scalar_isfinite ctf && scalar_gt0 ctf
   then setConnectionTransmissibilityFactor g0 ctf w1 else w1)
  = setDofVariables (alter (completionOverrides c) g0 (dofVariables w)) w.
Proof.
  intros ctf w1. subst w1. destruct w as [? ? ? ? ? ? ? ? ? ? ? dv].
  unfold setConnectionTransmissibilityFactor, setRadius, setDofVariables.
  destruct (getDiameter c) as [d|] eqn:Hd,
    (scalar_isfinite ctf && scalar_gt0 ctf) eqn:Hctf; simpl; f_equal;
    apply map_eq; intros g;
    (destruct (decide (g = g0)) as [->|Hne];
     [rewrite ?lookup_alter_eq|by rewrite ?lookup_alter_ne by done]);
    destruct (dv !! g0) as [[r t]|]; simpl; try done;
    unfold completionOverrides; simpl; fold ctf; by rewrite ?Hd, ?Hctf.
Qed.

Lemma updateWellParameters_dof_alter cid wcm (wells : list Well) g0 c i :
  wcm !! cid g0 = Some (c, i) ->
  updateWellParameters_dof cid wcm wells g0
  = alter (fun w => setDofVariables
                      (alter (completionOverrides c) g0 (dofVariables w)) w)
      i wells.
Proof.
  intros Hg0. unfold updateWellParameters_dof. rewrite Hg0.
  pose proof (well_overrides c g0) as Hw. cbn zeta in Hw.
  destruct (getDiameter c) as [d|],
    (scalar_isfinite _ && scalar_gt0 _).
  - rewrite list_alter_alter_eq. apply list_alter_ext; [|done].
    intros w _. apply Hw.
  - apply list_alter_ext; [|done]. intros w _. apply Hw.
  - apply list_alter_ext; [|done]. intros w _. apply Hw.
  - symmetry. rewrite <- (list_alter_id id wells i) at 2 by done.
    apply list_alter_ext; [|done]. intros w _. symmetry. apply Hw.
Qed.

(** One step of the walk on the variables of the DOFs of one well. *)
Lemma updateWellParameters_dof_lookup cid wcm (wells : list Well) g0 idx w :
  wells !! idx = Some w ->
  exists w',
    updateWellParameters_dof cid wcm wells g0 !! idx = Some w'
    /\ forall g,
         dofVariables w' !! g
         = match wcm !! cid g0 with
           | Some (c, i) =>
               if decide (i = idx /\ g = g0)
               then completionOverrides c <$> dofVariables w !! g
               else dofVariables w !! g
           | None => dofVariables w !! g
           end.
Proof.
  intros Hw.
  destruct (wcm !! cid g0) as [[c i]|] eqn:Hg0.
  2:{ exists w. unfold updateWellParameters_dof. by rewrite Hg0. }
  rewrite (updateWellParameters_dof_alter _ _ _ _ _ _ Hg0).
  destruct (decide (i = idx)) as [->|Hne].
  - eexists. rewrite list_lookup_alter_eq, Hw. split; [reflexivity|].
    intros g. simpl. case_decide as Hd.
    + destruct Hd as [_ ->]. by rewrite lookup_alter_eq.
    + rewrite lookup_alter_ne; [done|]. intros <-. by apply Hd.
  - exists w. rewrite list_lookup_alter_ne by done. split; [done|].
    intros g. rewrite decide_False; [done|]. intros [? _]. done.
Qed.

Lemma updateWellParameters_dofs_lookup cid wcm dofs (wells : list Well) idx w :
  wells !! idx = Some w ->
  exists w',
    foldl (updateWellParameters_dof cid wcm) wells dofs !! idx = Some w'
    /\ forall g,
         dofVariables w' !! g
         = match wcm !! cid g with
           | Some (c, i) =>
               if decide (i = idx /\ g ∈ dofs)
               then completionOverrides c <$> dofVariables w !! g
               else dofVariables w !! g
           | None => dofVariables w !! g
           end.
Proof.
  revert wells w. induction dofs as [|g0 dofs IH]; intros wells w Hw.
  - exists w. split; [done|]. intros g.
    destruct (wcm !! cid g) as [[c i]|]; [|done].
    rewrite decide_False; [done|]. intros [_ []%elem_of_nil].
  - simpl.
    destruct (updateWellParameters_dof_lookup cid wcm wells g0 idx w Hw)
      as (w1 & Hw1 & Hdv1).
    destruct (IH _ _ Hw1) as (w' & Hw' & Hdv').
    exists w'. split; [done|]. intros g. rewrite Hdv', Hdv1.
    destruct (decide (g = g0)) as [->|Hne].
    + destruct (wcm !! cid g0) as [[c i]|]; [|done].
      destruct (decide (i = idx)) as [->|Hi].
      * rewrite (decide_True (P := idx = idx /\ g0 = g0)) by done.
        rewrite (decide_True (P := idx = idx /\ g0 ∈ g0 :: dofs))
          by (split; [done|by left]).
        destruct (decide (idx = idx /\ g0 ∈ dofs)); [|done].
        destruct (dofVariables w !! g0) as [dv|]; [|reflexivity].
        cbn. by rewrite completionOverrides_idemp.
      * rewrite !decide_False; [done| | |]; by intros [? _].
    + assert (Hmem : g ∈ g0 :: dofs <-> g ∈ dofs).
      { rewrite elem_of_cons. tauto. }
      assert (Hsame :
        match wcm !! cid g0 with
        | Some (c, i) =>
            if decide (i = idx /\ g = g0)
            then completionOverrides c <$> dofVariables w !! g
            else dofVariables w !! g
        | None => dofVariables w !! g
        end = dofVariables w !! g).
      { destruct (wcm !! cid g0) as [[c0 i0]|]; [|done].
        rewrite decide_False; [done|]. by intros [_ ?]. }
      rewrite Hsame.
      destruct (wcm !! cid g) as [[c i]|]; [|done].
      destruct (decide (i = idx /\ g ∈ dofs)) as [[? ?]|Hn].
      * rewrite decide_True; [done|]. split; [done|by apply Hmem].
      * rewrite decide_False; [done|]. intros [? ?%Hmem]. by apply Hn.
Qed.

(** X11. What [updateWellParameters_] does to the DOFs.  For a DOF that a
    well owns, that is local and lies in a completion of that well, the
    radius becomes half the diameter of the completion when the deck gives a
    diameter and stays as it was when it gives none; the transmissibility
    factor becomes that of the completion when it is finite and positive and
    stays as it was otherwise.  Every other DOF of the well keeps its
    variables, and no DOF is added or lost. *)
Theorem updateWellParameters_overrides (reportStepIdx : Z)
    (wellCompletions : gmap Z (Completion * nat)) (m m' : EclWellManager)
    (idx : nat) (well : Well) :
  updateWellParameters_ reportStepIdx wellCompletions m = Ok m' ->
  wells_ m !! idx = Some well ->
  let sim := simulator_ m in
  exists well',
    wells_ m' !! idx = Some well'
    /\ (forall g c,
          g ∈ localDofs (gridView sim) ->
          wellCompletions !! cartesianCellId sim g = Some (c, idx) ->
          dofVariables well' !! g
          = completionOverrides c <$> dofVariables well !! g)
    /\ (forall g,
          g ∉ localDofs (gridView sim)
          \/ (forall c, wellCompletions !! cartesianCellId sim g
                        <> Some (c, idx)) ->
          dofVariables well' !! g = dofVariables well !! g).
Proof.
  intros Hrun Hwell sim. unfold updateWellParameters_ in Hrun.
  apply bind_Ok in Hrun as (m1 & Href & [= <-]).
  apply updateWellParameters_refDepth_frame in Href
    as (_ & Hsim & _ & _ & Hdv).
  simpl. rewrite updateWellParameters_walk, Hsim. fold sim.
  assert (Hw1 : exists w1, wells_ m1 !! idx = Some w1
                           /\ dofVariables w1 = dofVariables well).
  { assert (Hl : (dofVariables <$> wells_ m1) !! idx
                 = Some (dofVariables well)).
    { by rewrite Hdv, list_lookup_fmap, Hwell. }
    rewrite list_lookup_fmap in Hl.
    destruct (wells_ m1 !! idx) as [w1|]; [|done].
    exists w1. split; [done|]. by injection Hl. }
  destruct Hw1 as (w1 & Hw1 & Hdv1).
  destruct (updateWellParameters_dofs_lookup (cartesianCellId sim)
              wellCompletions (localDofs (gridView sim)) _ idx w1 Hw1)
    as (w' & Hw' & Hlook).
  exists w'. split; [done|]. rewrite Hdv1 in Hlook. split.
  - intros g c Hg Hc. rewrite Hlook, Hc. by rewrite decide_True.
  - intros g Hout. rewrite Hlook.
    destruct (wellCompletions !! cartesianCellId sim g) as [[c i]|] eqn:Hc;
      [|done].
    rewrite decide_False; [done|]. intros [-> Hg].
    destruct Hout as [?|Hno]; [done|]. by apply (Hno c).
Qed.

(** ** Further properties: what [beginEpisode] keeps *)

Lemma updateWellTopology_clear step wcm m :
  clear <$> wells_ (updateWellTopology_ step wcm m) = clear <$> wells_ m.
Proof.
  rewrite updateWellTopology_unfold. cbn zeta. simpl.
  rewrite updateWellTopology_dofs_clear, <- list_fmap_compose. done.
Qed.

Lemma fmap_clear_proj {X} (proj : Well -> X) (l k : list Well) :
  (forall w, proj (clear w) = proj w) ->
  clear <$> l = clear <$> k -> proj <$> l = proj <$> k.
Proof.
  intros Hproj Heq. apply (f_equal (fmap proj)) in Heq.
  rewrite <- !list_fmap_compose in Heq.
  assert (Hext : forall l0 : list Well, proj ∘ clear <$> l0 = proj <$> l0).
  { intros l0. apply list_fmap_ext. intros i w _. apply Hproj. }
  by rewrite !Hext in Heq.
Qed.

(** X12. A call of [beginEpisode] that returns creates, removes and renames
    no well: the index of names, the number of wells and the name of each
    well are as before, and so are the report step, the deck and the grid
    of the simulator. *)
Theorem beginEpisode_keeps_wells (eclState : EclipseState)
    (wasRestarted : bool) (m m' : EclWellManager) :
  beginEpisode eclState wasRestarted m = Ok m' ->
  wellNameToIndex_ m' = wellNameToIndex_ m
  /\ numWells m' = numWells m
  /\ wellName <$> wells_ m' = wellName <$> wells_ m
  /\ episodeIndex (simulator_ m') = episodeIndex (simulator_ m)
  /\ gridManager_eclState (simulator_ m') = gridManager_eclState (simulator_ m)
  /\ gridView (simulator_ m') = gridView (simulator_ m)
  /\ cartesianCellId (simulator_ m') = cartesianCellId (simulator_ m).
Proof.
  intros (m1 & wcm & changed & m3 & Hmap & _ & Hpar & Hloop)
    %beginEpisode_phases.
  apply computeWellCompletionsMap_Ok in Hmap as [-> _].
  set (m1 := logUnknown _ m) in *.
  apply updateWellParameters_Ok in Hpar as (Hi3 & Hs3 & _ & Hn3 & _).
  apply beginEpisode_wells_frame in Hloop as (Hi & Hs & _ & Hn & _).
  set (m2 := if changed then _ else m1) in *.
  assert (Hm2 : wellNameToIndex_ m2 = wellNameToIndex_ m
                /\ wellName <$> wells_ m2 = wellName <$> wells_ m
                /\ episodeIndex (simulator_ m2) = episodeIndex (simulator_ m)
                /\ gridManager_eclState (simulator_ m2)
                   = gridManager_eclState (simulator_ m)
                /\ gridView (simulator_ m2) = gridView (simulator_ m)
                /\ cartesianCellId (simulator_ m2)
                   = cartesianCellId (simulator_ m)).
  { subst m2. destruct changed.
    - destruct (updateWellTopology_frame (episodeIndex (simulator_ m)) wcm m1)
        as (-> & _ & -> & -> & -> & ->).
      subst m1. rewrite logUnknown_index, logUnknown_simulator.
      split_and!; try done.
      apply (fmap_clear_proj wellName); [done|].
      by rewrite updateWellTopology_clear, logUnknown_wells.
    - subst m1. by rewrite logUnknown_index, logUnknown_simulator,
        logUnknown_wells. }
  destruct Hm2 as (Hi2 & Hn2 & He2 & Hd2 & Hg2 & Hc2).
  unfold numWells.
  assert (Hnames : wellName <$> wells_ m' = wellName <$> wells_ m)
    by congruence.
  split_and!; try congruence.
  apply (f_equal length) in Hnames. by rewrite !length_fmap in Hnames.
Qed.

(** X13. A call of [beginEpisode] that is no restart and for which the
    detector reports no change leaves the association of DOFs to wells and
    the registry of the model as they are. *)
Theorem beginEpisode_without_rebuild (eclState : EclipseState)
    (m m' : EclWellManager) :
  wellTopologyChanged_ eclState (episodeIndex (simulator_ m)) = Ok false ->
  beginEpisode eclState false m = Ok m' ->
  ownedDofs m' = ownedDofs m
  /\ auxiliaryModules (simulator_ m') = auxiliaryModules (simulator_ m).
Proof.
  intros Hsame (m1 & wcm & changed & m3 & Hmap & Hch & Hpar & Hloop)
    %beginEpisode_phases.
  assert (changed = false) as -> by congruence.
  apply computeWellCompletionsMap_Ok in Hmap as [-> _].
  apply updateWellParameters_Ok in Hpar as (_ & Hs3 & _ & _ & Ho3).
  apply beginEpisode_wells_frame in Hloop as (_ & Hs & _ & _ & Hd).
  split.
  - unfold ownedDofs in *.
    change (fun well => dom (dofVariables well))
      with (dom ∘ (@dofVariables TT)) in *.
    rewrite list_fmap_compose, Hd, <- list_fmap_compose, Ho3.
    by rewrite logUnknown_wells.
  - by rewrite Hs, Hs3, logUnknown_simulator.
Qed.

Lemma updateWellParameters_refDepth_untouched (deckWells : list DeckWell)
    (m m' : EclWellManager) idx :
  updateWellParameters_refDepth deckWells m = Ok m' ->
  (forall dw, dw ∈ deckWells -> getRefDepthDefaulted dw = false ->
              wellNameToIndex_ m !! name dw <> Some idx) ->
  wells_ m' !! idx = wells_ m !! idx.
Proof.
  revert m. induction deckWells as [|dw rest IH]; intros m.
  - by intros [= <-].
  - simpl. intros Hrun Hother.
    destruct (getRefDepthDefaulted dw) eqn:Hdef; simpl in Hrun.
    + apply (IH _ Hrun). intros d Hd. apply Hother. by right.
    + unfold wellIndex in Hrun.
      destruct (wellNameToIndex_ m !! name dw) as [i|] eqn:Hi; [|done].
      simpl in Hrun. rewrite (IH _ Hrun); simpl.
      * apply list_lookup_alter_ne. intros ->.
        apply (Hother dw); [by left|done|done].
      * intros d Hd. apply Hother. by right.
Qed.

(** X14. [beginEpisode] overwrites the state of the wells of the report
    step only.  A well that no well of the report step resolves to comes out
    of a call that returns with the status, type, control mode, weights,
    limits and reference depth it went in with, whether or not the topology
    is rebuilt; only its DOFs may differ. *)
Theorem beginEpisode_absent_well_keeps_state (eclState : EclipseState)
    (wasRestarted : bool) (m m' : EclWellManager) (idx : nat) (well : Well) :
  let ep := episodeIndex (simulator_ m) in
  beginEpisode eclState wasRestarted m = Ok m' ->
  wells_ m !! idx = Some well ->
  (forall dw, dw ∈ getWells (getSchedule eclState) ep ->
              wellNameToIndex_ m !! name dw <> Some idx) ->
  (forall dw,
     dw ∈ getWells (getSchedule (gridManager_eclState (simulator_ m))) ep ->
     wellNameToIndex_ m !! name dw <> Some idx) ->
  exists well', wells_ m' !! idx = Some well' /\ clear well' = clear well.
Proof.
  intros ep (m1 & wcm & changed & m3 & Hmap & _ & Hpar & Hloop)
    %beginEpisode_phases Hwell Hdeck Hsim.
  fold ep in Hmap, Hpar, Hloop.
  apply computeWellCompletionsMap_Ok in Hmap as [-> _].
  set (m1 := logUnknown _ m) in *.
  set (m2 := if changed then _ else m1) in *.
  assert (Hm2 : wellNameToIndex_ m2 = wellNameToIndex_ m
                /\ gridManager_eclState (simulator_ m2)
                   = gridManager_eclState (simulator_ m)
                /\ clear <$> wells_ m2 = clear <$> wells_ m).
  { subst m2. destruct changed.
    - destruct (updateWellTopology_frame ep wcm m1) as (-> & _ & _ & -> & _).
      rewrite updateWellTopology_clear. subst m1.
      by rewrite logUnknown_index, logUnknown_simulator, logUnknown_wells.
    - subst m1.
      by rewrite logUnknown_index, logUnknown_simulator, logUnknown_wells. }
  destruct Hm2 as (Hi2 & He2 & Hc2).
  unfold updateWellParameters_ in Hpar.
  apply bind_Ok in Hpar as (m2' & Href & [= <-]).
  rewrite He2 in Href.
  assert (Hw2' : wells_ m2' !! idx = wells_ m2 !! idx).
  { apply (updateWellParameters_refDepth_untouched _ _ _ idx Href).
    intros dw Hdw _. rewrite Hi2. by apply Hsim. }
  pose proof Href as (Hi2' & _)%updateWellParameters_refDepth_frame.
  rewrite (beginEpisode_wells_untouched _ _ _ _ idx Hloop).
  2:{ intros dw Hdw. simpl. rewrite Hi2', Hi2. by apply Hdeck. }
  simpl. rewrite updateWellParameters_walk.
  assert (Hl : (clear <$> foldl
                  (updateWellParameters_dof (cartesianCellId (simulator_ m2'))
                     wcm) (wells_ m2') (localDofs (gridView (simulator_ m2'))))
               !! idx = Some (clear well)).
  { rewrite (updateWellParameters_dofs_preserve clear) by done.
    rewrite list_lookup_fmap, Hw2', <- list_lookup_fmap, Hc2.
    by rewrite list_lookup_fmap, Hwell. }
  rewrite list_lookup_fmap in Hl.
  destruct (foldl _ _ _ !! idx) as [w'|]; [|done].
  exists w'. split; [done|].
  change (Some (clear w') = Some (clear well)) in Hl. by apply (inj Some).
Qed.

(** ** Further properties: the loop body on the limits *)

(** X15. Whatever the deck declares as tubing head pressure limit, the
    target the loop body sets is the constant [1e100] for an injector and
    [-1e100] for a producer; the bottom hole pressure target is the limit
    the deck declares for the injection or for the production. *)
Theorem beginEpisode_well_pressure_targets (ep : Z) (dw : DeckWell)
    (w w' : Well) :
  beginEpisode_well ep dw w = Ok w' ->
  targetTubingHeadPressure w'
  = Some (if isInjector dw ep then scalar_1e100 else scalar_neg_1e100)
  /\ targetBottomHolePressure w'
     = Some (if isInjector dw ep
             then inj_BHPLimit (getInjectionProperties dw ep)
             else prod_BHPLimit (getProductionProperties dw ep)).
Proof.
  unfold beginEpisode_well, beginEpisode_injector, beginEpisode_producer.
  destruct (isInjector dw ep), (isProducer dw ep); simpl; try done.
  - destruct (injectorType _), (inj_controlMode _); simpl; try done;
      by intros [= <-].
  - destruct (prod_controlMode _); simpl; try done; by intros [= <-].
Qed.

(** X16. The rate limits the loop body sets.  An injector gets both limits
    from the deck under every control mode.  A producer never gets a
    maximum reservoir rate nor an injected phase: they stay as they were.
    Its maximum surface rate is the declared rate of the controlled phase
    under ORAT, GRAT, WRAT and LRAT and the declared reservoir rate under
    RESV; under BHP and THP it stays as it was, and so do the weights. *)
Theorem beginEpisode_well_rate_limits (ep : Z) (dw : DeckWell) (w w' : Well) :
  beginEpisode_well ep dw w = Ok w' ->
  (isInjector dw ep = true ->
   maximumSurfaceRate w'
   = Some (surfaceInjectionRate (getInjectionProperties dw ep))
   /\ maximumReservoirRate w'
      = Some (reservoirInjectionRate (getInjectionProperties dw ep)))
  /\ (isInjector dw ep = false ->
      maximumReservoirRate w' = maximumReservoirRate w
      /\ injectedPhaseIndex w' = injectedPhaseIndex w
      /\ match prod_controlMode (getProductionProperties dw ep) with
         | WellProducer.ORAT =>
             maximumSurfaceRate w'
             = Some (OilRate (getProductionProperties dw ep))
         | WellProducer.GRAT =>
             maximumSurfaceRate w'
             = Some (GasRate (getProductionProperties dw ep))
         | WellProducer.WRAT =>
             maximumSurfaceRate w'
             = Some (WaterRate (getProductionProperties dw ep))
         | WellProducer.LRAT =>
             maximumSurfaceRate w'
             = Some (LiquidRate (getProductionProperties dw ep))
         | WellProducer.RESV =>
             maximumSurfaceRate w'
             = Some (ResVRate (getProductionProperties dw ep))
         | _ =>
             maximumSurfaceRate w' = maximumSurfaceRate w
             /\ volumetricPhaseWeights w' = volumetricPhaseWeights w
         end).
Proof.
  unfold beginEpisode_well, beginEpisode_injector, beginEpisode_producer.
  destruct (isInjector dw ep), (isProducer dw ep); simpl; try done.
  - destruct (injectorType _), (inj_controlMode _); simpl; try done;
      intros [= <-]; (split; [done|by intros [=]]).
  - destruct (prod_controlMode _); simpl; try done;
      intros [= <-]; (split; [by intros [=]|]); intros _;
      by destruct (getStatus dw ep).
Qed.

(** ** Further properties: the start of an iteration *)

Lemma beginIteration_elems (acc : Element -> Well -> Well)
    (grid : list Element) (wells : list Well) :
  foldl (beginIteration_elem acc) wells grid
  = (fun w => foldl (fun w elem => acc elem w) w (interiorElements grid))
      <$> wells.
Proof.
  revert wells. induction grid as [|elem grid IH]; intros wells.
  - simpl. by rewrite list_fmap_id.
  - simpl. rewrite IH. unfold beginIteration_elem, interiorElements.
    destruct (decide (partitionType elem = InteriorEntity)) as [Hint|Hext].
    + rewrite filter_cons_True by done. rewrite Hint.
      by rewrite <- list_fmap_compose.
    + rewrite filter_cons_False by done.
      by destruct (partitionType elem).
Qed.

(** X17. [beginIteration] walks the elements in the outer loop and the
    wells in the inner one; for each well this amounts to its
    preprocessing, then its accumulation over the interior elements in the
    order of the grid view, then its postprocessing.  Elements that are not
    interior reach no well, and the wells stay as many, in their order. *)
Theorem beginIteration_per_well (pre : Well -> Well)
    (acc : Element -> Well -> Well) (post : Well -> Well)
    (m : EclWellManager) :
  wells_ (beginIteration pre acc post m)
  = (fun w =>
       post (foldl (fun w elem => acc elem w) (pre w)
               (interiorElements (gridView (simulator_ m)))))
      <$> wells_ m
  /\ numWells (beginIteration pre acc post m) = numWells m
  /\ wellNameToIndex_ (beginIteration pre acc post m) = wellNameToIndex_ m
  /\ simulator_ (beginIteration pre acc post m) = simulator_ m.
Proof.
  unfold beginIteration, numWells. simpl. rewrite beginIteration_elems.
  rewrite <- !list_fmap_compose. split_and!; try done.
  by rewrite length_fmap.
Qed.

(** ** Further properties: the topology after [beginEpisode] *)

Lemma computeWellCompletionsMap_lookup (reportStepIdx : Z)
    (m m' : EclWellManager) (map : gmap Z (Completion * nat)) k c idx :
  computeWellCompletionsMap_ reportStepIdx ∅ m = Ok (m', map) ->
  let eclState := gridManager_eclState (simulator_ m) in
  map !! k = Some (c, idx)
  <-> exists dw,
        dw ∈ getWells (getSchedule eclState) reportStepIdx
        /\ wellNameToIndex_ m !! name dw = Some idx
        /\ c ∈ getCompletions dw reportStepIdx
        /\ k = cartIdxOf (getNX (getEclipseGrid eclState))
                 (getNY (getEclipseGrid eclState)) c.
Proof.
  intros Hmap eclState.
  apply computeWellCompletionsMap_Ok in Hmap as [_ Hins].
  fold eclState in Hins. rewrite <- entriesOf_elem. split.
  - by apply insertEntries_lookup.
  - intros Hin. by apply (insertEntries_Ok _ _ _ Hins).
Qed.

Lemma updateWellTopology_registry step wcm m auxMod :
  (forall k c idx, wcm !! k = Some (c, idx) -> (idx < length (wells_ m))%nat) ->
  auxMod ∈ auxiliaryModules (simulator_ (updateWellTopology_ step wcm m))
  <-> (exists idx g,
         auxMod = WellModule idx
         /\ g ∈ localDofs (gridView (simulator_ m))
         /\ completedBy (cartesianCellId (simulator_ m)) wcm g idx)
      \/ (auxMod ∈ auxiliaryModules (simulator_ m)
          /\ isWellModule auxMod = false).
Proof.
  intros Hrange. rewrite updateWellTopology_unfold. cbn zeta. simpl.
  destruct (updateWellTopology_dofs (cartesianCellId (simulator_ m)) wcm
              (localDofs (gridView (simulator_ m))) (clear <$> wells_ m) ∅)
    as (_ & _ & Ht).
  { intros k c idx Hk. rewrite length_fmap. by eapply Hrange. }
  cbn zeta in Ht.
  rewrite addAuxiliaryModules_elem, clearAuxiliaryModules_elem. split.
  - intros [Hold|(idx & -> & Hidx)]; [by right|]. left.
    apply elem_of_elements, Ht in Hidx as [[]%elem_of_empty|(g & Hg & Hc)].
    by exists idx, g.
  - intros [(idx & g & -> & Hg & Hc)|Hold]; [|by left].
    right. exists idx. split; [done|].
    apply elem_of_elements, Ht. right. by exists g.
Qed.

(** X18. After a call of [beginEpisode] that rebuilds the topology (a
    restart, report step 0 or a change the detector reports), on a manager
    whose index and wells agree: a well owns a DOF exactly when the DOF is
    local and its Cartesian cell is that of a completion, at this report
    step, of a deck well whose name resolves to the well; and the registry of
    the model holds exactly the wells that own a DOF, beside the modules
    that are no wells, which it holds as before. *)
Theorem beginEpisode_rebuild_from_deck (eclState : EclipseState)
    (wasRestarted : bool) (m m' : EclWellManager) :
  manager_wf m ->
  let sim := simulator_ m in
  let ep := episodeIndex sim in
  let deck := gridManager_eclState sim in
  let completes (g : Z) (idx : nat) :=
    g ∈ localDofs (gridView sim)
    /\ exists dw c,
         dw ∈ getWells (getSchedule deck) ep
         /\ wellNameToIndex_ m !! name dw = Some idx
         /\ c ∈ getCompletions dw ep
         /\ cartesianCellId sim g
            = cartIdxOf (getNX (getEclipseGrid deck))
                (getNY (getEclipseGrid deck)) c in
  (if wasRestarted then Ok true else wellTopologyChanged_ eclState ep)
  = Ok true ->
  beginEpisode eclState wasRestarted m = Ok m' ->
  (forall idx well,
     wells_ m' !! idx = Some well ->
     forall g, g ∈ dom (dofVariables well) <-> completes g idx)
  /\ (forall auxMod,
        auxMod ∈ auxiliaryModules (simulator_ m')
        <-> (exists idx g, auxMod = WellModule idx /\ completes g idx)
            \/ (auxMod ∈ auxiliaryModules sim
                /\ isWellModule auxMod = false)).
Proof.
  intros Hwf sim ep deck completes Hb
    (m1 & wcm & changed & m3 & Hmap & Hch & Hpar & Hloop)%beginEpisode_phases.
  fold sim ep in Hmap, Hch, Hpar, Hloop.
  assert (changed = true) as -> by congruence.
  pose proof (computeWellCompletionsMap_range _ _ _ _ Hwf Hmap) as Hrange.
  assert (Hcompl : forall g idx,
            (g ∈ localDofs (gridView sim)
             /\ completedBy (cartesianCellId sim) wcm g idx)
            <-> completes g idx).
  { intros g idx. subst completes. cbn beta. unfold completedBy. split.
    - intros [Hg [c Hc]]. split; [done|].
      apply (computeWellCompletionsMap_lookup _ _ _ _ _ _ _ Hmap) in Hc
        as (dw & ? & ? & ? & ?).
      by exists dw, c.
    - intros [Hg (dw & c & ? & ? & ? & Hkey)]. split; [done|]. exists c.
      apply (computeWellCompletionsMap_lookup _ _ _ _ _ _ _ Hmap).
      by exists dw. }
  apply computeWellCompletionsMap_Ok in Hmap as [-> _].
  set (m1 := logUnknown _ m) in *.
  assert (Hrange1 : forall k c idx,
            wcm !! k = Some (c, idx) -> (idx < length (wells_ m1))%nat).
  { subst m1. by rewrite logUnknown_wells. }
  assert (Hsim1 : simulator_ m1 = sim) by apply logUnknown_simulator.
  apply updateWellParameters_Ok in Hpar as (_ & Hs3 & _ & _ & Ho).
  apply beginEpisode_wells_frame in Hloop as (_ & Hs & _ & _ & Hdv).
  split.
  - destruct (updateWellTopology_wells ep wcm m1 Hrange1) as (_ & Hd).
    cbn zeta in Hd. rewrite Hsim1 in Hd.
    intros idx well Hwell g. rewrite <- Hcompl.
    assert (Hl : ownedDofs m' !! idx = Some (dom (dofVariables well))).
    { unfold ownedDofs. by rewrite list_lookup_fmap, Hwell. }
    assert (Hown : ownedDofs m' = ownedDofs m3).
    { unfold ownedDofs.
      change (fun well => dom (dofVariables well))
        with (dom ∘ (@dofVariables TT)).
      by rewrite !list_fmap_compose, Hdv. }
    rewrite Hown, Ho in Hl. unfold ownedDofs in Hl.
    rewrite list_lookup_fmap in Hl.
    destruct (wells_ (updateWellTopology_ ep wcm m1) !! idx) as [w2|] eqn:Hw2;
      [|done].
    change (Some (dom (dofVariables w2)) = Some (dom (dofVariables well)))
      in Hl.
    apply (inj Some) in Hl. rewrite <- Hl. by apply Hd.
  - intros auxMod. rewrite Hs, Hs3.
    rewrite (updateWellTopology_registry ep wcm m1 auxMod Hrange1), Hsim1.
    split.
    + intros [(idx & g & -> & Hg & Hc)|Hold]; [|by right].
      left. exists idx, g. split; [done|]. by apply Hcompl.
    + intros [(idx & g & -> & Hc)|Hold]; [|by right].
      left. apply Hcompl in Hc as [? ?]. by exists idx, g.
Qed.

(** ** Further properties: when [beginEpisode] returns *)

Lemma updateWellParameters_returns ep wcm m :
  (forall dw,
     dw ∈ getWells (getSchedule (gridManager_eclState (simulator_ m))) ep ->
     getRefDepthDefaulted dw = false -> hasWell m (name dw) = true) ->
  exists m', updateWellParameters_ ep wcm m = Ok m'.
Proof.
  intros Hknown. unfold updateWellParameters_.
  destruct (updateWellParameters_refDepth _ m) as [m1|e] eqn:Href; simpl;
    [by eexists|].
  exfalso.
  assert (Hf : failed (updateWellParameters_refDepth
                  (getWells (getSchedule
                     (gridManager_eclState (simulator_ m))) ep) m))
    by (rewrite Href; apply failed_Err).
  apply updateWellParameters_refDepth_failed_iff in Hf
    as (dw & Hin & Hdef & Hhas).
  rewrite (Hknown dw Hin Hdef) in Hhas. done.
Qed.

Lemma beginEpisode_well_supported ep dw w :
  isInjector dw ep = negb (isProducer dw ep) -> ~ unsupported ep dw ->
  exists w', beginEpisode_well ep dw w = Ok w'.
Proof.
  unfold unsupported, beginEpisode_well, beginEpisode_injector,
    beginEpisode_producer.
  intros Hflags Hsup.
  destruct (isInjector dw ep), (isProducer dw ep); simpl in *; try done.
  - destruct (injectorType _), (inj_controlMode _); simpl;
      try (by eexists); exfalso; apply Hsup; left; auto.
  - destruct (prod_controlMode _); simpl;
      try (by eexists); exfalso; apply Hsup; right; auto.
Qed.

Lemma beginEpisode_wells_returns ep deckWells m :
  manager_wf m ->
  (forall dw, dw ∈ deckWells -> hasWell m (name dw) = true ->
              forall w, exists w', beginEpisode_well ep dw w = Ok w') ->
  exists m', beginEpisode_wells ep deckWells m = Ok m'.
Proof.
  revert m. induction deckWells as [|dw rest IH]; intros m Hwf Hbody;
    [by eexists|].
  destruct (wellNameToIndex_ m !! name dw) as [idx|] eqn:Hidx.
  - rewrite (beginEpisode_wells_known _ _ _ _ _ Hidx).
    destruct (Hwf _ _ Hidx) as (w & Hw & Hname). rewrite Hw.
    destruct (Hbody dw) with (w := w) as [w' Hstep]; [by left| |].
    { apply hasWell_lookup. eauto. }
    rewrite Hstep. simpl. apply IH.
    + eapply manager_wf_same; [|exact Hwf].
      split; [done|]. simpl.
      apply beginEpisode_well_Ok in Hstep as (_ & _ & _ & Hn & _).
      by eapply fmap_insert_preserve.
    + intros d Hd Hhas. apply Hbody; [by right|exact Hhas].
  - rewrite (beginEpisode_wells_unknown _ _ _ _ Hidx). apply IH; [done|].
    intros d Hd. apply Hbody. by right.
Qed.

(** X19. On a manager whose index and wells agree, [beginEpisode] returns
    exactly when: no two completions of the wells of the report step that
    the manager knows lie in one cell; every well of the report step with a
    reference depth of its own is known to the manager; and every well of the
    report step that the manager knows is either an injector or a producer,
    with a declaration the manager supports.  Nothing else (the grid, the
    restart flag, the state of the wells) makes the call fail. *)
Theorem beginEpisode_returns_iff (eclState : EclipseState)
    (wasRestarted : bool) (m : EclWellManager) :
  manager_wf m ->
  let sim := simulator_ m in
  let ep := episodeIndex sim in
  let deck := gridManager_eclState sim in
  (exists m', beginEpisode eclState wasRestarted m = Ok m')
  <-> NoDup (cartIdxOf (getNX (getEclipseGrid deck))
               (getNY (getEclipseGrid deck)) <$> managedCompletions m ep)
      /\ (forall dw,
            dw ∈ getWells (getSchedule deck) ep ->
            getRefDepthDefaulted dw = false -> hasWell m (name dw) = true)
      /\ (forall dw,
            dw ∈ getWells (getSchedule eclState) ep ->
            hasWell m (name dw) = true ->
            isInjector dw ep = negb (isProducer dw ep)
            /\ ~ unsupported ep dw).
Proof.
  intros Hwf sim ep deck.
  pose proof (entriesOf_keys m ep) as Hkeys. cbn zeta in Hkeys.
  fold sim deck in Hkeys. split.
  - intros [m' Hrun]. split_and!.
    + apply beginEpisode_phases in Hrun as (m1 & wcm & _ & _ & Hmap & _).
      apply computeWellCompletionsMap_Ok in Hmap as [_ Hins].
      apply insertEntries_Ok in Hins as [Hnd _].
      rewrite <- Hkeys. exact Hnd.
    + intros dw Hin Hdef.
      destruct (hasWell m (name dw)) eqn:Hhas; [done|]. exfalso.
      destruct (beginEpisode_unknown_refDepth eclState wasRestarted m dw
                  Hin Hhas Hdef) as [e He].
      congruence.
    + intros dw Hin Hhas.
      assert (Hbody : ~ forall w, failed (beginEpisode_well ep dw w)).
      { intros Hfail.
        destruct (beginEpisode_failed_of_well eclState wasRestarted m dw
                    Hwf Hin Hhas Hfail) as (e & He & _).
        congruence. }
      split.
      * destruct (isInjector dw ep) eqn:Hi, (isProducer dw ep) eqn:Hp;
          try done; exfalso; apply Hbody; intros w;
          rewrite beginEpisode_well_flags by congruence; apply failed_Err.
      * intros Hsup. apply Hbody. intros w.
        by apply beginEpisode_well_unsupported.
  - intros (Hnd & Hdepth & Hloop). unfold beginEpisode. fold sim ep deck.
    destruct (computeWellCompletionsMap_ ep ∅ m) as [[m1 wcm]|e] eqn:Hmap.
    2:{ exfalso. revert Hmap. unfold computeWellCompletionsMap_.
        rewrite computeWellCompletionsMap_wells_entries. fold sim deck.
        destruct (insertEntries_NoDup
                    (entriesOf (wellNameToIndex_ m) ep
                       (getNX (getEclipseGrid deck))
                       (getNY (getEclipseGrid deck))
                       (getWells (getSchedule deck) ep)) ∅) as [map' ->];
          [by rewrite Hkeys|done|done]. }
    pose proof (computeWellCompletionsMap_range _ _ _ _ Hwf Hmap) as Hrange.
    apply computeWellCompletionsMap_Ok in Hmap as [-> _]. simpl.
    assert (Hch : exists changed,
              (if wasRestarted then Ok true
               else wellTopologyChanged_ eclState ep) = Ok changed).
    { destruct wasRestarted; [by eexists|apply wellTopologyChanged_total]. }
    destruct Hch as [changed ->]. simpl.
    set (m2 := if changed then _ else _).
    assert (Hm2 : sameWells m m2).
    { eapply sameWells_trans; [apply logUnknown_sameWells|].
      subst m2. destruct changed; [|apply sameWells_refl].
      apply updateWellTopology_sameWells. by rewrite logUnknown_wells. }
    assert (Hdeck2 : gridManager_eclState (simulator_ m2) = deck).
    { subst m2. destruct changed.
      - destruct (updateWellTopology_frame ep wcm
                    (logUnknown (getWells (getSchedule deck) ep) m))
          as (_ & _ & _ & Hd & _).
        etransitivity; [exact Hd|]. by rewrite logUnknown_simulator.
      - by rewrite logUnknown_simulator. }
    destruct (updateWellParameters_returns ep wcm m2) as [m3 Hpar].
    { rewrite Hdeck2. intros dw Hin Hdef.
      apply hasWell_lookup. destruct Hm2 as [-> _].
      apply hasWell_lookup. by apply Hdepth. }
    rewrite Hpar. simpl.
    assert (Hm3 : sameWells m m3).
    { eapply sameWells_trans; [exact Hm2|].
      apply updateWellParameters_Ok in Hpar as (Hi & _ & _ & Hn & _).
      by split. }
    apply beginEpisode_wells_returns.
    + by eapply manager_wf_same.
    + intros dw Hin Hhas w.
      assert (Hhas0 : hasWell m (name dw) = true).
      { apply hasWell_lookup. destruct Hm3 as [<- _].
        by apply hasWell_lookup. }
      destruct (Hloop dw Hin Hhas0) as [Hflags Hsup].
      by apply beginEpisode_well_supported.
Qed.

End Properties.

(** * The properties on the example deck *)

#[local] Existing Instance Demo.exactTypeTag.

Lemma exact_rate_laws : RateVectorLaws Demo.exactTypeTag.
Proof.
  split; simpl; intros.
  - apply Z.add_comm.
  - symmetry. apply Z.add_assoc.
  - apply Z.add_0_l.
Defined.

Lemma managerOf_wf eclState episodeIdx registry :
  manager_wf (Demo.managerOf eclState episodeIdx registry).
Proof. apply init_wf, mkEclWellManager_wf. Defined.

Lemma started_wf : manager_wf Demo.started.
Proof.
  unfold Demo.started.
  destruct (beginEpisode Demo.deck false (Demo.managerAt 0)) eqn:Hrun.
  - eapply beginEpisode_wf; [|exact Hrun]. apply managerOf_wf.
  - apply managerOf_wf.
Defined.

Lemma setSimulator_wf (s : Simulator) (m : EclWellManager) :
  manager_wf m -> manager_wf (setSimulator s m).
Proof. intros Hwf. exact Hwf. Defined.

Lemma continued_wf : manager_wf Demo.continued.
Proof. apply setSimulator_wf, started_wf. Defined.

Ltac decide_by_computation :=
  match goal with
  | |- ?P => apply (bool_decide_unpack P); vm_compute; exact I
  end.

Ltac distinct_names := simpl; decide_by_computation.

(** C1 on the example decks.  The deck adds the completion (0,1,0) to [PROD]
    at report step 1, and the detector answers that nothing changed; so it
    does when a deck moves the completion (1,0,0) from [SRC] to [DST]. *)
Theorem wellTopologyChanged_misses_added_completion :
  (getCompletions Demo.PROD 0 = [Demo.completionAt 1 1 0]
   /\ getCompletions Demo.PROD 1
      = [Demo.completionAt 1 1 0; Demo.completionAt 0 1 0]
   /\ wellTopologyChanged_ Demo.deck 1 = Ok false)
  /\ (getCompletions Demo.SRC 0
      = [Demo.completionAt 0 0 0; Demo.completionAt 1 0 0]
      /\ getCompletions Demo.SRC 1 = [Demo.completionAt 0 0 0]
      /\ getCompletions Demo.DST 0 = [Demo.completionAt 1 1 0]
      /\ getCompletions Demo.DST 1
         = [Demo.completionAt 1 1 0; Demo.completionAt 1 0 0]
      /\ wellTopologyChanged_ Demo.movedDeck 1 = Ok false).
Proof. split_and!; reflexivity. Qed.

(** C2 on the example: the report step lists [INJ], which [init] did not
    create and which has a reference depth of its own; the builder of the
    map logs and skips it, and [beginEpisode] fails where the reference
    depths are pushed.  With a defaulted reference depth the well is
    skipped throughout. *)
Theorem beginEpisode_unknown_well_refDepth_fails :
  hasWell (Demo.managerOf Demo.driftDeck 0 []) "INJ" = false
  /\ (exists m1 map,
        computeWellCompletionsMap_ 0 ∅ (Demo.managerOf Demo.driftDeck 0 [])
        = Ok (m1, map)
        /\ cout m1
           = ["Well 'INJ' suddenly appears in the completions for the report step, but has not been previously specified. Ignoring."])
  /\ beginEpisode Demo.driftDeck false (Demo.managerOf Demo.driftDeck 0 [])
     = Err (RuntimeError "No well called 'INJ'found")
  /\ exists m',
       beginEpisode Demo.driftDeckDefaulted false
         (Demo.managerOf Demo.driftDeckDefaulted 0 []) = Ok m'.
Proof.
  split_and!.
  - vm_compute. reflexivity.
  - eexists _, _. split; vm_compute; reflexivity.
  - vm_compute. reflexivity.
  - eexists. vm_compute. reflexivity.
Qed.

Lemma computeWellCompletionsMap_no_duplicates_witness :
  (exists m' map,
     computeWellCompletionsMap_ 0 ∅ (Demo.managerAt 0) = Ok (m', map))
  /\ computeWellCompletionsMap_ 0 ∅ (Demo.managerOf Demo.clashDeck 0 [])
     = Err (AssertionFailed "cartesianIdxToCompletionMap.count(cartIdx) == 0").
Proof.
  split.
  - apply (computeWellCompletionsMap_no_duplicates (Demo.managerAt 0) 0).
    decide_by_computation.
  - apply (proj2 (proj2 (computeWellCompletionsMap_no_duplicates
                           (Demo.managerOf Demo.clashDeck 0 []) 0))
             0%nat 1%nat (Demo.completionAt 0 0 0)
             (Demo.completionAt 0 0 0)).
    + lia.
    + vm_compute. reflexivity.
    + vm_compute. reflexivity.
    + reflexivity.
Defined.

Lemma beginEpisode_injector_xor_producer_witness :
  (exists well,
     wells_ Demo.started !! 0%nat = Some well
     /\ wellType well = Some Injector)
  /\ exists e,
       beginEpisode Demo.bothDeck false
         (Demo.managerOf Demo.bothDeck 0 []) = Err e
       /\ fatal e.
Proof.
  split.
  - destruct (beginEpisode_injector_xor_producer Demo.deck false
                (Demo.managerAt 0) (managerOf_wf _ _ _)) as [Hset _].
    destruct (Hset Demo.started Demo.INJ 0%nat)
      as (well & Hwell & _ & _ & Htype).
    + vm_compute. reflexivity.
    + simpl. by left.
    + vm_compute. reflexivity.
    + exists well. split; [exact Hwell|]. apply Htype. distinct_names.
  - apply (proj2 (beginEpisode_injector_xor_producer Demo.bothDeck false
                    (Demo.managerOf Demo.bothDeck 0 [])
                    (managerOf_wf _ _ _)) Demo.BOTH).
    + simpl. right. by left.
    + vm_compute. reflexivity.
    + reflexivity.
Defined.

Lemma beginEpisode_control_mode_resolution_witness :
  (exists w',
     beginEpisode_well 0 Demo.PROD newWell = Ok w'
     /\ wellType w' = Some Producer
     /\ controlMode w' = Some VolumetricSurfaceRate
     /\ volumetricPhaseWeights w' = Some (1%Q, 0%Q, 0%Q)
     /\ maximumSurfaceRate w' = Some 50%Q)
  /\ exists w',
       beginEpisode_well 0 Demo.INJ newWell = Ok w'
       /\ wellType w' = Some Injector
       /\ controlMode w' = Some VolumetricSurfaceRate
       /\ volumetricPhaseWeights w' = Some (0%Q, 1%Q, 0%Q).
Proof.
  split.
  - apply (proj1 (beginEpisode_control_mode_resolution 0 Demo.PROD));
      reflexivity.
  - apply (proj1 (proj2 (beginEpisode_control_mode_resolution 0 Demo.INJ)));
      reflexivity.
Defined.

Lemma beginEpisode_unsupported_fails_witness :
  (exists e,
     beginEpisode Demo.multiDeck false
       (Demo.managerOf Demo.multiDeck 0 []) = Err e
     /\ fatal e)
  /\ beginEpisode_well 0 Demo.UNDEF (setName "UNDEF" newWell)
     = Err (RuntimeError "Control mode of well UNDEF is undefined.").
Proof.
  split.
  - apply (proj1 (beginEpisode_unsupported_fails Demo.multiDeck false
                    (Demo.managerOf Demo.multiDeck 0 [])
                    (managerOf_wf _ _ _)) Demo.MULTI).
    + simpl. right. by left.
    + vm_compute. reflexivity.
    + left. split; [reflexivity|]. left. reflexivity.
  - apply (proj2 (proj2 (beginEpisode_unsupported_fails Demo.deck false
                           (Demo.managerAt 0) (managerOf_wf _ _ _)))
             Demo.UNDEF (setName "UNDEF" newWell)).
    + reflexivity.
    + right. split_and!; reflexivity.
Defined.

Lemma started_wells :
  wells_ Demo.started = [Demo.startedWell 0; Demo.startedWell 1].
Proof. vm_compute. reflexivity. Defined.

Lemma computeTotalRatesForDof_sum_witness :
  computeTotalRatesForDof Demo.unitRates Demo.started
    (Demo.contextOf 1) 0 0 = 0
  /\ computeTotalRatesForDof Demo.unitRates Demo.started
       (Demo.contextOf 3) 0 0
     = Demo.unitRates (Demo.startedWell 1) (Demo.contextOf 3) 0 0
  /\ computeTotalRatesForDof Demo.unitRates
       (setWells (reverse (wells_ Demo.started)) Demo.started)
       (Demo.contextOf 3) 0 0
     = computeTotalRatesForDof Demo.unitRates Demo.started
         (Demo.contextOf 3) 0 0.
Proof.
  split_and!.
  - apply (proj1 (proj2 (computeTotalRatesForDof_sum (laws := exact_rate_laws)
                           Demo.unitRates (Demo.contextOf 1) 0 0
                           Demo.started))).
    rewrite started_wells. intros well Hwell.
    apply elem_of_cons in Hwell as [->|Hwell]; [vm_compute; reflexivity|].
    apply list_elem_of_singleton in Hwell as ->. vm_compute. reflexivity.
  - apply (proj1 (proj2 (proj2
             (computeTotalRatesForDof_sum (laws := exact_rate_laws)
                Demo.unitRates (Demo.contextOf 3) 0 0 Demo.started)))
             [Demo.startedWell 0] (Demo.startedWell 1) []).
    + exact started_wells.
    + vm_compute. reflexivity.
    + intros well Hwell. apply list_elem_of_singleton in Hwell as ->.
      vm_compute. reflexivity.
  - apply (proj2 (proj2 (proj2
             (computeTotalRatesForDof_sum (laws := exact_rate_laws)
                Demo.unitRates (Demo.contextOf 3) 0 0 Demo.started)))).
    simpl. apply reverse_Permutation.
Defined.

(** C8 on the example decks.  A run arrives at report step 1, where the deck
    moves the completion (1,0,0) from [SRC] to [DST].  The detector answers
    that nothing changed, so the call of [beginEpisode] at that step leaves
    the DOF of the moved completion with [SRC], whereas serializing and
    deserializing there gives it to [DST].  So it is on the deck that adds
    the completion (0,1,0) to [PROD].  On a deck whose completions never
    change the two agree. *)
Theorem serialize_deserialize_differs_after_missed_change :
  (getCompletions Demo.SRC 1 = [Demo.completionAt 0 0 0]
   /\ getCompletions Demo.DST 1
      = [Demo.completionAt 1 1 0; Demo.completionAt 1 0 0]
   /\ wellTopologyChanged_ Demo.movedDeck 1 = Ok false
   /\ beginEpisode Demo.movedDeck false (Demo.arrivedAt1 Demo.movedDeck)
      = Ok (Demo.resumedOf Demo.movedDeck)
   /\ deserialize tt (serialize tt (Demo.arrivedAt1 Demo.movedDeck)).2
      = Ok (Demo.restartedOf Demo.movedDeck)
   /\ Demo.listedDofs (Demo.resumedOf Demo.movedDeck) = [[1; 0]; [3]]
   /\ Demo.listedDofs (Demo.restartedOf Demo.movedDeck) = [[0]; [3; 1]])
  /\ (wellTopologyChanged_ Demo.deck 1 = Ok false
      /\ beginEpisode Demo.deck false (Demo.arrivedAt1 Demo.deck)
         = Ok (Demo.resumedOf Demo.deck)
      /\ deserialize tt (serialize tt (Demo.arrivedAt1 Demo.deck)).2
         = Ok (Demo.restartedOf Demo.deck)
      /\ Demo.listedDofs (Demo.resumedOf Demo.deck) = [[0]; [3]]
      /\ Demo.listedDofs (Demo.restartedOf Demo.deck) = [[0]; [3; 2]])
  /\ (beginEpisode Demo.steadyDeck false (Demo.arrivedAt1 Demo.steadyDeck)
      = Ok (Demo.resumedOf Demo.steadyDeck)
      /\ deserialize tt (serialize tt (Demo.arrivedAt1 Demo.steadyDeck)).2
         = Ok (Demo.restartedOf Demo.steadyDeck)
      /\ Demo.listedDofs (Demo.resumedOf Demo.steadyDeck) = [[0]]
      /\ Demo.listedDofs (Demo.restartedOf Demo.steadyDeck) = [[0]]).
Proof.
  split_and!; vm_compute; reflexivity.
Qed.

Lemma serialize_deserialize_association_witness :
  deserialize tt (serialize tt Demo.continued).2 = Ok Demo.restarted
  /\ exists fresh',
       beginEpisode Demo.deck true (Demo.managerAt 1) = Ok fresh'
       /\ ownedDofs fresh' = ownedDofs Demo.restarted.
Proof.
  assert (Hrun : deserialize tt (serialize tt Demo.continued).2
                 = Ok Demo.restarted) by (vm_compute; reflexivity).
  split; [exact Hrun|].
  destruct (serialize_deserialize_association tt Demo.continued
              continued_wf) as (_ & _ & _ & Hfresh).
  destruct (Hfresh (Demo.managerAt 1) true) as [Hsame _].
  - apply managerOf_wf.
  - split_and!; reflexivity.
  - by left.
  - apply Hsame. exact Hrun.
Defined.

Lemma updateWellTopology_registers_wells_with_dofs_witness :
  let m := Demo.managerOf Demo.deck 0
             [OtherModule 7; WellModule 1; WellModule 5] in
  let sim := simulator_ m in
  let m' := updateWellTopology_ 0 Demo.completionsMap m in
  let registry := auxiliaryModules sim in
  let registry' := auxiliaryModules (simulator_ m') in
  (forall idx,
     WellModule idx ∈ registry'
     <-> exists well,
           wells_ m' !! idx = Some well /\ dom (dofVariables well) <> ∅)
  /\ NoDup (filter (fun auxMod => isWellModule auxMod = true) registry')
  /\ filter (fun auxMod => isWellModule auxMod = false) registry'
     = filter (fun auxMod => isWellModule auxMod = false) registry
  /\ (forall idx well,
        wells_ m' !! idx = Some well ->
        forall g, g ∈ dom (dofVariables well)
          <-> g ∈ localDofs (gridView sim)
              /\ completedBy (cartesianCellId sim) Demo.completionsMap g idx)
  /\ length (wells_ m') = length (wells_ m).
Proof.
  apply (updateWellTopology_registers_wells_with_dofs 0 Demo.completionsMap
           (Demo.managerOf Demo.deck 0
              [OtherModule 7; WellModule 1; WellModule 5])).
  eapply (computeWellCompletionsMap_range 0
            (Demo.managerOf Demo.deck 0
               [OtherModule 7; WellModule 1; WellModule 5])).
  - apply managerOf_wf.
  - vm_compute. reflexivity.
Defined.

Lemma beginEpisode_status_of_deck_witness :
  getStatus Demo.INJ 0 = WellCommon.AUTO
  /\ exists well,
       wells_ Demo.started !! 0%nat = Some well
       /\ wellStatus well = Some Open.
Proof.
  split; [reflexivity|].
  apply (beginEpisode_status_of_deck Demo.deck false (Demo.managerAt 0)
           Demo.started Demo.INJ 0%nat).
  - apply managerOf_wf.
  - distinct_names.
  - vm_compute. reflexivity.
  - simpl. by left.
  - vm_compute. reflexivity.
Defined.

(** * The further properties on the example decks *)

Ltac each_member :=
  repeat match goal with
    | H : _ ∈ _ :: _ |- _ => apply elem_of_cons in H as [->|H]
    | H : _ ∈ [] |- _ => by apply elem_of_nil in H
    end.

Lemma init_wellIndex_position_witness :
  wellIndex (Demo.managerAt 0) (name Demo.PROD) = Ok 1%nat
  /\ well_byName (Demo.managerAt 0) (name Demo.PROD)
     = Ok (setName (name Demo.PROD) newWell)
  /\ well_byIndex (Demo.managerAt 0) 1
     = Ok (setName (name Demo.PROD) newWell).
Proof.
  apply (init_wellIndex_position Demo.deck (Demo.simulatorAt 0 Demo.deck [])
           1%nat Demo.PROD).
  - distinct_names.
  - reflexivity.
Defined.

Lemma well_byName_known_or_throws_witness :
  (exists idx well,
     wellIndex Demo.started "PROD" = Ok idx
     /\ (idx < numWells Demo.started)%nat
     /\ well_byName Demo.started "PROD" = Ok well
     /\ well_byIndex Demo.started idx = Ok well
     /\ wellName well = "PROD")
  /\ wellIndex Demo.started "NONE"
     = Err (RuntimeError ("No well called '" +:+ "NONE" +:+ "'found")).
Proof.
  split.
  - apply (proj1 (well_byName_known_or_throws Demo.started "PROD"
                    started_wf)).
    vm_compute. reflexivity.
  - apply (proj2 (well_byName_known_or_throws Demo.started "NONE"
                    started_wf)).
    vm_compute. reflexivity.
Defined.

Lemma wellTopologyChanged_new_well_witness :
  wellTopologyChanged_ Demo.growDeck 1 = Ok true.
Proof.
  apply (wellTopologyChanged_new_well Demo.growDeck 1).
  left. vm_compute. discriminate.
Defined.

Lemma wellTopologyChanged_sees_wells_only_witness :
  wellTopologyChanged_ Demo.deck 1 = Ok false
  /\ wellTopologyChanged_ Demo.movedDeck 1 = Ok false.
Proof.
  split.
  - apply (wellTopologyChanged_sees_wells_only Demo.deck 1).
    + discriminate.
    + intros c p Hc Hp Hname. simpl in Hc, Hp. each_member;
        try reflexivity; vm_compute in Hname; discriminate Hname.
    + split; [reflexivity|]. intros c Hc. simpl in Hc. each_member;
        decide_by_computation.
  - apply (wellTopologyChanged_sees_wells_only Demo.movedDeck 1).
    + discriminate.
    + intros c p Hc Hp Hname. simpl in Hc, Hp. each_member;
        try reflexivity; vm_compute in Hname; discriminate Hname.
    + split; [reflexivity|]. intros c Hc. simpl in Hc. each_member;
        decide_by_computation.
Defined.

Lemma cartIdxOf_injective_witness :
  getI (Demo.completionAt 1 0 0) = getI Demo.bareCompletion
  /\ getJ (Demo.completionAt 1 0 0) = getJ Demo.bareCompletion
  /\ getK (Demo.completionAt 1 0 0) = getK Demo.bareCompletion.
Proof.
  apply (cartIdxOf_injective 2 2 (Demo.completionAt 1 0 0)
           Demo.bareCompletion); simpl; try lia.
  reflexivity.
Defined.

Lemma computeWellCompletionsMap_content_witness :
  let m := Demo.managerOf Demo.driftDeckDefaulted 0 [] in
  let eclState := gridManager_eclState (simulator_ m) in
  let nx := getNX (getEclipseGrid eclState) in
  let ny := getNY (getEclipseGrid eclState) in
  let deckWells := getWells (getSchedule eclState) 0 in
  (forall k c idx,
     Demo.driftCompletions.2 !! k = Some (c, idx)
     <-> exists dw, dw ∈ deckWells /\ wellNameToIndex_ m !! name dw = Some idx
                    /\ c ∈ getCompletions dw 0
                    /\ k = cartIdxOf nx ny c)
  /\ wells_ Demo.driftCompletions.1 = wells_ m
  /\ wellNameToIndex_ Demo.driftCompletions.1 = wellNameToIndex_ m
  /\ simulator_ Demo.driftCompletions.1 = simulator_ m
  /\ length (cout Demo.driftCompletions.1)
     = (length (cout m)
        + length (filter (fun dw => hasWell m (name dw) = false) deckWells))%nat.
Proof.
  apply (computeWellCompletionsMap_content 0
           (Demo.managerOf Demo.driftDeckDefaulted 0 [])
           Demo.driftCompletions.1 Demo.driftCompletions.2).
  vm_compute. reflexivity.
Defined.

Lemma updateWellParameters_overrides_witness :
  exists well',
    wells_ Demo.parametrised !! 1%nat = Some well'
    /\ dofVariables well' !! 3
       = completionOverrides (Demo.completionAt 1 1 0)
           <$> dofVariables (Demo.wellOf Demo.rebuilt 1) !! 3
    /\ dofVariables well' !! 0
       = dofVariables (Demo.wellOf Demo.rebuilt 1) !! 0.
Proof.
  destruct (updateWellParameters_overrides 0 Demo.completionsMap
              Demo.rebuilt Demo.parametrised 1%nat
              (Demo.wellOf Demo.rebuilt 1))
    as (well' & Hwell & Hin & Hout).
  - vm_compute. reflexivity.
  - vm_compute. reflexivity.
  - exists well'. split_and!.
    + exact Hwell.
    + apply Hin.
      * decide_by_computation.
      * vm_compute. reflexivity.
    + apply Hout. right. intros c. vm_compute. discriminate.
Defined.

Lemma beginEpisode_keeps_wells_witness :
  wellNameToIndex_ Demo.started = wellNameToIndex_ (Demo.managerAt 0)
  /\ numWells Demo.started = numWells (Demo.managerAt 0)
  /\ wellName <$> wells_ Demo.started
     = wellName <$> wells_ (Demo.managerAt 0)
  /\ episodeIndex (simulator_ Demo.started)
     = episodeIndex (simulator_ (Demo.managerAt 0))
  /\ gridManager_eclState (simulator_ Demo.started)
     = gridManager_eclState (simulator_ (Demo.managerAt 0))
  /\ gridView (simulator_ Demo.started)
     = gridView (simulator_ (Demo.managerAt 0))
  /\ cartesianCellId (simulator_ Demo.started)
     = cartesianCellId (simulator_ (Demo.managerAt 0)).
Proof.
  apply (beginEpisode_keeps_wells Demo.deck false (Demo.managerAt 0)
           Demo.started).
  vm_compute. reflexivity.
Defined.

Lemma beginEpisode_without_rebuild_witness :
  ownedDofs Demo.resumed = ownedDofs Demo.continued
  /\ auxiliaryModules (simulator_ Demo.resumed)
     = auxiliaryModules (simulator_ Demo.continued).
Proof.
  apply (beginEpisode_without_rebuild Demo.deck Demo.continued Demo.resumed).
  - vm_compute. reflexivity.
  - vm_compute. reflexivity.
Defined.

Lemma beginEpisode_absent_well_keeps_state_witness :
  exists well',
    wells_ Demo.shrunkEnd !! 1%nat = Some well'
    /\ clear well' = clear (Demo.wellOf Demo.shrunkNext 1).
Proof.
  apply (beginEpisode_absent_well_keeps_state Demo.shrinkDeck false
           Demo.shrunkNext Demo.shrunkEnd 1%nat
           (Demo.wellOf Demo.shrunkNext 1)).
  - vm_compute. reflexivity.
  - vm_compute. reflexivity.
  - apply Forall_forall. decide_by_computation.
  - apply Forall_forall. decide_by_computation.
Defined.

Lemma beginEpisode_well_pressure_targets_witness :
  targetTubingHeadPressure Demo.producerState
  = Some (if isInjector Demo.PROD 0 then scalar_1e100 else scalar_neg_1e100)
  /\ targetBottomHolePressure Demo.producerState
     = Some (if isInjector Demo.PROD 0
             then inj_BHPLimit (getInjectionProperties Demo.PROD 0)
             else prod_BHPLimit (getProductionProperties Demo.PROD 0)).
Proof.
  apply (beginEpisode_well_pressure_targets 0 Demo.PROD newWell
           Demo.producerState).
  vm_compute. reflexivity.
Defined.

Lemma beginEpisode_well_rate_limits_witness :
  maximumReservoirRate Demo.bhpState
  = maximumReservoirRate (Demo.startedWell 1)
  /\ injectedPhaseIndex Demo.bhpState
     = injectedPhaseIndex (Demo.startedWell 1)
  /\ maximumSurfaceRate Demo.bhpState
     = maximumSurfaceRate (Demo.startedWell 1)
  /\ volumetricPhaseWeights Demo.bhpState
     = volumetricPhaseWeights (Demo.startedWell 1).
Proof.
  destruct (beginEpisode_well_rate_limits 0 Demo.CLASH (Demo.startedWell 1)
              Demo.bhpState) as [_ Hproducer].
  - vm_compute. reflexivity.
  - apply (Hproducer eq_refl).
Defined.

Lemma beginEpisode_rebuild_from_deck_witness :
  let sim := simulator_ (Demo.managerAt 0) in
  let ep := episodeIndex sim in
  let deck := gridManager_eclState sim in
  let completes (g : Z) (idx : nat) :=
    g ∈ localDofs (gridView sim)
    /\ exists dw c,
         dw ∈ getWells (getSchedule deck) ep
         /\ wellNameToIndex_ (Demo.managerAt 0) !! name dw = Some idx
         /\ c ∈ getCompletions dw ep
         /\ cartesianCellId sim g
            = cartIdxOf (getNX (getEclipseGrid deck))
                (getNY (getEclipseGrid deck)) c in
  (forall idx well,
     wells_ Demo.started !! idx = Some well ->
     forall g, g ∈ dom (dofVariables well) <-> completes g idx)
  /\ (forall auxMod,
        auxMod ∈ auxiliaryModules (simulator_ Demo.started)
        <-> (exists idx g, auxMod = WellModule idx /\ completes g idx)
            \/ (auxMod ∈ auxiliaryModules sim
                /\ isWellModule auxMod = false)).
Proof.
  apply (beginEpisode_rebuild_from_deck Demo.deck false (Demo.managerAt 0)
           Demo.started).
  - apply managerOf_wf.
  - vm_compute. reflexivity.
  - vm_compute. reflexivity.
Defined.

Lemma beginEpisode_returns_iff_witness :
  let sim := simulator_ (Demo.managerAt 0) in
  let ep := episodeIndex sim in
  let deck := gridManager_eclState sim in
  NoDup (cartIdxOf (getNX (getEclipseGrid deck))
           (getNY (getEclipseGrid deck))
           <$> managedCompletions (Demo.managerAt 0) ep)
  /\ (forall dw,
        dw ∈ getWells (getSchedule deck) ep ->
        getRefDepthDefaulted dw = false ->
        hasWell (Demo.managerAt 0) (name dw) = true)
  /\ (forall dw,
        dw ∈ getWells (getSchedule Demo.deck) ep ->
        hasWell (Demo.managerAt 0) (name dw) = true ->
        isInjector dw ep = negb (isProducer dw ep)
        /\ ~ unsupported ep dw).
Proof.
  apply (proj1 (beginEpisode_returns_iff Demo.deck false (Demo.managerAt 0)
                  (managerOf_wf _ _ _))).
  exists Demo.started. vm_compute. reflexivity.
Defined.

Lemma updateWellParameters_fails_iff_witness :
  failed (updateWellParameters_ 0 ∅ (Demo.managerOf Demo.driftDeck 0 []))
  /\ exists n,
       RuntimeError ("No well called '" +:+ "INJ" +:+ "'found")
       = RuntimeError ("No well called '" +:+ n +:+ "'found").
Proof.
  split.
  - apply (proj2 (proj1 (updateWellParameters_fails_iff 0 ∅
                           (Demo.managerOf Demo.driftDeck 0 [])))).
    exists Demo.INJ. split_and!.
    + simpl. by left.
    + reflexivity.
    + vm_compute. reflexivity.
  - apply (proj2 (updateWellParameters_fails_iff 0 ∅
                    (Demo.managerOf Demo.driftDeck 0 []))
             (RuntimeError ("No well called '" +:+ "INJ" +:+ "'found"))).
    vm_compute. reflexivity.
Defined.
